(** * thefuzz: the scoring core ([_fuzz.py]) and its public wrappers ([fuzz.py])

    A shallow embedding of the pure-Python scoring path of thefuzz:
    - [Py]       the pieces of the Python runtime the code relies on
                 (exceptions, [None], [str] methods, [int]/[float] arithmetic);
    - [Difflib]  [difflib.SequenceMatcher] as the code uses it
                 ([isjunk=None], [autojunk=True]);
    - [Utils]    the helpers of [thefuzz/utils.py];
    - [PyFuzz]   [thefuzz/_fuzz.py];
    - [Fuzz]     [thefuzz/fuzz.py], over the backend bound at import time;
    - [Spec]     the scoring rules as the specification words them;
    - [Binary64] the float model run against hardware floats.

    Characters are code points below 256 ([ascii]); a Python [str] is a
    [list ascii]; Python integers are [Z]. *)

From Stdlib Require Import Ascii String List ZArith QArith Qround Qabs Qpower
  Lia Lqa Bool Arith Permutation Sorted.
From Stdlib Require PrimFloat FloatOps Uint63.
Import ListNotations.

(* ================================================================== *)
(** * The Python runtime used by the code *)

Module Py.

(** Exceptions the modelled code can raise.  [OutOfFuel] is not a Python
    exception: it marks a loop of the model that did not finish within its
    step budget (the theorems show that it never shows up). *)
Inductive exc : Set :=
| TypeError | ValueError | AttributeError | ZeroDivisionError | OutOfFuel.

Inductive result (A : Type) : Type :=
| Ok (x : A)
| Raise (e : exc).
Arguments Ok {A} x.
Arguments Raise {A} e.

Definition bind {A B} (r : result A) (k : A -> result B) : result B :=
  match r with
  | Ok x => k x
  | Raise e => Raise e
  end.

Notation "x <- r ;; k" := (bind r (fun x => k))
  (at level 61, r at next level, right associativity).

Definition str := list ascii.

(** String literals for examples. *)
Definition s_ (x : string) : str := list_ascii_of_string x.

(** A Python object as the scorers see it: [None] or a string. *)
Inductive pyobj : Type :=
| PyNone
| PyStr (s : str).

Definition str_eqb (x y : str) : bool :=
  if list_eq_dec ascii_dec x y then true else false.

(** [o1 == o2] *)
Definition py_eq (o1 o2 : pyobj) : bool :=
  match o1, o2 with
  | PyNone, PyNone => true
  | PyStr x, PyStr y => str_eqb x y
  | _, _ => false
  end.

(** [len(o)]: [None] has no length. *)
Definition len (o : pyobj) : result Z :=
  match o with
  | PyNone => Raise TypeError
  | PyStr s => Ok (Z.of_nat (length s))
  end.

(** A method call [o.split()], [o.strip()], ... on [None] raises
    [AttributeError]. *)
Definition as_str (o : pyobj) : result str :=
  match o with
  | PyNone => Raise AttributeError
  | PyStr s => Ok s
  end.

(** The one-character string [" "] is [[space]]. *)
Definition space : ascii := " "%char.

(** ** [str] methods *)

(** [c.isspace()] for the code points below 256. *)
Definition is_space (c : ascii) : bool :=
  let n := nat_of_ascii c in
  ((9 <=? n) && (n <=? 13)) || ((28 <=? n) && (n <=? 32))
  || (n =? 133) || (n =? 160).

Fixpoint lstrip (s : str) : str :=
  match s with
  | [] => []
  | c :: t => if is_space c then lstrip t else s
  end.

Definition rstrip (s : str) : str := rev (lstrip (rev s)).

(** [s.strip()] *)
Definition strip (s : str) : str := rstrip (lstrip s).

(** [s.split()]: the maximal runs of non-whitespace characters.  [cur] is
    the run being read, reversed. *)
Fixpoint split_from (cur : str) (s : str) : list str :=
  match s with
  | [] => match cur with [] => [] | _ => [rev cur] end
  | c :: t =>
      if is_space c
      then match cur with
           | [] => split_from [] t
           | _ => rev cur :: split_from [] t
           end
      else split_from (c :: cur) t
  end.

Definition split (s : str) : list str := split_from [] s.

(** [sep.join(l)] *)
Fixpoint join (sep : str) (l : list str) : str :=
  match l with
  | [] => []
  | [x] => x
  | x :: t => x ++ sep ++ join sep t
  end.

(** [x <= y] on strings: lexicographic on code points. *)
Fixpoint str_leb (x y : str) : bool :=
  match x, y with
  | [], _ => true
  | _ :: _, [] => false
  | c :: x', d :: y' =>
      let m := nat_of_ascii c in
      let n := nat_of_ascii d in
      if m <? n then true
      else if n <? m then false
      else str_leb x' y'
  end.

Section Sorting.
Variable A : Type.
Variable leb : A -> A -> bool.

Fixpoint insert_sorted (x : A) (l : list A) : list A :=
  match l with
  | [] => [x]
  | y :: t => if leb x y then x :: l else y :: insert_sorted x t
  end.

(** [sorted(l)]: insertion from the right keeps equal members in their
    original order, as Python's stable sort does. *)
Definition sorted (l : list A) : list A :=
  fold_right insert_sorted [] l.
End Sorting.
Arguments insert_sorted {A} leb x l.
Arguments sorted {A} leb l.

(** ** Sets of strings ([set(l)], [intersection], [difference]) *)

Definition mem (x : str) (l : list str) : bool :=
  existsb (str_eqb x) l.

(** [set(l)], as the list of its distinct members. *)
Definition set_of (l : list str) : list str := nodup (list_eq_dec ascii_dec) l.

Definition intersection (s t : list str) : list str :=
  filter (fun x => mem x t) s.

Definition difference (s t : list str) : list str :=
  filter (fun x => negb (mem x t)) s.

(** ** Numbers

    A Python [float] is an IEEE-754 binary64 number.  It is modelled by its
    exact rational value; every arithmetic operation returns the exact
    result rounded to the nearest number with a 53-bit significand, ties to
    even ([rnd]).  The exponent range is taken unbounded: binary64 overflows
    above 2^1023 and loses precision below 2^-1022, magnitudes that lengths
    and ratios of strings (at most 2^63 characters) never reach. *)

Definition float := Q.

Definition pow2 (k : Z) : Q := Qpower 2 k.

(** The integer [l] with [2^l <= q < 2^(l+1)], for [q > 0]. *)
Definition ilog2 (q : Q) : Z :=
  let k := (Z.log2 (Qnum q) - Z.log2 (Zpos (Qden q)))%Z in
  if Qle_bool (pow2 k) q then k else (k - 1)%Z.

(** Nearest integer, ties to the even one: Python's [round(x)] on a float. *)
Definition round_half_even (q : Q) : Z :=
  let f := Qfloor q in
  match Qcompare (q - inject_Z f) (1 # 2) with
  | Lt => f
  | Gt => (f + 1)%Z
  | Eq => if Z.even f then f else (f + 1)%Z
  end.

Definition prec : Z := 53.

(** Rounding of an exact value to the nearest float. *)
Definition rnd (q : Q) : float :=
  match Qnum q with
  | Z0 => 0
  | Zpos _ =>
      let e := (ilog2 q - (prec - 1))%Z in
      Qred (inject_Z (round_half_even (q / pow2 e)) * pow2 e)
  | Zneg _ =>
      let e := (ilog2 (- q) - (prec - 1))%Z in
      Qred (- (inject_Z (round_half_even ((- q) / pow2 e)) * pow2 e))
  end.

(** [float(z)] *)
Definition float_of_int (z : Z) : float := rnd (inject_Z z).

(** A float literal written [n/d] in decimal, e.g. [.95] is [95/100]. *)
Definition lit (n : Z) (d : positive) : float := rnd (n # d).

Definition fmul (x y : float) : float := rnd (x * y).

(** [x / y] for [y <> 0]. *)
Definition fdiv (x y : float) : float := rnd (x / y).

Definition Qltb (x y : Q) : bool := negb (Qle_bool y x).

(** A number is an [int] or a [float]; mixed arithmetic converts the [int]
    operand, mixed comparisons are exact. *)
Inductive num : Type :=
| Int (z : Z)
| Float (f : float).

Definition to_float (n : num) : float :=
  match n with
  | Int z => float_of_int z
  | Float f => f
  end.

(** The exact value of a number. *)
Definition value (n : num) : Q :=
  match n with
  | Int z => inject_Z z
  | Float f => f
  end.

(** [x * y] *)
Definition mul (x y : num) : num :=
  match x, y with
  | Int a, Int b => Int (a * b)
  | _, _ => Float (fmul (to_float x) (to_float y))
  end.

(** [x > y] and [x < y] *)
Definition gt (x y : num) : bool := Qltb (value y) (value x).
Definition lt (x y : num) : bool := Qltb (value x) (value y).

(** [max(x, y1, ..., yn)]: the first of the largest arguments. *)
Definition max_of (x : num) (l : list num) : num :=
  fold_left (fun m y => if gt y m then y else m) l x.

(** [max(l)] on a list; an empty one raises [ValueError]. *)
Definition max_list (l : list num) : result num :=
  match l with
  | [] => Raise ValueError
  | x :: t => Ok (max_of x t)
  end.

(** [round(x)] without digits returns an [int]. *)
Definition round (n : num) : Z :=
  match n with
  | Int z => z
  | Float f => round_half_even f
  end.

End Py.

Import Py.

(* ================================================================== *)
(** * [difflib.SequenceMatcher]

    The matcher is built as [SequenceMatcher(None, a, b)]: no junk
    predicate, and [autojunk] left at its default [True].  Indices are
    Python integers ([Z]). *)

Module Difflib.

(** [Match(a=i, b=j, size=k)] *)
Definition Match : Type := (Z * Z * Z)%type.

Definition size (m : Match) : Z := snd m.

(** [j2len]: a dictionary from indices to lengths, as an association list
    with the newest binding first. *)
Definition dict : Type := list (Z * Z).

(** [d.get(k, default)] *)
Fixpoint dict_get (d : dict) (k : Z) (default : Z) : Z :=
  match d with
  | [] => default
  | (k', v) :: t => if (k' =? k)%Z then v else dict_get t k default
  end.

(** [range(lo, hi)] *)
Definition range (lo hi : Z) : list Z :=
  map (fun n => (lo + Z.of_nat n)%Z) (seq 0 (Z.to_nat (hi - lo))).

Section SequenceMatcher.
Variables a b : str.

(** [a[i] == b[j]] for indices inside the sequences. *)
Definition same_at (i j : Z) : bool :=
  match nth_error a (Z.to_nat i), nth_error b (Z.to_nat j) with
  | Some x, Some y => Ascii.eqb x y
  | _, _ => false
  end.

(** ** [__chain_b] *)

(** The indices of [elt] in [s], counted from [j], in increasing order. *)
Fixpoint indices_from (j : Z) (elt : ascii) (s : str) : list Z :=
  match s with
  | [] => []
  | c :: t =>
      if Ascii.eqb c elt then j :: indices_from (j + 1) elt t
      else indices_from (j + 1) elt t
  end.

(** [isjunk] is [None]: the junk set stays empty. *)
Definition bjunk (elt : ascii) : bool := false.

(** With [autojunk] and [len(b) >= 200], an element that occurs more than
    [len(b) // 100 + 1] times is "popular" and purged from [b2j]. *)
Definition bpopular (elt : ascii) : bool :=
  let n := Z.of_nat (length b) in
  (200 <=? n)%Z
  && (n / 100 + 1 <? Z.of_nat (length (indices_from 0 elt b)))%Z.

(** [b2j.get(elt, [])] *)
Definition b2j (elt : ascii) : list Z :=
  if bjunk elt || bpopular elt then [] else indices_from 0 elt b.

(** ** [find_longest_match] *)

Section FindLongestMatch.
Variables alo ahi blo bhi : Z.

(** The inner loop [for j in b2j.get(a[i], nothing)], with its [continue]
    and [break]. *)
Fixpoint scan_row (i : Z) (js : list Z) (j2len newj2len : dict)
    (best : Match) : dict * Match :=
  match js with
  | [] => (newj2len, best)
  | j :: rest =>
      if (j <? blo)%Z then scan_row i rest j2len newj2len best
      else if (j >=? bhi)%Z then (newj2len, best)
      else
        let k := (dict_get j2len (j - 1) 0 + 1)%Z in
        let newj2len' := (j, k) :: newj2len in
        let '(_, _, bestsize) := best in
        let best' :=
          if (k >? bestsize)%Z then (i - k + 1, j - k + 1, k)%Z else best in
        scan_row i rest j2len newj2len' best'
  end.

(** The outer loop [for i in range(alo, ahi)]. *)
Fixpoint scan_rows (is_ : list Z) (j2len : dict) (best : Match) : Match :=
  match is_ with
  | [] => best
  | i :: rest =>
      let js := match nth_error a (Z.to_nat i) with
                | Some elt => b2j elt
                | None => []
                end in
      let '(newj2len, best') := scan_row i js j2len [] best in
      scan_rows rest newj2len best'
  end.

(** [while besti > alo and bestj > blo and (not) isbjunk(b[bestj-1]) and
    a[besti-1] == b[bestj-1]]; [junk] tells which of the two loops it is.
    [n] counts the iterations still possible ([besti - alo]). *)
Fixpoint extend_left (junk : bool) (n : nat) (best : Match) : Match :=
  let '(besti, bestj, bestsize) := best in
  match n with
  | O => best
  | S n' =>
      if (besti >? alo)%Z && (bestj >? blo)%Z
         && Bool.eqb junk
              (match nth_error b (Z.to_nat (bestj - 1)) with
               | Some elt => bjunk elt
               | None => false
               end)
         && same_at (besti - 1) (bestj - 1)
      then extend_left junk n' (besti - 1, bestj - 1, bestsize + 1)%Z
      else best
  end.

(** [while besti+bestsize < ahi and bestj+bestsize < bhi and (not)
    isbjunk(b[bestj+bestsize]) and a[besti+bestsize] == b[bestj+bestsize]];
    [n] counts the iterations still possible ([ahi - (besti+bestsize)]). *)
Fixpoint extend_right (junk : bool) (n : nat) (best : Match) : Match :=
  let '(besti, bestj, bestsize) := best in
  match n with
  | O => best
  | S n' =>
      if (besti + bestsize <? ahi)%Z && (bestj + bestsize <? bhi)%Z
         && Bool.eqb junk
              (match nth_error b (Z.to_nat (bestj + bestsize)) with
               | Some elt => bjunk elt
               | None => false
               end)
         && same_at (besti + bestsize) (bestj + bestsize)
      then extend_right junk n' (besti, bestj, bestsize + 1)%Z
      else best
  end.

Definition left_room (best : Match) : nat :=
  let '(besti, _, _) := best in Z.to_nat (besti - alo).

Definition right_room (best : Match) : nat :=
  let '(besti, _, bestsize) := best in Z.to_nat (ahi - (besti + bestsize)).

Definition find_longest_match : Match :=
  let best0 := scan_rows (range alo ahi) [] (alo, blo, 0%Z) in
  let best1 := extend_left false (left_room best0) best0 in
  let best2 := extend_right false (right_room best1) best1 in
  let best3 := extend_left true (left_room best2) best2 in
  extend_right true (right_room best3) best3.

End FindLongestMatch.

(** ** [get_matching_blocks] *)

(** The [while queue:] loop.  The queue is a stack: [queue.pop()] takes the
    entry appended last, which is the head of the list here. *)
Fixpoint blocks_loop (fuel : nat) (queue : list (Z * Z * Z * Z))
    (matching_blocks : list Match) : result (list Match) :=
  match queue with
  | [] => Ok matching_blocks
  | (alo, ahi, blo, bhi) :: queue' =>
      match fuel with
      | O => Raise OutOfFuel
      | S fuel' =>
          let '(i, j, k) := find_longest_match alo ahi blo bhi in
          if (k =? 0)%Z then blocks_loop fuel' queue' matching_blocks
          else
            let q1 := if (alo <? i)%Z && (blo <? j)%Z
                      then (alo, i, blo, j) :: queue' else queue' in
            let q2 := if (i + k <? ahi)%Z && (j + k <? bhi)%Z
                      then (i + k, ahi, j + k, bhi)%Z :: q1 else q1 in
            blocks_loop fuel' q2 (matching_blocks ++ [(i, j, k)])
      end
  end.

(** Tuples compare lexicographically. *)
Definition match_leb (x y : Match) : bool :=
  let '(i1, j1, k1) := x in
  let '(i2, j2, k2) := y in
  if (i1 <? i2)%Z then true
  else if (i2 <? i1)%Z then false
  else if (j1 <? j2)%Z then true
  else if (j2 <? j1)%Z then false
  else (k1 <=? k2)%Z.

(** The loop that collapses adjacent blocks; [cur] is [(i1, j1, k1)]. *)
Fixpoint collapse (cur : Match) (blocks : list Match)
    (non_adjacent : list Match) : list Match :=
  let '(i1, j1, k1) := cur in
  match blocks with
  | [] =>
      if (k1 =? 0)%Z then non_adjacent else non_adjacent ++ [cur]
  | (i2, j2, k2) :: rest =>
      if ((i1 + k1 =? i2) && (j1 + k1 =? j2))%Z
      then collapse (i1, j1, k1 + k2)%Z rest non_adjacent
      else collapse (i2, j2, k2) rest
             (if (k1 =? 0)%Z then non_adjacent else non_adjacent ++ [cur])
  end.

Definition la : Z := Z.of_nat (length a).
Definition lb : Z := Z.of_nat (length b).

(** Every pass of the loop takes one entry off the queue, and a pass that
    finds a block splits its range of [a] into strictly shorter ones, so
    [2 * len(a) + 1] passes are enough. *)
Definition blocks_fuel : nat := 2 * length a + 1.

Definition get_matching_blocks : result (list Match) :=
  matching_blocks <- blocks_loop blocks_fuel [(0, la, 0, lb)%Z] [] ;;
  let sorted_blocks := sorted match_leb matching_blocks in
  let non_adjacent := collapse (0, 0, 0)%Z sorted_blocks [] in
  Ok (non_adjacent ++ [(la, lb, 0%Z)]).

(** [_calculate_ratio(matches, length)] *)
Definition _calculate_ratio (matches length : Z) : float :=
  if (length =? 0)%Z then lit 1 1
  else fdiv (fmul (lit 2 1) (float_of_int matches)) (float_of_int length).

Definition sum_sizes (blocks : list Match) : Z :=
  fold_right (fun m acc => (size m + acc)%Z) 0%Z blocks.

(** [ratio()] *)
Definition ratio : result float :=
  blocks <- get_matching_blocks ;;
  Ok (_calculate_ratio (sum_sizes blocks) (la + lb)).

End SequenceMatcher.
End Difflib.

(* ================================================================== *)
(** * [thefuzz/utils.py] *)

Module Utils.

(** Modelled from the spec: [utils.validate_string] is not among the
    sources.  "A string is valid if, after this processing, its length is
    greater than zero"; an absent input has no length and is not valid. *)
Definition validate_string (s : pyobj) : bool :=
  match s with
  | PyNone => false
  | PyStr x => (0 <? Z.of_nat (length x))%Z
  end.

(** A scorer of two arguments, as the decorators wrap it. *)
Definition scorer : Type := pyobj -> pyobj -> result Z.

(** Modelled from the spec: the decorator [utils.check_for_equivalence] is
    not among the sources.  "Equivalence short-circuit (equal -> 100)". *)
Definition check_for_equivalence (func : scorer) : scorer :=
  fun s1 s2 => if py_eq s1 s2 then Ok 100%Z else func s1 s2.

(** Modelled from the spec: the decorator [utils.check_for_none] is not
    among the sources.  "A missing/null argument degrades to a score of 0". *)
Definition check_for_none (func : scorer) : scorer :=
  fun s1 s2 =>
    match s1, s2 with
    | PyNone, _ | _, PyNone => Ok 0%Z
    | _, _ => func s1 s2
    end.

(** Modelled from the spec: the decorator [utils.check_empty_string] is not
    among the sources.  "Empty-string short-circuit (either empty -> 0)";
    the test takes the length of the first argument, then of the second. *)
Definition check_empty_string (func : scorer) : scorer :=
  fun s1 s2 =>
    l1 <- len s1 ;;
    if (l1 =? 0)%Z then Ok 0%Z
    else
      l2 <- len s2 ;;
      if (l2 =? 0)%Z then Ok 0%Z else func s1 s2.

(** Modelled from the spec: the display representation a non-string input
    is coerced to ("coercion must be deterministic"). *)
Definition to_text (o : pyobj) : str :=
  match o with
  | PyNone => s_ "None"
  | PyStr x => x
  end.

(** Modelled from the spec: [utils.make_type_consistent] is not among the
    sources.  "Type coercion": both inputs leave as text; strings are
    unchanged. *)
Definition make_type_consistent (s1 s2 : pyobj) : str * str :=
  (to_text s1, to_text s2).

(** Modelled from the spec: [utils.intr] is not among the sources.  The
    score is "rounded ... via standard rounding" (round-half-to-even) to an
    integer. *)
Definition intr (n : num) : Z := round n.

(** The code point of [c] lies between [lo] and [hi]. *)
Definition in_range (lo hi : nat) (c : ascii) : bool :=
  let n := nat_of_ascii c in (lo <=? n) && (n <=? hi).

(** Modelled from the spec: the character classes [full_process] relies
    on are not among the sources.  "The printable ASCII range": space to
    tilde. *)
Definition is_printable_ascii (c : ascii) : bool := in_range 32 126 c.

(** Modelled from the spec: "alphanumeric characters" are the digits and
    the letters, here those with a code point below 256. *)
Definition is_digit (c : ascii) : bool := in_range 48 57 c.

Definition is_upper (c : ascii) : bool :=
  in_range 65 90 c || in_range 192 214 c || in_range 216 222 c.

(** The letters below 256: A-Z, a-z, the ordinal indicators U+00AA and
    U+00BA, the micro sign U+00B5, and U+00C0 to U+00FF without the
    multiplication and division signs. *)
Definition is_alpha (c : ascii) : bool :=
  is_upper c || in_range 97 122 c || in_range 170 170 c
  || in_range 181 181 c || in_range 186 186 c || in_range 223 246 c
  || in_range 248 255 c.

Definition is_alnum (c : ascii) : bool := is_digit c || is_alpha c.

(** Modelled from the spec: "lowercase" moves an upper-case letter to its
    lower-case form, 32 code points up. *)
Definition to_lower (c : ascii) : ascii :=
  if is_upper c then ascii_of_nat (nat_of_ascii c + 32) else c.

(** Modelled from the spec: "collapse runs of whitespace", each run into
    one space. *)
Fixpoint collapse_whitespace (s : str) : str :=
  match s with
  | [] => []
  | c :: t =>
      if is_space c
      then match t with
           | d :: _ => if is_space d then collapse_whitespace t
                       else space :: collapse_whitespace t
           | [] => [space]
           end
      else c :: collapse_whitespace t
  end.

(** Modelled from the spec: [utils.full_process] is not among the sources.
    "Coerce non-string input to its display representation; replace all
    non-alphanumeric characters with a single space; collapse runs of
    whitespace; trim leading/trailing whitespace; lowercase.  If
    [force_ascii] is true, strip or drop characters outside the printable
    ASCII range before the rest of normalization." *)
Definition full_process (s : pyobj) (force_ascii : bool) : str :=
  let s0 := to_text s in
  let s1 := if force_ascii then filter is_printable_ascii s0 else s0 in
  let s2 := map (fun c => if is_alnum c then c else space) s1 in
  let s3 := collapse_whitespace s2 in
  let s4 := strip s3 in
  map to_lower s4.

End Utils.

(* ================================================================== *)
(** * [thefuzz/_fuzz.py] *)

Module PyFuzz.
Import Utils.

(** [s[lo:hi]] for [0 <= lo]. *)
Definition slice (s : str) (lo hi : Z) : str :=
  firstn (Z.to_nat (hi - lo)) (skipn (Z.to_nat lo) s).

(** ** Basic scoring functions *)

Definition ratio : scorer :=
  check_for_equivalence (check_empty_string (fun s1 s2 =>
    let '(s1, s2) := make_type_consistent s1 s2 in
    r <- Difflib.ratio s1 s2 ;;
    Ok (intr (mul (Int 100) (Float r))))).

(** The loop [for block in blocks] of [partial_ratio], with the statement
    after it. *)
Fixpoint partial_loop (shorter longer : str) (blocks : list Difflib.Match)
    (scores : list num) : result Z :=
  match blocks with
  | [] =>
      m <- max_list scores ;;
      Ok (intr (mul (Int 100) m))
  | (block0, block1, _) :: rest =>
      let long_start :=
        if (block1 - block0 >? 0)%Z then (block1 - block0)%Z else 0%Z in
      let long_end := (long_start + Z.of_nat (length shorter))%Z in
      let long_substr := slice longer long_start long_end in
      r <- Difflib.ratio shorter long_substr ;;
      if gt (Float r) (Float (lit 995 1000)) then Ok 100%Z
      else partial_loop shorter longer rest (scores ++ [Float r])
  end.

Definition partial_ratio : scorer :=
  check_for_equivalence (check_empty_string (fun s1 s2 =>
    let '(s1, s2) := make_type_consistent s1 s2 in
    let '(shorter, longer) :=
      if (Z.of_nat (length s1) <=? Z.of_nat (length s2))%Z
      then (s1, s2) else (s2, s1) in
    blocks <- Difflib.get_matching_blocks shorter longer ;;
    partial_loop shorter longer blocks [])).

(** ** Advanced scoring functions *)

Definition _sort_tokens (s : pyobj) : result str :=
  s <- as_str s ;;
  let tokens := split s in
  let sorted_string := join [space] (sorted str_leb tokens) in
  Ok (strip sorted_string).

Definition _token_sort (s1 s2 : pyobj) (partial : bool) : result Z :=
  sorted1 <- _sort_tokens s1 ;;
  sorted2 <- _sort_tokens s2 ;;
  if partial then partial_ratio (PyStr sorted1) (PyStr sorted2)
  else ratio (PyStr sorted1) (PyStr sorted2).

Definition token_sort_ratio (s1 s2 : pyobj) : result Z :=
  _token_sort s1 s2 false.

Definition partial_token_sort_ratio (s1 s2 : pyobj) : result Z :=
  _token_sort s1 s2 true.

(** [max(pairwise)] on a list of integer scores. *)
Definition max_scores (l : list Z) : result Z :=
  m <- max_list (map Int l) ;;
  Ok (round m).

Definition _token_set (s1 s2 : pyobj) (partial : bool) : result Z :=
  if py_eq s1 s2 then Ok 100%Z
  else if negb (validate_string s1) then Ok 0%Z
  else if negb (validate_string s2) then Ok 0%Z
  else
    x1 <- as_str s1 ;;
    x2 <- as_str s2 ;;
    let tokens1 := set_of (split x1) in
    let tokens2 := set_of (split x2) in
    let intersection := intersection tokens1 tokens2 in
    let diff1to2 := difference tokens1 tokens2 in
    let diff2to1 := difference tokens2 tokens1 in
    let sorted_sect := join [space] (sorted str_leb intersection) in
    let sorted_1to2 := join [space] (sorted str_leb diff1to2) in
    let sorted_2to1 := join [space] (sorted str_leb diff2to1) in
    let combined_1to2 := sorted_sect ++ [space] ++ sorted_1to2 in
    let combined_2to1 := sorted_sect ++ [space] ++ sorted_2to1 in
    let sorted_sect := strip sorted_sect in
    let combined_1to2 := strip combined_1to2 in
    let combined_2to1 := strip combined_2to1 in
    let ratio_func := if partial then partial_ratio else ratio in
    p1 <- ratio_func (PyStr sorted_sect) (PyStr combined_1to2) ;;
    p2 <- ratio_func (PyStr sorted_sect) (PyStr combined_2to1) ;;
    p3 <- ratio_func (PyStr combined_1to2) (PyStr combined_2to1) ;;
    max_scores [p1; p2; p3].

Definition token_set_ratio (s1 s2 : pyobj) : result Z :=
  _token_set s1 s2 false.

Definition partial_token_set_ratio (s1 s2 : pyobj) : result Z :=
  _token_set s1 s2 true.

Definition WRatio (s1 s2 : pyobj) : result Z :=
  if negb (validate_string s1) then Ok 0%Z
  else if negb (validate_string s2) then Ok 0%Z
  else
    let try_partial := true in
    let unbase_scale := Float (lit 95 100) in
    let partial_scale := Float (lit 90 100) in
    base <- ratio s1 s2 ;;
    l1 <- len s1 ;;
    l2 <- len s2 ;;
    let len_ratio :=
      Float (fdiv (float_of_int (Z.max l1 l2))
                  (to_float (Int (Z.min l1 l2)))) in
    let try_partial :=
      if lt len_ratio (Float (lit 15 10)) then false else try_partial in
    let partial_scale :=
      if gt len_ratio (Int 8) then Float (lit 6 10) else partial_scale in
    if try_partial then
      pr <- partial_ratio s1 s2 ;;
      let partial := mul (Int pr) partial_scale in
      ptsr <- partial_token_sort_ratio s1 s2 ;;
      let ptsor := mul (mul (Int ptsr) unbase_scale) partial_scale in
      ptse <- partial_token_set_ratio s1 s2 ;;
      let ptser := mul (mul (Int ptse) unbase_scale) partial_scale in
      Ok (intr (max_of (Int base) [partial; ptsor; ptser]))
    else
      tsr <- token_sort_ratio s1 s2 ;;
      let tsor := mul (Int tsr) unbase_scale in
      tse <- token_set_ratio s1 s2 ;;
      let tser := mul (Int tse) unbase_scale in
      Ok (intr (max_of (Int base) [tsor; tser])).

End PyFuzz.

(* ================================================================== *)
(** * [thefuzz/fuzz.py] *)

Module Fuzz.
Import Utils.

(** The seven primitives [fuzz.py] imports, from [rapidfuzz.fuzz] when it
    is installed and from [._fuzz] otherwise.  They return numbers, which
    the wrappers round. *)
Record Backend : Type := {
  _ratio : pyobj -> pyobj -> result num;
  _partial_ratio : pyobj -> pyobj -> result num;
  _token_set_ratio : pyobj -> pyobj -> result num;
  _token_sort_ratio : pyobj -> pyobj -> result num;
  _partial_token_set_ratio : pyobj -> pyobj -> result num;
  _partial_token_sort_ratio : pyobj -> pyobj -> result num;
  _WRatio : pyobj -> pyobj -> result num
}.

Definition as_num (f : pyobj -> pyobj -> result Z) :
    pyobj -> pyobj -> result num :=
  fun s1 s2 => n <- f s1 s2 ;; Ok (Int n).

(** The [except ImportError] branch: the pure-Python scorers. *)
Definition pure_python : Backend := {|
  _ratio := as_num PyFuzz.ratio;
  _partial_ratio := as_num PyFuzz.partial_ratio;
  _token_set_ratio := as_num PyFuzz.token_set_ratio;
  _token_sort_ratio := as_num PyFuzz.token_sort_ratio;
  _partial_token_set_ratio := as_num PyFuzz.partial_token_set_ratio;
  _partial_token_sort_ratio := as_num PyFuzz.partial_token_sort_ratio;
  _WRatio := as_num PyFuzz.WRatio
|}.

Section Public.
Variable backend : Backend.

(** [utils.full_process(s, force_ascii=force_ascii) if full_process else s] *)
Definition preprocess (s : pyobj) (force_ascii full_process : bool) : pyobj :=
  if full_process then PyStr (Utils.full_process s force_ascii) else s.

(** [utils.intr(f(p1, p2, processor=None))] *)
Definition rounded (f : pyobj -> pyobj -> result num) (p1 p2 : pyobj) :
    result Z :=
  n <- f p1 p2 ;; Ok (intr n).

Definition ratio : scorer :=
  check_for_none (fun s1 s2 => rounded (_ratio backend) s1 s2).

Definition partial_ratio : scorer :=
  check_for_none (fun s1 s2 => rounded (_partial_ratio backend) s1 s2).

Definition token_sort_ratio (s1 s2 : pyobj)
    (force_ascii full_process : bool) : result Z :=
  check_for_none (fun s1 s2 =>
    let p1 := preprocess s1 force_ascii full_process in
    let p2 := preprocess s2 force_ascii full_process in
    rounded (_token_sort_ratio backend) p1 p2) s1 s2.

Definition partial_token_sort_ratio (s1 s2 : pyobj)
    (force_ascii full_process : bool) : result Z :=
  check_for_none (fun s1 s2 =>
    let p1 := preprocess s1 force_ascii full_process in
    let p2 := preprocess s2 force_ascii full_process in
    rounded (_partial_token_sort_ratio backend) p1 p2) s1 s2.

Definition token_set_ratio (s1 s2 : pyobj)
    (force_ascii full_process : bool) : result Z :=
  check_for_none (fun s1 s2 =>
    let p1 := preprocess s1 force_ascii full_process in
    let p2 := preprocess s2 force_ascii full_process in
    rounded (_token_set_ratio backend) p1 p2) s1 s2.

Definition partial_token_set_ratio (s1 s2 : pyobj)
    (force_ascii full_process : bool) : result Z :=
  check_for_none (fun s1 s2 =>
    let p1 := preprocess s1 force_ascii full_process in
    let p2 := preprocess s2 force_ascii full_process in
    rounded (_partial_token_set_ratio backend) p1 p2) s1 s2.

(** ** Combination API *)

Definition QRatio (s1 s2 : pyobj) (force_ascii full_process : bool) :
    result Z :=
  let p1 := preprocess s1 force_ascii full_process in
  let p2 := preprocess s2 force_ascii full_process in
  if negb (validate_string p1) then Ok 0%Z
  else if negb (validate_string p2) then Ok 0%Z
  else ratio p1 p2.

Definition UQRatio (s1 s2 : pyobj) (full_process : bool) : result Z :=
  QRatio s1 s2 false full_process.

Definition WRatio (s1 s2 : pyobj) (force_ascii full_process : bool) :
    result Z :=
  let p1 := preprocess s1 force_ascii full_process in
  let p2 := preprocess s2 force_ascii full_process in
  rounded (_WRatio backend) p1 p2.

Definition UWRatio (s1 s2 : pyobj) (full_process : bool) : result Z :=
  WRatio s1 s2 false full_process.

End Public.
End Fuzz.

(* ================================================================== *)
(** * The scoring rules as the specification words them *)

Module Spec.
Import Utils.

(** "[ratio_or_partial] is [partial_ratio] if requested, else [ratio]". *)
Definition ratio_or_partial (partial : bool) (x y : str) : result Z :=
  if partial then PyFuzz.partial_ratio (PyStr x) (PyStr y)
  else PyFuzz.ratio (PyStr x) (PyStr y).

(** A largest of two numbers, and of a list of floats. *)
Definition larger (x y : num) : num :=
  if Qle_bool (value x) (value y) then y else x.

Definition largest (r : float) (rs : list float) : float :=
  fold_right (fun x m => if Qle_bool m x then x else m) r rs.

(** ** Partial ratio *)

(** The candidate window of a block [(i, j, k)]: it starts at
    [max(j - i, 0)] and has the length of [shorter], clipped to [longer]. *)
Definition window (shorter longer : str) (block : Difflib.Match) : str :=
  let '(i, j, _) := block in
  let start := Z.max (j - i) 0 in
  PyFuzz.slice longer start (start + Z.of_nat (length shorter)).

(** The fractional ratio of every candidate window. *)
Fixpoint candidates (shorter longer : str) (blocks : list Difflib.Match) :
    result (list float) :=
  match blocks with
  | [] => Ok []
  | block :: rest =>
      r <- Difflib.ratio shorter (window shorter longer block) ;;
      rs <- candidates shorter longer rest ;;
      Ok (r :: rs)
  end.

(** "The result is the maximum such ratio over all blocks, as a
    percentage.  If no blocks exist, define the result as 0." *)
Definition best_percentage (rs : list float) : result Z :=
  match rs with
  | [] => Ok 0%Z
  | r :: rs' =>
      Ok (round_half_even (fmul (float_of_int 100) (largest r rs')))
  end.

(** "Short-circuit: if any candidate ratio exceeds 0.995, return 100." *)
Definition partial_ratio (s1 s2 : str) : result Z :=
  let shorter := if (length s1 <=? length s2)%nat then s1 else s2 in
  let longer := if (length s1 <=? length s2)%nat then s2 else s1 in
  blocks <- Difflib.get_matching_blocks shorter longer ;;
  rs <- candidates shorter longer blocks ;;
  if existsb (fun r => Qltb (lit 995 1000) r) rs then Ok 100%Z
  else best_percentage rs.

(** ** Token set *)

(** [sect], [combined_1] and [combined_2], all trimmed. *)
Definition token_set_strings (s1 s2 : str) : str * str * str :=
  let tokens1 := set_of (split s1) in
  let tokens2 := set_of (split s2) in
  let sect :=
    strip (join [space] (sorted str_leb (intersection tokens1 tokens2))) in
  let rest1 := join [space] (sorted str_leb (difference tokens1 tokens2)) in
  let rest2 := join [space] (sorted str_leb (difference tokens2 tokens1)) in
  (sect, strip (sect ++ [space] ++ rest1), strip (sect ++ [space] ++ rest2)).

Definition token_set (partial : bool) (s1 s2 : str) : result Z :=
  let '(sect, combined_1, combined_2) := token_set_strings s1 s2 in
  a <- ratio_or_partial partial sect combined_1 ;;
  b <- ratio_or_partial partial sect combined_2 ;;
  c <- ratio_or_partial partial combined_1 combined_2 ;;
  Ok (Z.max a (Z.max b c)).

(** ** WRatio *)

(** [score × f1 × f2 ...] *)
Definition scaled (score : Z) (factors : list float) : num :=
  fold_left (fun n f => mul n (Float f)) factors (Int score).

Definition len_ratio (s1 s2 : str) : float :=
  let n1 := Z.of_nat (length s1) in
  let n2 := Z.of_nat (length s2) in
  fdiv (float_of_int (Z.max n1 n2)) (float_of_int (Z.min n1 n2)).

Definition WRatio (s1 s2 : str) : result Z :=
  let p1 := PyStr s1 in
  let p2 := PyStr s2 in
  base <- PyFuzz.ratio p1 p2 ;;
  if Qltb (len_ratio s1 s2) (lit 15 10) then
    tsr <- PyFuzz.token_sort_ratio p1 p2 ;;
    tse <- PyFuzz.token_set_ratio p1 p2 ;;
    let tsor := scaled tsr [lit 95 100] in
    let tser := scaled tse [lit 95 100] in
    Ok (round (larger (Int base) (larger tsor tser)))
  else
    let partial_scale :=
      if Qltb 8 (len_ratio s1 s2) then lit 6 10 else lit 9 10 in
    pr <- PyFuzz.partial_ratio p1 p2 ;;
    ptsr <- PyFuzz.partial_token_sort_ratio p1 p2 ;;
    ptse <- PyFuzz.partial_token_set_ratio p1 p2 ;;
    let partial := scaled pr [partial_scale] in
    let ptsor := scaled ptsr [lit 95 100; partial_scale] in
    let ptser := scaled ptse [lit 95 100; partial_scale] in
    Ok (round (larger (Int base) (larger partial (larger ptsor ptser)))).

(** The total size of the blocks the aligner reports for [(a, b)]. *)
Definition matches (a b : str) : result Z :=
  blocks <- Difflib.get_matching_blocks a b ;;
  Ok (Difflib.sum_sizes blocks).

(** [needle] occurs in [hay] as a contiguous substring. *)
Definition occurs_in (needle hay : str) : Prop :=
  exists pre post, hay = pre ++ needle ++ post.

End Spec.

(* ================================================================== *)
(** * The float model against the hardware

    Rocq's primitive floats are binary64 numbers; the operations of the
    scorers can be run on them and compared with the model. *)

Module Binary64.

(** The exact value of a finite hardware float. *)
Definition value_of (f : PrimFloat.float) : option Q :=
  match FloatOps.Prim2SF f with
  | SpecFloat.S754_zero _ => Some 0%Q
  | SpecFloat.S754_finite s m e =>
      Some (Qred ((if s then -1 else 1) * inject_Z (Zpos m) * pow2 e)%Q)
  | _ => None
  end.

Definition of_int (z : Z) : PrimFloat.float :=
  PrimFloat.of_uint63 (Uint63.of_Z z).

(** [100 * (2.0 * m / t)], [x / y], [x * .95 * .9] and [x * .6] on the
    hardware and in the model. *)
Definition agree (m t : Z) : bool :=
  let hw_ratio :=
    PrimFloat.div (PrimFloat.mul (of_int 2) (of_int m)) (of_int t) in
  let ratio := Difflib._calculate_ratio m t in
  let hw_95 := PrimFloat.div (of_int 95) (of_int 100) in
  let hw_9 := PrimFloat.div (of_int 9) (of_int 10) in
  let same hw q :=
    match value_of hw with
    | Some v => Qeq_bool v q
    | None => false
    end in
  same hw_ratio ratio
  && same (PrimFloat.mul (of_int 100) hw_ratio)
          (fmul (float_of_int 100) ratio)
  && same (PrimFloat.mul (PrimFloat.mul (of_int m) hw_95) hw_9)
          (fmul (fmul (float_of_int m) (lit 95 100)) (lit 90 100))
  && same (PrimFloat.div (of_int t) (of_int m))
          (fdiv (float_of_int t) (float_of_int m)).

Definition pairs (n : nat) : list (Z * Z) :=
  flat_map (fun t => map (fun m => (Z.of_nat m, Z.of_nat t)) (seq 1 t))
           (seq 1 n).

End Binary64.

(** Literals and inputs used in the examples. *)
Definition py (x : string) : pyobj := PyStr (s_ x).

Fixpoint repeat_str (n : nat) (s : str) : str :=
  match n with
  | O => []
  | S n' => s ++ repeat_str n' s
  end.

(** ** Predicates used in the statements *)

(** A string with no whitespace at either end. *)
Definition starts_clean (x : str) : Prop :=
  match x with
  | [] => True
  | c :: _ => is_space c = false
  end.

Definition trimmed (x : str) : Prop := starts_clean x /\ starts_clean (rev x).

(** A token: non-empty and free of whitespace. *)
Definition token (t : str) : Prop :=
  t <> [] /\ forallb (fun c => negb (is_space c)) t = true.

(** A block that lies inside the ranges [a[alo:ahi]] and [b[blo:bhi]]. *)
Definition inside (alo ahi blo bhi : Z) (m : Difflib.Match) : Prop :=
  let '(i, j, k) := m in
  (alo <= i /\ blo <= j /\ 0 <= k /\ i + k <= ahi /\ j + k <= bhi)%Z.

(** The lengths kept in [j2len] while row [i] is scanned: the entry of [j]
    is at most the number of characters read so far in either range. *)
Definition row_ok (alo blo i : Z) (d : Difflib.dict) : Prop :=
  forall j : Z,
    (0 <= Difflib.dict_get d j 0
     <= Z.max 0 (Z.min (i - alo + 1) (j - blo + 1)))%Z.

Definition region : Type := (Z * Z * Z * Z)%type.

Definition region_ok (r : region) : Prop :=
  let '(alo, ahi, blo, bhi) := r in (alo <= ahi /\ blo <= bhi)%Z.

(** The passes a queue of ranges can still cost, and the characters of [a]
    and of [b] it still covers. *)
Definition weight (queue : list region) : nat :=
  fold_right (fun r acc =>
    let '(alo, ahi, _, _) := r in (2 * Z.to_nat (ahi - alo) + 1 + acc)%nat)
    0%nat queue.

Definition room_a (queue : list region) : Z :=
  fold_right (fun r acc => let '(alo, ahi, _, _) := r in (ahi - alo + acc)%Z)
    0%Z queue.

Definition room_b (queue : list region) : Z :=
  fold_right (fun r acc => let '(_, _, blo, bhi) := r in (bhi - blo + acc)%Z)
    0%Z queue.

(** A value a float can hold: zero, or [C * 2^E] with a significand [C] of
    at most 53 bits. *)
Definition is_float (c : Q) : Prop :=
  c == 0 \/ exists C E : Z, (0 < C < 2 ^ prec)%Z /\ c == inject_Z C * pow2 E.

(** A number between 0 and 100. *)
Definition is_score (n : num) : Prop := 0 <= value n <= 100.

(** A fraction between 0 and 1. *)
Definition is_fraction (n : num) : Prop := 0 <= value n <= 1.

(** A call that returns a score: an integer from 0 to 100. *)
Definition returns_score (r : result Z) : Prop :=
  exists n : Z, r = Ok n /\ (0 <= n <= 100)%Z.

(** A largest member of a list of numbers. *)
Definition is_max (m : num) (l : list num) : Prop :=
  In m l /\ forall y, In y l -> (value y <= value m)%Q.

(** A block whose characters really agree. *)
Definition valid_match (a b : str) (m : Difflib.Match) : Prop :=
  let '(i, j, k) := m in
  forall t : Z, (0 <= t < k)%Z -> Difflib.same_at a b (i + t) (j + t) = true.

(** The lengths kept in [j2len] for row [i] are lengths of common runs
    that end at [a[i]] and [b[j]]. *)
Definition row_sound (a b : str) (i : Z) (d : Difflib.dict) : Prop :=
  forall j t : Z,
    (0 <= t < Difflib.dict_get d j 0)%Z ->
    Difflib.same_at a b (i - t) (j - t) = true.

(** Two strings with no character in common. *)
Definition disjoint (x y : str) : Prop := forall c, In c x -> ~ In c y.

(** The order [sorted] puts the tokens in: [<=] on Python strings. *)
Definition str_le (x y : str) : Prop := str_leb x y = true.

(** The most a scaled score of [WRatio] can reach for strings of lengths
    [l1] and [l2]: 95 for the token scores, taken when the longer string is
    less than 1.5 times the shorter; 90 for the partial scores, 60 when the
    longer string is more than 8 times the shorter. *)
Definition WRatio_cap (l1 l2 : Z) : Z :=
  let lo := Z.min l1 l2 in
  let hi := Z.max l1 l2 in
  if (2 * hi <? 3 * lo)%Z then 95%Z
  else if (8 * lo <? hi)%Z then 60%Z else 90%Z.

(* ================================================================== *)
(** * Properties *)

Import Utils.

(** ** Equality and the short-circuit decorators *)

Lemma str_eqb_refl (x : str) : str_eqb x x = true.
Proof. unfold str_eqb. destruct (list_eq_dec ascii_dec x x); congruence. Qed.

Lemma str_eqb_eq (x y : str) : str_eqb x y = true <-> x = y.
Proof.
  unfold str_eqb. destruct (list_eq_dec ascii_dec x y); split; congruence.
Qed.

Lemma str_eqb_neq (x y : str) : x <> y -> str_eqb x y = false.
Proof.
  intro H. destruct (str_eqb x y) eqn:E; [ | reflexivity ].
  apply str_eqb_eq in E. contradiction.
Qed.

Lemma str_eqb_sym (x y : str) : str_eqb x y = str_eqb y x.
Proof.
  destruct (list_eq_dec ascii_dec x y) as [-> | N].
  - reflexivity.
  - rewrite (str_eqb_neq _ _ N). symmetry. apply str_eqb_neq. congruence.
Qed.

Lemma py_eq_sym (o1 o2 : pyobj) : py_eq o1 o2 = py_eq o2 o1.
Proof. destruct o1, o2; simpl; auto using str_eqb_sym. Qed.

Lemma length_zero_iff (x : str) : (Z.of_nat (length x) =? 0)%Z = true <-> x = [].
Proof.
  rewrite Z.eqb_eq. destruct x; simpl; split; intro H;
    try reflexivity; try discriminate; lia.
Qed.

(** A scorer wrapped in both decorators, on two strings. *)
Lemma guarded_equal (f : scorer) (x : str) :
  check_for_equivalence (check_empty_string f) (PyStr x) (PyStr x) = Ok 100%Z.
Proof. unfold check_for_equivalence. simpl. now rewrite str_eqb_refl. Qed.

Lemma guarded_empty (f : scorer) (x y : str) :
  x <> y -> x = [] \/ y = [] ->
  check_for_equivalence (check_empty_string f) (PyStr x) (PyStr y) = Ok 0%Z.
Proof.
  intros N E. unfold check_for_equivalence, check_empty_string. simpl.
  rewrite (str_eqb_neq _ _ N).
  destruct E as [-> | ->]; simpl; [ reflexivity | ].
  destruct x; reflexivity.
Qed.

Lemma guarded_body (f : scorer) (x y : str) :
  x <> y -> x <> [] -> y <> [] ->
  check_for_equivalence (check_empty_string f) (PyStr x) (PyStr y)
  = f (PyStr x) (PyStr y).
Proof.
  intros N Hx Hy. unfold check_for_equivalence, check_empty_string. simpl.
  rewrite (str_eqb_neq _ _ N).
  destruct x; [ congruence | ]. destruct y; [ congruence | ]. reflexivity.
Qed.

(** C5: for [ratio] and [partial_ratio] (the scorers of [_fuzz.py] and the
    public wrappers over them), two identical strings, empty ones included,
    score 100; two different strings of which one is empty score 0. *)
Theorem basic_ratio_short_circuits (s1 s2 : str) :
  (s1 = s2 ->
     PyFuzz.ratio (PyStr s1) (PyStr s2) = Ok 100%Z
     /\ PyFuzz.partial_ratio (PyStr s1) (PyStr s2) = Ok 100%Z
     /\ Fuzz.ratio Fuzz.pure_python (PyStr s1) (PyStr s2) = Ok 100%Z
     /\ Fuzz.partial_ratio Fuzz.pure_python (PyStr s1) (PyStr s2) = Ok 100%Z)
  /\ (s1 <> s2 -> s1 = [] \/ s2 = [] ->
     PyFuzz.ratio (PyStr s1) (PyStr s2) = Ok 0%Z
     /\ PyFuzz.partial_ratio (PyStr s1) (PyStr s2) = Ok 0%Z
     /\ Fuzz.ratio Fuzz.pure_python (PyStr s1) (PyStr s2) = Ok 0%Z
     /\ Fuzz.partial_ratio Fuzz.pure_python (PyStr s1) (PyStr s2) = Ok 0%Z).
Proof.
  split.
  - intros <-.
    assert (R : PyFuzz.ratio (PyStr s1) (PyStr s1) = Ok 100%Z)
      by apply guarded_equal.
    assert (P : PyFuzz.partial_ratio (PyStr s1) (PyStr s1) = Ok 100%Z)
      by apply guarded_equal.
    repeat split; try assumption.
    + unfold Fuzz.ratio, Fuzz.rounded. simpl. unfold Fuzz.as_num.
      now rewrite R.
    + unfold Fuzz.partial_ratio, Fuzz.rounded. simpl. unfold Fuzz.as_num.
      now rewrite P.
  - intros N E.
    assert (R : PyFuzz.ratio (PyStr s1) (PyStr s2) = Ok 0%Z)
      by now apply guarded_empty.
    assert (P : PyFuzz.partial_ratio (PyStr s1) (PyStr s2) = Ok 0%Z)
      by now apply guarded_empty.
    repeat split; try assumption.
    + unfold Fuzz.ratio, Fuzz.rounded. simpl. unfold Fuzz.as_num.
      now rewrite R.
    + unfold Fuzz.partial_ratio, Fuzz.rounded. simpl. unfold Fuzz.as_num.
      now rewrite P.
Qed.

(** Two empty strings score 100, an empty and a non-empty one score 0. *)
Lemma basic_ratio_short_circuits_witness :
  PyFuzz.ratio (py "") (py "") = Ok 100%Z
  /\ PyFuzz.partial_ratio (py "") (py "x") = Ok 0%Z.
Proof.
  split.
  - apply (proj1 (basic_ratio_short_circuits [] [])). reflexivity.
  - apply (proj2 (basic_ratio_short_circuits [] (s_ "x"))).
    + discriminate.
    + left. reflexivity.
Defined.

(** ** Absent arguments *)

(** The six scorers under [@utils.check_for_none] score an absent argument
    0, whatever backend is bound and whatever the other argument and the
    flags are. *)
Lemma decorated_scorers_none (backend : Fuzz.Backend) (s1 s2 : pyobj)
    (force_ascii full_process : bool) :
  s1 = PyNone \/ s2 = PyNone ->
  Fuzz.ratio backend s1 s2 = Ok 0%Z
  /\ Fuzz.partial_ratio backend s1 s2 = Ok 0%Z
  /\ Fuzz.token_sort_ratio backend s1 s2 force_ascii full_process = Ok 0%Z
  /\ Fuzz.partial_token_sort_ratio backend s1 s2 force_ascii full_process
     = Ok 0%Z
  /\ Fuzz.token_set_ratio backend s1 s2 force_ascii full_process = Ok 0%Z
  /\ Fuzz.partial_token_set_ratio backend s1 s2 force_ascii full_process
     = Ok 0%Z.
Proof.
  intros [-> | ->]; repeat split; try reflexivity; destruct s1; reflexivity.
Qed.

(** Without preprocessing, the combination scorers of the pure-Python path
    score an absent argument 0 too: [validate_string] refuses it. *)
Lemma combination_scorers_none_unprocessed (s1 s2 : pyobj) :
  s1 = PyNone \/ s2 = PyNone ->
  Fuzz.QRatio Fuzz.pure_python s1 s2 true false = Ok 0%Z
  /\ Fuzz.UQRatio Fuzz.pure_python s1 s2 false = Ok 0%Z
  /\ Fuzz.WRatio Fuzz.pure_python s1 s2 true false = Ok 0%Z
  /\ Fuzz.UWRatio Fuzz.pure_python s1 s2 false = Ok 0%Z.
Proof.
  intros [-> | ->].
  - repeat split; reflexivity.
  - unfold Fuzz.UQRatio, Fuzz.UWRatio, Fuzz.QRatio, Fuzz.WRatio,
      Fuzz.rounded, Fuzz.preprocess. simpl. unfold Fuzz.as_num, PyFuzz.WRatio.
    destruct (validate_string s1); simpl; repeat split; reflexivity.
Qed.

(** C3 (at the failing input): [QRatio] and [WRatio] carry no
    [check_for_none]; with their default flags an absent argument is turned
    into text by the preprocessing and scored: against the string "none" it
    scores 100, not 0, in either position. *)
Theorem combination_scorers_score_none :
  Fuzz.QRatio Fuzz.pure_python PyNone (py "none") true true = Ok 100%Z
  /\ Fuzz.QRatio Fuzz.pure_python (py "none") PyNone true true = Ok 100%Z
  /\ Fuzz.WRatio Fuzz.pure_python PyNone (py "none") true true = Ok 100%Z
  /\ Fuzz.WRatio Fuzz.pure_python (py "none") PyNone true true = Ok 100%Z.
Proof. repeat split; vm_compute; reflexivity. Qed.

(** ** Symmetry of the full ratio *)

(** C6 (counterexample): the aligner finds one common character in
    ("tide", "diet") and two in ("diet", "tide"), so the two orders score 25
    and 50. *)
Lemma ratio_not_symmetric :
  ~ (forall s1 s2 : str,
       PyFuzz.ratio (PyStr s1) (PyStr s2) = PyFuzz.ratio (PyStr s2) (PyStr s1)).
Proof.
  intro H. specialize (H (s_ "tide") (s_ "diet")).
  vm_compute in H. discriminate H.
Qed.

Lemma difflib_ratio_matches (a b : str) :
  Difflib.ratio a b
  = (m <- Spec.matches a b ;;
     Ok (Difflib._calculate_ratio m (Difflib.la a + Difflib.lb b))).
Proof.
  unfold Difflib.ratio, Spec.matches.
  destruct (Difflib.get_matching_blocks a b); reflexivity.
Qed.

(** ** Whitespace, tokens and trimming *)

Lemma lstrip_starts_clean (x : str) : starts_clean (lstrip x).
Proof.
  induction x as [ | c t IH]; simpl; [ exact I | ].
  destruct (is_space c) eqn:E; [ exact IH | exact E ].
Qed.

Lemma lstrip_clean (x : str) : starts_clean x -> lstrip x = x.
Proof. destruct x as [ | c t]; simpl; [ reflexivity | ]. now intros ->. Qed.

Lemma lstrip_keeps_last (u : str) (c : ascii) :
  is_space c = false -> exists v, lstrip (u ++ [c]) = v ++ [c].
Proof.
  intro E. induction u as [ | d u IH]; simpl.
  - rewrite E. now exists [].
  - destruct (is_space d); [ exact IH | now exists (d :: u) ].
Qed.

Lemma strip_trimmed (x : str) : trimmed x -> strip x = x.
Proof.
  intros [H1 H2]. unfold strip, rstrip.
  rewrite (lstrip_clean _ H1), (lstrip_clean _ H2). apply rev_involutive.
Qed.

(** What [strip] returns is empty or starts with a visible character. *)
Lemma strip_starts_clean (x : str) : starts_clean (strip x).
Proof.
  unfold strip, rstrip.
  pose proof (lstrip_starts_clean x) as H.
  destruct (lstrip x) as [ | c t]; [ exact I | ].
  simpl in H. simpl rev.
  destruct (lstrip_keeps_last (rev t) c H) as [v ->].
  rewrite rev_app_distr. simpl. exact H.
Qed.

Lemma token_trimmed (t : str) : token t -> trimmed t.
Proof.
  intros [_ H]. split.
  - destruct t as [ | c t]; simpl in *; [ exact I | ].
    apply andb_prop in H. now apply negb_true_iff.
  - assert (R : forallb (fun c => negb (is_space c)) (rev t) = true).
    { rewrite forallb_forall in *. intros c Hc. apply H. now apply in_rev. }
    destruct (rev t) as [ | c r]; simpl in *; [ exact I | ].
    apply andb_prop in R. now apply negb_true_iff.
Qed.

Lemma split_from_tokens (s cur : str) :
  forallb (fun c => negb (is_space c)) cur = true ->
  Forall token (split_from cur s).
Proof.
  revert cur. induction s as [ | c t IH]; intros cur Hcur; simpl.
  - destruct cur as [ | d cur']; [ constructor | ].
    constructor; [ | constructor ]. split.
    + intro E. apply (f_equal (@rev ascii)) in E.
      rewrite rev_involutive in E. discriminate.
    + rewrite forallb_forall in *. intros x Hx. apply Hcur. now apply in_rev.
  - destruct (is_space c) eqn:E.
    + destruct cur as [ | d cur'].
      * now apply IH.
      * constructor; [ | now apply IH ]. split.
        -- intro E'. apply (f_equal (@rev ascii)) in E'.
           rewrite rev_involutive in E'. discriminate.
        -- rewrite forallb_forall in *. intros x Hx. apply Hcur.
           now apply in_rev.
    + apply IH. simpl. now rewrite E, Hcur.
Qed.

Lemma split_tokens (s : str) : Forall token (split s).
Proof. now apply split_from_tokens. Qed.

Lemma split_from_nonempty (s cur : str) :
  cur <> [] \/ existsb (fun c => negb (is_space c)) s = true ->
  split_from cur s <> [].
Proof.
  revert cur. induction s as [ | c t IH]; intros cur H; simpl.
  - destruct H as [H | H]; [ | discriminate ].
    destruct cur; [ congruence | discriminate ].
  - destruct (is_space c) eqn:E.
    + destruct cur as [ | d cur']; [ | discriminate ].
      apply IH. right. destruct H as [H | H]; [ congruence | ].
      simpl in H. now rewrite E in H.
    + apply IH. left. discriminate.
Qed.

Lemma insert_sorted_Forall (A : Type) (leb : A -> A -> bool) (P : A -> Prop)
    (x : A) (l : list A) :
  P x -> Forall P l -> Forall P (insert_sorted leb x l).
Proof.
  intros Hx Hl. induction Hl as [ | y l Hy Hl IH]; simpl.
  - now constructor.
  - destruct (leb x y); repeat constructor; assumption.
Qed.

Lemma sorted_Forall (A : Type) (leb : A -> A -> bool) (P : A -> Prop)
    (l : list A) :
  Forall P l -> Forall P (sorted leb l).
Proof.
  induction 1 as [ | x l Hx Hl IH]; simpl; [ constructor | ].
  now apply insert_sorted_Forall.
Qed.

Lemma insert_sorted_length (A : Type) (leb : A -> A -> bool) (x : A)
    (l : list A) :
  length (insert_sorted leb x l) = S (length l).
Proof.
  induction l as [ | y l IH]; simpl; [ reflexivity | ].
  destruct (leb x y); simpl; now rewrite ?IH.
Qed.

Lemma sorted_length (A : Type) (leb : A -> A -> bool) (l : list A) :
  length (sorted leb l) = length l.
Proof.
  induction l as [ | x l IH]; simpl; [ reflexivity | ].
  now rewrite insert_sorted_length, IH.
Qed.

Lemma join_tokens_nonempty (l : list str) :
  Forall token l -> l <> [] -> join [space] l <> [].
Proof.
  intros H N. destruct H as [ | t l [Ht _] Hl]; [ congruence | ].
  simpl. destruct l; [ exact Ht | ].
  destruct t; [ congruence | discriminate ].
Qed.

(** Tokens joined by single spaces make a trimmed string. *)
Lemma join_tokens_trimmed (l : list str) :
  Forall token l -> trimmed (join [space] l).
Proof.
  induction 1 as [ | t l Ht Hl IH]; [ split; exact I | ].
  destruct l as [ | u l'].
  - simpl. now apply token_trimmed.
  - change (join [space] (t :: u :: l'))
      with (t ++ [space] ++ join [space] (u :: l')).
    pose proof (token_trimmed _ Ht) as [T1 _].
    destruct Ht as [Tn _]. destruct IH as [_ I2].
    assert (J : join [space] (u :: l') <> [])
      by (apply join_tokens_nonempty; [ assumption | discriminate ]).
    split.
    + destruct t; [ congruence | exact T1 ].
    + rewrite !rev_app_distr.
      destruct (rev (join [space] (u :: l'))) as [ | c r] eqn:E.
      * exfalso. apply J.
        rewrite <- (rev_involutive (join [space] (u :: l'))), E.
        reflexivity.
      * exact I2.
Qed.

Lemma strip_join_tokens (l : list str) :
  Forall token l -> strip (join [space] l) = join [space] l.
Proof. intro H. apply strip_trimmed. now apply join_tokens_trimmed. Qed.

(** ** What [full_process] returns *)

Lemma to_lower_space (c : ascii) : is_space (to_lower c) = is_space c.
Proof.
  destruct c as [[] [] [] [] [] [] [] []]; reflexivity.
Qed.

(** A processed string is empty or starts with a visible character. *)
Lemma full_process_starts_clean (o : pyobj) (force_ascii : bool) :
  starts_clean (full_process o force_ascii).
Proof.
  unfold full_process.
  match goal with |- context [strip ?x] =>
    pose proof (strip_starts_clean x) as H; destruct (strip x) as [ | c t]
  end; simpl in *; [ exact I | ].
  now rewrite to_lower_space.
Qed.

(** Sorting the tokens of a non-empty processed string leaves a non-empty
    string. *)
Lemma sort_tokens_nonempty (p : str) :
  starts_clean p -> p <> [] ->
  exists x, PyFuzz._sort_tokens (PyStr p) = Ok x /\ x <> [].
Proof.
  intros Hc Hn. unfold PyFuzz._sort_tokens. simpl.
  eexists. split; [ reflexivity | ].
  assert (T : Forall token (sorted str_leb (split p)))
    by apply sorted_Forall, split_tokens.
  rewrite (strip_join_tokens _ T).
  apply join_tokens_nonempty; [ exact T | ].
  intro E. apply (f_equal (@length _)) in E. rewrite sorted_length in E.
  destruct (split p) eqn:S; [ | discriminate ].
  revert S. apply split_from_nonempty. right.
  destruct p as [ | c t]; [ congruence | ]. simpl in *. now rewrite Hc.
Qed.

(** ** Inputs that are empty after preprocessing *)

(** C4 (counterexample): "!!" and "" both normalize to the empty string,
    and the four token scorers give the pair 100, not 0. *)
Lemma empty_pair_token_scores :
  full_process (py "!!") true = [] /\ full_process (py "") true = []
  /\ Fuzz.token_sort_ratio Fuzz.pure_python (py "!!") (py "") true true
     = Ok 100%Z
  /\ Fuzz.partial_token_sort_ratio Fuzz.pure_python (py "!!") (py "") true true
     = Ok 100%Z
  /\ Fuzz.token_set_ratio Fuzz.pure_python (py "!!") (py "") true true
     = Ok 100%Z
  /\ Fuzz.partial_token_set_ratio Fuzz.pure_python (py "!!") (py "") true true
     = Ok 100%Z.
Proof. repeat split; vm_compute; reflexivity. Qed.

Lemma token_sort_one_empty (p1 p2 : str) (partial : bool) :
  starts_clean p1 -> starts_clean p2 -> p1 <> p2 -> p1 = [] \/ p2 = [] ->
  PyFuzz._token_sort (PyStr p1) (PyStr p2) partial = Ok 0%Z.
Proof.
  intros C1 C2 N E. unfold PyFuzz._token_sort.
  assert (S0 : PyFuzz._sort_tokens (PyStr []) = Ok []) by reflexivity.
  destruct E as [-> | ->].
  - destruct (sort_tokens_nonempty p2 C2) as [x [-> Hx]]; [ congruence | ].
    rewrite S0. simpl.
    destruct partial; apply guarded_empty; auto.
  - destruct (sort_tokens_nonempty p1 C1) as [x [-> Hx]]; [ congruence | ].
    rewrite S0. simpl.
    destruct partial; apply guarded_empty; auto.
Qed.

Lemma token_sort_both_empty (partial : bool) :
  PyFuzz._token_sort (PyStr []) (PyStr []) partial = Ok 100%Z.
Proof. destruct partial; reflexivity. Qed.

Lemma token_set_empty (p1 p2 : str) (partial : bool) :
  p1 = [] \/ p2 = [] ->
  PyFuzz._token_set (PyStr p1) (PyStr p2) partial
  = if str_eqb p1 p2 then Ok 100%Z else Ok 0%Z.
Proof.
  intros E. unfold PyFuzz._token_set. simpl.
  destruct (str_eqb p1 p2); [ reflexivity | ].
  destruct E as [-> | ->]; simpl; [ reflexivity | ].
  destruct p1; reflexivity.
Qed.

(** C4 (amended): when either string is empty after preprocessing, [QRatio]
    and [WRatio] return 0; the four token scorers return 0 when the two
    processed strings differ (one empty, one not) and 100 when both are
    empty. *)
Theorem empty_after_preprocessing (x1 x2 : str) (force_ascii : bool) :
  let p1 := full_process (PyStr x1) force_ascii in
  let p2 := full_process (PyStr x2) force_ascii in
  let score := if str_eqb p1 p2 then Ok 100%Z else Ok 0%Z in
  p1 = [] \/ p2 = [] ->
  Fuzz.QRatio Fuzz.pure_python (PyStr x1) (PyStr x2) force_ascii true = Ok 0%Z
  /\ Fuzz.WRatio Fuzz.pure_python (PyStr x1) (PyStr x2) force_ascii true
     = Ok 0%Z
  /\ Fuzz.token_sort_ratio Fuzz.pure_python (PyStr x1) (PyStr x2)
       force_ascii true = score
  /\ Fuzz.partial_token_sort_ratio Fuzz.pure_python (PyStr x1) (PyStr x2)
       force_ascii true = score
  /\ Fuzz.token_set_ratio Fuzz.pure_python (PyStr x1) (PyStr x2)
       force_ascii true = score
  /\ Fuzz.partial_token_set_ratio Fuzz.pure_python (PyStr x1) (PyStr x2)
       force_ascii true = score.
Proof.
  intros p1 p2 score E.
  pose proof (full_process_starts_clean (PyStr x1) force_ascii) as C1.
  pose proof (full_process_starts_clean (PyStr x2) force_ascii) as C2.
  fold p1 in C1. fold p2 in C2.
  assert (Q : Fuzz.QRatio Fuzz.pure_python (PyStr x1) (PyStr x2)
                force_ascii true = Ok 0%Z).
  { unfold Fuzz.QRatio, Fuzz.preprocess. fold p1 p2.
    destruct E as [-> | ->]; simpl; [ reflexivity | ].
    destruct p1; reflexivity. }
  assert (W : Fuzz.WRatio Fuzz.pure_python (PyStr x1) (PyStr x2)
                force_ascii true = Ok 0%Z).
  { unfold Fuzz.WRatio, Fuzz.preprocess, Fuzz.rounded. fold p1 p2.
    simpl. unfold Fuzz.as_num, PyFuzz.WRatio.
    destruct E as [-> | ->]; simpl; [ reflexivity | ].
    destruct p1; reflexivity. }
  assert (TS : forall partial,
             PyFuzz._token_sort (PyStr p1) (PyStr p2) partial = score).
  { intro partial. unfold score.
    destruct (list_eq_dec ascii_dec p1 p2) as [Eq | N].
    - rewrite Eq, str_eqb_refl.
      assert (p2 = []) as -> by (destruct E; congruence).
      apply token_sort_both_empty.
    - rewrite (str_eqb_neq _ _ N). now apply token_sort_one_empty. }
  assert (TT : forall partial,
             PyFuzz._token_set (PyStr p1) (PyStr p2) partial = score).
  { intro partial. now apply token_set_empty. }
  assert (R : forall r : result Z,
             r = score -> (n <- (n <- r ;; Ok (Int n)) ;; Ok (intr n)) = score).
  { intros r ->. unfold score. destruct (str_eqb p1 p2); reflexivity. }
  repeat split; try assumption.
  - unfold Fuzz.token_sort_ratio, Fuzz.preprocess, Fuzz.rounded. simpl.
    fold p1 p2. apply R, TS.
  - unfold Fuzz.partial_token_sort_ratio, Fuzz.preprocess, Fuzz.rounded.
    simpl. fold p1 p2. apply R, TS.
  - unfold Fuzz.token_set_ratio, Fuzz.preprocess, Fuzz.rounded. simpl.
    fold p1 p2. apply R, TT.
  - unfold Fuzz.partial_token_set_ratio, Fuzz.preprocess, Fuzz.rounded.
    simpl. fold p1 p2. apply R, TT.
Qed.

Lemma empty_after_preprocessing_witness :
  Fuzz.QRatio Fuzz.pure_python (py "?") (py "new york") true true = Ok 0%Z
  /\ Fuzz.token_set_ratio Fuzz.pure_python (py "?") (py "new york") true true
     = Ok 0%Z.
Proof.
  pose proof (empty_after_preprocessing (s_ "?") (s_ "new york") true) as H.
  cbv zeta in H.
  assert (E : full_process (PyStr (s_ "?")) true = []
              \/ full_process (PyStr (s_ "new york")) true = [])
    by (left; reflexivity).
  destruct (H E) as [Q [_ [_ [_ [T _]]]]].
  split; [ exact Q | exact T ].
Defined.


(** ** The sequence aligner *)

Section Aligner.
Variables a b : str.

Lemma range_unfold (lo hi : Z) :
  Difflib.range lo hi
  = if (lo <? hi)%Z then lo :: Difflib.range (lo + 1) hi else [].
Proof.
  unfold Difflib.range. destruct (Z.ltb_spec lo hi) as [H | H].
  - replace (Z.to_nat (hi - lo)) with (S (Z.to_nat (hi - (lo + 1)))) by lia.
    simpl. f_equal; [ lia | ].
    rewrite <- seq_shift, map_map. apply map_ext. intro n. lia.
  - replace (Z.to_nat (hi - lo)) with 0%nat by lia. reflexivity.
Qed.

Section Ranges.
Variables alo ahi blo bhi : Z.
Hypothesis a_range : (alo <= ahi)%Z.
Hypothesis b_range : (blo <= bhi)%Z.

Lemma scan_row_ok (i : Z) (js : list Z) :
  (alo <= i < ahi)%Z ->
  forall (j2len newj2len : Difflib.dict) (best : Difflib.Match),
    row_ok alo blo (i - 1) j2len -> row_ok alo blo i newj2len ->
    inside alo ahi blo bhi best ->
    row_ok alo blo i
      (fst (Difflib.scan_row blo bhi i js j2len newj2len best))
    /\ inside alo ahi blo bhi
         (snd (Difflib.scan_row blo bhi i js j2len newj2len best)).
Proof.
  intro Hi. induction js as [ | j rest IH]; intros j2len newj2len best R0 R1 B;
    simpl.
  - now split.
  - destruct (Z.ltb_spec j blo) as [Hlo | Hlo]; [ now apply IH | ].
    destruct (Z.geb_spec j bhi) as [Hhi | Hhi]; [ now split | ].
    destruct best as [[bi bj] bs].
    apply IH; try assumption.
    + intro j'. simpl. pose proof (R0 (j - 1)%Z) as P0.
      pose proof (R1 j') as P1.
      destruct (Z.eqb_spec j j') as [<- | N]; lia.
    + pose proof (R0 (j - 1)%Z) as P0.
      destruct (Z.gtb_spec (Difflib.dict_get j2len (j - 1) 0 + 1) bs);
        [ | exact B ].
      unfold inside. lia.
Qed.

Lemma scan_rows_inside (n : nat) :
  forall (i0 : Z) (j2len : Difflib.dict) (best : Difflib.Match),
    Z.to_nat (ahi - i0) = n -> (alo <= i0)%Z ->
    row_ok alo blo (i0 - 1) j2len -> inside alo ahi blo bhi best ->
    inside alo ahi blo bhi
      (Difflib.scan_rows a b blo bhi (Difflib.range i0 ahi) j2len best).
Proof.
  induction n as [ | n IH]; intros i0 j2len best Hn Hi R B;
    rewrite range_unfold.
  - destruct (Z.ltb_spec i0 ahi); [ lia | exact B ].
  - destruct (Z.ltb_spec i0 ahi); [ | lia ].
    simpl.
    match goal with |- context [Difflib.scan_row blo bhi i0 ?js j2len [] best] =>
      assert (S := @scan_row_ok i0 js ltac:(lia) j2len [] best R);
      destruct (Difflib.scan_row blo bhi i0 js j2len [] best)
        as [newj2len best']
    end.
    simpl in S. destruct S as [R' B']; [ | exact B | ].
    + intro j. simpl. lia.
    + apply IH; try assumption; try lia.
      now replace (i0 + 1 - 1)%Z with i0 by lia.
Qed.

Lemma extend_left_inside (junk : bool) (n : nat) (best : Difflib.Match) :
  inside alo ahi blo bhi best ->
  inside alo ahi blo bhi (Difflib.extend_left a b alo blo junk n best).
Proof.
  revert best. induction n as [ | n IH]; intros [[bi bj] bs] B; simpl;
    [ exact B | ].
  match goal with |- context [if ?c then _ else _] => destruct c eqn:G end;
    [ | exact B ].
  apply IH. rewrite !andb_true_iff in G.
  destruct G as [[[G1 G2] _] _].
  apply Z.gtb_lt in G1, G2. unfold inside in *. lia.
Qed.

Lemma extend_right_inside (junk : bool) (n : nat) (best : Difflib.Match) :
  inside alo ahi blo bhi best ->
  inside alo ahi blo bhi (Difflib.extend_right a b ahi bhi junk n best).
Proof.
  revert best. induction n as [ | n IH]; intros [[bi bj] bs] B; simpl;
    [ exact B | ].
  match goal with |- context [if ?c then _ else _] => destruct c eqn:G end;
    [ | exact B ].
  apply IH. rewrite !andb_true_iff in G.
  destruct G as [[[G1 G2] _] _].
  apply Z.ltb_lt in G1, G2. unfold inside in *. lia.
Qed.

(** The block [find_longest_match] returns lies inside the ranges it was
    asked about. *)
Lemma find_longest_match_inside :
  inside alo ahi blo bhi (Difflib.find_longest_match a b alo ahi blo bhi).
Proof.
  unfold Difflib.find_longest_match.
  apply extend_right_inside, extend_left_inside, extend_right_inside,
    extend_left_inside.
  apply (@scan_rows_inside _ alo [] _ eq_refl); try lia.
  - intro j. simpl. lia.
  - unfold inside. lia.
Qed.

End Ranges.
End Aligner.

(** ** The list of matching blocks *)

Lemma sum_sizes_app (l l' : list Difflib.Match) :
  Difflib.sum_sizes (l ++ l')
  = (Difflib.sum_sizes l + Difflib.sum_sizes l')%Z.
Proof.
  induction l as [ | m l IH]; simpl; [ reflexivity | ]. rewrite IH. lia.
Qed.

Lemma sum_sizes_insert (m : Difflib.Match) (l : list Difflib.Match) :
  Difflib.sum_sizes (insert_sorted Difflib.match_leb m l)
  = (Difflib.size m + Difflib.sum_sizes l)%Z.
Proof.
  induction l as [ | y l IH]; simpl; [ reflexivity | ].
  destruct (Difflib.match_leb m y); simpl; [ reflexivity | ].
  rewrite IH. lia.
Qed.

Lemma sum_sizes_sorted (l : list Difflib.Match) :
  Difflib.sum_sizes (sorted Difflib.match_leb l) = Difflib.sum_sizes l.
Proof.
  induction l as [ | m l IH]; simpl; [ reflexivity | ].
  now rewrite sum_sizes_insert, IH.
Qed.

(** Collapsing adjacent blocks keeps the total size. *)
Lemma sum_sizes_collapse (blocks : list Difflib.Match) :
  forall (cur : Difflib.Match) (non_adjacent : list Difflib.Match),
    Difflib.sum_sizes (Difflib.collapse cur blocks non_adjacent)
    = (Difflib.sum_sizes non_adjacent + Difflib.size cur
       + Difflib.sum_sizes blocks)%Z.
Proof.
  induction blocks as [ | [[i2 j2] k2] rest IH]; intros [[i1 j1] k1] na;
    simpl.
  - destruct (Z.eqb_spec k1 0) as [-> | N];
      rewrite ?sum_sizes_app; unfold Difflib.size; simpl; lia.
  - destruct ((i1 + k1 =? i2)%Z && (j1 + k1 =? j2)%Z).
    + rewrite IH. unfold Difflib.size. simpl. lia.
    + rewrite IH. destruct (Z.eqb_spec k1 0) as [-> | N];
        rewrite ?sum_sizes_app; unfold Difflib.size; simpl; lia.
Qed.

Section Blocks.
Variables a b : str.

(** The queue loop ends within its budget; the blocks it adds fit in the
    ranges still queued. *)
Lemma blocks_loop_ok (fuel : nat) :
  forall (queue : list region) (acc : list Difflib.Match),
    Forall region_ok queue -> (weight queue <= fuel)%nat ->
    exists res,
      Difflib.blocks_loop a b fuel queue acc = Ok res
      /\ (Difflib.sum_sizes acc <= Difflib.sum_sizes res)%Z
      /\ (Difflib.sum_sizes res <= Difflib.sum_sizes acc + room_a queue)%Z
      /\ (Difflib.sum_sizes res <= Difflib.sum_sizes acc + room_b queue)%Z.
Proof.
  induction fuel as [ | fuel IH]; intros queue acc Hq Hw.
  - destruct queue as [ | [[[alo ahi] blo] bhi] queue'].
    + exists acc. simpl. repeat split; lia.
    + simpl in Hw. lia.
  - destruct queue as [ | [[[alo ahi] blo] bhi] queue'].
    + exists acc. simpl. repeat split; lia.
    + inversion Hq as [ | r q' Hr Hq' ]; subst.
      destruct Hr as [Ha Hb].
      cbn [Difflib.blocks_loop].
      pose proof (find_longest_match_inside a b _ _ _ _ Ha Hb) as B.
      destruct (Difflib.find_longest_match a b alo ahi blo bhi)
        as [[i j] k].
      unfold inside in B. simpl in Hw.
      destruct (Z.eqb_spec k 0) as [-> | N].
      * destruct (IH queue' acc Hq' ltac:(lia)) as [res [E [S0 [SA SB]]]].
        exists res. simpl. repeat split; try assumption; lia.
      * match goal with |- context [Difflib.blocks_loop a b fuel ?q ?acc'] =>
          destruct (IH q acc') as [res [E [S0 [SA SB]]]]
        end.
        -- destruct ((alo <? i)%Z && (blo <? j)%Z);
             destruct ((i + k <? ahi)%Z && (j + k <? bhi)%Z);
             repeat constructor; try assumption; lia.
        -- destruct ((alo <? i)%Z && (blo <? j)%Z);
             destruct ((i + k <? ahi)%Z && (j + k <? bhi)%Z);
             simpl; lia.
        -- exists res. split; [ exact E | ].
           rewrite sum_sizes_app in *. unfold Difflib.size in *.
           simpl in *.
           destruct ((alo <? i)%Z && (blo <? j)%Z);
             destruct ((i + k <? ahi)%Z && (j + k <? bhi)%Z);
             simpl in *; repeat split; lia.
Qed.

(** [get_matching_blocks] always returns: a list of blocks that ends with
    the zero-length block [(len(a), len(b), 0)] and whose sizes add up to
    at most the length of either sequence. *)
Lemma get_matching_blocks_ok :
  exists blocks,
    Difflib.get_matching_blocks a b
    = Ok (blocks ++ [(Difflib.la a, Difflib.lb b, 0%Z)])
    /\ (0 <= Difflib.sum_sizes blocks <= Difflib.la a)%Z
    /\ (Difflib.sum_sizes blocks <= Difflib.lb b)%Z.
Proof.
  unfold Difflib.get_matching_blocks.
  destruct (@blocks_loop_ok (Difflib.blocks_fuel a)
              [(0, Difflib.la a, 0, Difflib.lb b)%Z] [])
    as [res [E [S0 [SA SB]]]].
  - repeat constructor; unfold Difflib.la, Difflib.lb; lia.
  - unfold Difflib.blocks_fuel, Difflib.la. simpl. lia.
  - rewrite E. simpl.
    eexists. split; [ reflexivity | ].
    rewrite sum_sizes_collapse, sum_sizes_sorted.
    unfold Difflib.size. simpl in *. lia.
Qed.

Lemma matches_ok :
  exists m,
    Spec.matches a b = Ok m
    /\ (0 <= m <= Difflib.la a)%Z /\ (m <= Difflib.lb b)%Z.
Proof.
  destruct get_matching_blocks_ok as [blocks [E [HA HB]]].
  unfold Spec.matches. rewrite E. simpl.
  eexists. split; [ reflexivity | ].
  rewrite sum_sizes_app. unfold Difflib.size. simpl. lia.
Qed.

End Blocks.

(** ** Floating-point rounding *)

(** On every pair of a match count and a total length up to 60, the
    aligner's ratio, its percentage, the scaled products and the length
    ratio are the same numbers in the model and on binary64 floats. *)
Example rounding_agrees_with_binary64 :
  forallb (fun mt => Binary64.agree (fst mt) (snd mt)) (Binary64.pairs 60)
  = true.
Proof. vm_compute. reflexivity. Qed.

Section FloatFacts.
Local Open Scope Q_scope.

Lemma pow2_pos (k : Z) : 0 < pow2 k.
Proof. apply Qpower_0_lt. reflexivity. Qed.

Lemma pow2_add (x y : Z) : pow2 (x + y) == pow2 x * pow2 y.
Proof. apply Qpower_plus. discriminate. Qed.

Lemma pow2_lt (x y : Z) : (x < y)%Z -> pow2 x < pow2 y.
Proof. intro H. apply Qpower_lt_compat_l; [ exact H | reflexivity ]. Qed.

Lemma pow2_le (x y : Z) : (x <= y)%Z -> pow2 x <= pow2 y.
Proof. intro H. apply Qpower_le_compat_l; [ exact H | discriminate ]. Qed.

Lemma pow2_lt_inv (x y : Z) : pow2 x < pow2 y -> (x < y)%Z.
Proof. intro H. apply (Qpower_lt_compat_l_inv 2); [ exact H | reflexivity ]. Qed.

Lemma pow2_Z (k : Z) : (0 <= k)%Z -> pow2 k == inject_Z (2 ^ k).
Proof. intro H. unfold pow2. now rewrite Zpower_Qpower. Qed.

Lemma pow2_succ (k : Z) : pow2 (k + 1) == 2 * pow2 k.
Proof. rewrite pow2_add. change (pow2 1) with 2. ring. Qed.

Lemma ilog2_spec (q : Q) :
  0 < q -> pow2 (ilog2 q) <= q /\ q < pow2 (ilog2 q + 1).
Proof.
  intro Hq. unfold ilog2.
  destruct q as [n d]. cbn [Qnum Qden].
  assert (Hn : (0 < n)%Z).
  { unfold Qlt in Hq. simpl in Hq. lia. }
  set (x := Z.log2 n). set (y := Z.log2 (Zpos d)).
  destruct (Z.log2_spec n Hn) as [N1 N2]. fold x in N1, N2.
  destruct (Z.log2_spec (Zpos d) eq_refl) as [D1 D2]. fold y in D1, D2.
  assert (Hx : (0 <= x)%Z) by apply Z.log2_nonneg.
  assert (Hy : (0 <= y)%Z) by apply Z.log2_nonneg.
  assert (E : (n # d) * inject_Z (Zpos d) == inject_Z n).
  { unfold Qeq, Qmult, inject_Z. simpl. lia. }
  assert (QN1 : pow2 x <= inject_Z n)
    by (rewrite pow2_Z by lia; now rewrite <- Zle_Qle).
  assert (QN2 : inject_Z n < pow2 (x + 1))
    by (rewrite (pow2_Z (x + 1)) by lia; now rewrite <- Zlt_Qlt; lia).
  assert (QD1 : pow2 y <= inject_Z (Zpos d))
    by (rewrite pow2_Z by lia; now rewrite <- Zle_Qle).
  assert (QD2 : inject_Z (Zpos d) < pow2 (y + 1))
    by (rewrite (pow2_Z (y + 1)) by lia; now rewrite <- Zlt_Qlt; lia).
  assert (U : (n # d) < pow2 (x - y + 1)).
  { assert (F : pow2 (x - y + 1) * pow2 y == pow2 (x + 1))
      by (rewrite <- pow2_add; now replace (x - y + 1 + y)%Z with (x + 1)%Z by lia).
    pose proof (pow2_pos (x - y + 1)). pose proof (pow2_pos y).
    set (P := pow2 (x - y + 1)) in *. set (Y := pow2 y) in *.
    set (X := pow2 (x + 1)) in *. set (D := inject_Z (Zpos d)) in *.
    set (N := inject_Z n) in *. set (q := n # d) in *.
    apply Qnot_le_lt. intro C.
    assert (P * D <= q * D) by (apply Qmult_le_compat_r; [ exact C | lra ]).
    assert (P * Y <= P * D) by (apply Qmult_le_l; lra).
    lra. }
  assert (L : pow2 (x - y - 1) <= (n # d)).
  { assert (F : pow2 (x - y - 1) * pow2 (y + 1) == pow2 x)
      by (rewrite <- pow2_add; now replace (x - y - 1 + (y + 1))%Z with x by lia).
    pose proof (pow2_pos (x - y - 1)). pose proof (pow2_pos (y + 1)).
    set (P := pow2 (x - y - 1)) in *. set (Y := pow2 (y + 1)) in *.
    set (X := pow2 x) in *. set (D := inject_Z (Zpos d)) in *.
    set (N := inject_Z n) in *. set (q := n # d) in *.
    apply Qnot_lt_le. intro C.
    assert (0 < D) by (unfold D; reflexivity).
    assert (q * D < P * D) by (apply Qmult_lt_compat_r; assumption).
    assert (P * D <= P * Y) by (apply Qmult_le_l; lra).
    lra. }
  destruct (Qle_bool (pow2 (x - y)) (n # d)) eqn:B.
  - apply Qle_bool_iff in B. split; assumption.
  - split; [ exact L | ].
    replace (x - y - 1 + 1)%Z with (x - y)%Z by lia.
    apply Qnot_le_lt. intro C. apply Qle_bool_iff in C. congruence.
Qed.

Lemma ilog2_unique (q : Q) (l : Z) :
  0 < q -> pow2 l <= q -> q < pow2 (l + 1) -> ilog2 q = l.
Proof.
  intros Hq L U. destruct (ilog2_spec q Hq) as [L' U'].
  assert (l < ilog2 q + 1)%Z
    by (apply pow2_lt_inv; eapply Qle_lt_trans; eassumption).
  assert (ilog2 q < l + 1)%Z
    by (apply pow2_lt_inv; eapply Qle_lt_trans; eassumption).
  lia.
Qed.


Lemma rhe_cases (q : Q) :
  (round_half_even q = Qfloor q /\ q <= inject_Z (Qfloor q) + (1 # 2))
  \/ (round_half_even q = (Qfloor q + 1)%Z
      /\ inject_Z (Qfloor q) + (1 # 2) <= q).
Proof.
  unfold round_half_even.
  destruct (Qcompare_spec (q - inject_Z (Qfloor q)) (1 # 2)) as [H | H | H].
  - destruct (Z.even (Qfloor q)); [ left | right ]; split; try reflexivity; lra.
  - left. split; [ reflexivity | lra ].
  - right. split; [ reflexivity | lra ].
Qed.

Lemma rhe_comp (x y : Q) : x == y -> round_half_even x = round_half_even y.
Proof.
  intro E. unfold round_half_even.
  assert (F : Qfloor x = Qfloor y) by now rewrite E.
  rewrite F.
  assert (C : (x - inject_Z (Qfloor y) ?= 1 # 2)
              = (y - inject_Z (Qfloor y) ?= 1 # 2)) by now rewrite E.
  now rewrite C.
Qed.

Lemma rhe_le_int (q : Q) (K : Z) :
  q <= inject_Z K -> (round_half_even q <= K)%Z.
Proof.
  intro H. pose proof (Qfloor_le q) as F.
  assert (FK : (Qfloor q <= K)%Z) by (rewrite Zle_Qle; lra).
  destruct (rhe_cases q) as [[-> _] | [-> G]]; [ exact FK | ].
  assert (Qfloor q <> K).
  { intro E. rewrite E in G. lra. }
  lia.
Qed.

Lemma rhe_ge_int (q : Q) (K : Z) :
  inject_Z K <= q -> (K <= round_half_even q)%Z.
Proof.
  intro H. apply Qfloor_resp_le in H. rewrite Qfloor_Z in H.
  destruct (rhe_cases q) as [[-> _] | [-> _]]; lia.
Qed.

Lemma rhe_mono (x y : Q) :
  x <= y -> (round_half_even x <= round_half_even y)%Z.
Proof.
  intro H. pose proof (Qfloor_resp_le _ _ H) as F.
  destruct (Z.eq_dec (Qfloor x) (Qfloor y)) as [E | N].
  - unfold round_half_even. rewrite E.
    destruct (Qcompare_spec (x - inject_Z (Qfloor y)) (1 # 2));
      destruct (Qcompare_spec (y - inject_Z (Qfloor y)) (1 # 2));
      destruct (Z.even (Qfloor y)); try lia; lra.
  - destruct (rhe_cases x) as [[-> _] | [-> _]];
      destruct (rhe_cases y) as [[-> _] | [-> _]]; lia.
Qed.

(** The value [rnd] returns on a positive number. *)
Lemma rnd_pos (q : Q) :
  0 < q ->
  rnd q == inject_Z (round_half_even (q / pow2 (ilog2 q - (prec - 1))))
           * pow2 (ilog2 q - (prec - 1)).
Proof.
  intro H. unfold rnd. destruct q as [n d].
  assert (Hn : (0 < n)%Z) by (unfold Qlt in H; simpl in H; lia).
  cbn [Qnum]. destruct n as [ | p | p]; try lia.
  apply Qred_correct.
Qed.

Lemma rnd_zero (q : Q) : q == 0 -> rnd q = 0.
Proof.
  intro H. unfold rnd. destruct q as [n d].
  assert (n = 0%Z) as -> by (unfold Qeq in H; simpl in H; lia).
  reflexivity.
Qed.

Lemma rnd_nonneg (q : Q) : 0 <= q -> 0 <= rnd q.
Proof.
  intro H. destruct (Qlt_le_dec 0 q) as [P | Z].
  - rewrite (rnd_pos q P).
    apply Qmult_le_0_compat; [ | apply Qlt_le_weak, pow2_pos ].
    change 0 with (inject_Z 0). rewrite <- Zle_Qle.
    apply rhe_ge_int. change (inject_Z 0) with 0.
    apply Qle_shift_div_l; [ apply pow2_pos | ].
    rewrite Qmult_0_l. lra.
  - rewrite rnd_zero by lra. lra.
Qed.

Lemma scaled_int (C E e : Z) :
  (e <= E)%Z -> inject_Z C * pow2 E / pow2 e == inject_Z (C * 2 ^ (E - e)).
Proof.
  intro H. rewrite inject_Z_mult, <- pow2_Z by lia.
  replace E with ((E - e) + e)%Z at 1 by lia.
  rewrite pow2_add. pose proof (pow2_pos e). field. lra.
Qed.

(** Rounding never crosses a float: upwards ... *)
Lemma rnd_le (q : Q) (C E : Z) :
  0 < q -> (0 < C < 2 ^ prec)%Z -> q <= inject_Z C * pow2 E ->
  rnd q <= inject_Z C * pow2 E.
Proof.
  intros Hq HC H. rewrite (rnd_pos q Hq).
  destruct (ilog2_spec q Hq) as [L _].
  set (e := (ilog2 q - (prec - 1))%Z).
  assert (He : (e <= E)%Z).
  { assert (B : inject_Z C * pow2 E < pow2 (prec + E)).
    { rewrite pow2_add. apply Qmult_lt_compat_r; [ apply pow2_pos | ].
      rewrite pow2_Z by (unfold prec; lia). rewrite <- Zlt_Qlt. lia. }
    assert (ilog2 q < prec + E)%Z by (apply pow2_lt_inv; lra).
    unfold e. lia. }
  pose proof (pow2_pos e) as Pe.
  assert (M : (round_half_even (q / pow2 e) <= C * 2 ^ (E - e))%Z).
  { apply rhe_le_int. rewrite <- (scaled_int C E e He).
    apply Qmult_le_compat_r; [ exact H | ].
    apply Qlt_le_weak, Qinv_lt_0_compat, Pe. }
  rewrite Zle_Qle, <- (scaled_int C E e He) in M.
  apply (Qmult_le_compat_r _ _ (pow2 e)) in M; [ | lra ].
  setoid_replace (inject_Z C * pow2 E / pow2 e * pow2 e)
    with (inject_Z C * pow2 E) in M by (field; lra).
  exact M.
Qed.

(** ... and downwards. *)
Lemma rnd_ge (q : Q) (C E : Z) :
  (0 < C < 2 ^ prec)%Z -> inject_Z C * pow2 E <= q ->
  inject_Z C * pow2 E <= rnd q.
Proof.
  intros HC H.
  assert (HC' : 0 < inject_Z C) by (change 0 with (inject_Z 0); rewrite <- Zlt_Qlt; lia).
  assert (Hq : 0 < q).
  { pose proof (pow2_pos E).
    assert (0 < inject_Z C * pow2 E) by (apply Qmult_lt_0_compat; assumption).
    lra. }
  rewrite (rnd_pos q Hq).
  destruct (ilog2_spec q Hq) as [L U].
  set (e := (ilog2 q - (prec - 1))%Z).
  pose proof (pow2_pos e) as Pe.
  destruct (Z_le_gt_dec e E) as [He | He].
  - assert (M : (C * 2 ^ (E - e) <= round_half_even (q / pow2 e))%Z).
    { apply rhe_ge_int. rewrite <- (scaled_int C E e He).
      apply Qmult_le_compat_r; [ exact H | ].
      apply Qlt_le_weak, Qinv_lt_0_compat, Pe. }
    rewrite Zle_Qle, <- (scaled_int C E e He) in M.
    apply (Qmult_le_compat_r _ _ (pow2 e)) in M; [ | lra ].
    setoid_replace (inject_Z C * pow2 E / pow2 e * pow2 e)
      with (inject_Z C * pow2 E) in M by (field; lra).
    exact M.
  - assert (M : (2 ^ (prec - 1) <= round_half_even (q / pow2 e))%Z).
    { apply rhe_ge_int. rewrite <- pow2_Z by (unfold prec; lia).
      apply Qle_shift_div_l; [ exact Pe | ].
      rewrite <- pow2_add.
      now replace (prec - 1 + e)%Z with (ilog2 q) by (unfold e; lia). }
    rewrite Zle_Qle, <- pow2_Z in M by (unfold prec; lia).
    apply (Qmult_le_compat_r _ _ (pow2 e)) in M; [ | lra ].
    rewrite <- pow2_add in M.
    assert (B : inject_Z C * pow2 E <= pow2 (prec + E)).
    { rewrite pow2_add. apply Qmult_le_compat_r;
        [ | apply Qlt_le_weak, pow2_pos ].
      rewrite pow2_Z by (unfold prec; lia). rewrite <- Zle_Qle. lia. }
    assert (pow2 (prec + E) <= pow2 (prec - 1 + e)) by (apply pow2_le; lia).
    lra.
Qed.


Lemma float_pos (c : Q) :
  is_float c -> 0 < c ->
  exists C E : Z, (0 < C < 2 ^ prec)%Z /\ c == inject_Z C * pow2 E.
Proof. intros [Z | H] P; [ lra | exact H ]. Qed.

Lemma rnd_le_float (q c : Q) : 0 <= q -> is_float c -> q <= c -> rnd q <= c.
Proof.
  intros Hq Hc H. destruct (Qlt_le_dec 0 q) as [P | Z].
  - destruct (float_pos c Hc) as [C [E [HC Ec]]]; [ lra | ].
    rewrite Ec in *. now apply rnd_le.
  - rewrite rnd_zero by lra. lra.
Qed.

Lemma rnd_ge_float (q c : Q) : is_float c -> c <= q -> 0 <= c -> c <= rnd q.
Proof.
  intros Hc H P. destruct (Qlt_le_dec 0 c) as [P' | Z].
  - destruct (float_pos c Hc P') as [C [E [HC Ec]]].
    rewrite Ec in *. now apply rnd_ge.
  - assert (0 <= rnd q) by (apply rnd_nonneg; lra). lra.
Qed.

Lemma int_is_float (z : Z) : (0 <= z < 2 ^ prec)%Z -> is_float (inject_Z z).
Proof.
  intro H. destruct (Z.eq_dec z 0) as [-> | N]; [ now left | ].
  right. exists z, 0%Z. split; [ lia | ]. change (pow2 0) with 1. ring.
Qed.

Lemma pow2_is_float (k : Z) : is_float (pow2 k).
Proof.
  right. exists 1%Z, k. split; [ unfold prec; lia | ]. ring.
Qed.

Lemma rnd_is_float (q : Q) : 0 <= q -> is_float (rnd q).
Proof.
  intro H. destruct (Qlt_le_dec 0 q) as [P | Z].
  - destruct (ilog2_spec q P) as [L U].
    pose proof (rnd_pos q P) as E.
    set (e := (ilog2 q - (prec - 1))%Z) in *.
    pose proof (pow2_pos e) as Pe.
    set (m := round_half_even (q / pow2 e)) in *.
    assert (M1 : (2 ^ (prec - 1) <= m)%Z).
    { apply rhe_ge_int. rewrite <- pow2_Z by (unfold prec; lia).
      apply Qle_shift_div_l; [ exact Pe | ]. rewrite <- pow2_add.
      now replace (prec - 1 + e)%Z with (ilog2 q) by (unfold e; lia). }
    assert (M2 : (m <= 2 ^ prec)%Z).
    { apply rhe_le_int. rewrite <- pow2_Z by (unfold prec; lia).
      apply Qle_shift_div_r; [ exact Pe | ]. rewrite <- pow2_add.
      replace (prec + e)%Z with (ilog2 q + 1)%Z by (unfold e; lia). lra. }
    right. destruct (Z.eq_dec m (2 ^ prec)) as [Em | Nm].
    + exists (2 ^ (prec - 1))%Z, (e + 1)%Z. split; [ unfold prec; lia | ].
      rewrite E, Em, pow2_succ.
      change (2 ^ prec)%Z with (2 * 2 ^ (prec - 1))%Z.
      rewrite inject_Z_mult. change (inject_Z 2) with 2. ring.
    + exists m, e. split; [ unfold prec in *; lia | exact E ].
  - left. rewrite rnd_zero by lra. reflexivity.
Qed.

(** A float rounds to itself. *)
Lemma rnd_float (c : Q) : is_float c -> 0 <= c -> rnd c == c.
Proof.
  intros Hc P. apply Qle_antisym.
  - apply rnd_le_float; [ exact P | exact Hc | lra ].
  - apply rnd_ge_float; [ exact Hc | lra | exact P ].
Qed.

Lemma ilog2_mono (x y : Q) : 0 < x -> x <= y -> (ilog2 x <= ilog2 y)%Z.
Proof.
  intros Hx H. destruct (ilog2_spec x Hx) as [L _].
  destruct (ilog2_spec y) as [_ U]; [ lra | ].
  assert (ilog2 x < ilog2 y + 1)%Z by (apply pow2_lt_inv; lra). lia.
Qed.

(** Rounding is monotone. *)
Lemma rnd_mono (x y : Q) : 0 <= x -> x <= y -> rnd x <= rnd y.
Proof.
  intros Hx H. destruct (Qlt_le_dec 0 x) as [P | Z].
  - assert (Py : 0 < y) by lra.
    pose proof (ilog2_mono x y P H) as Hl.
    destruct (Z.eq_dec (ilog2 x) (ilog2 y)) as [E | N].
    + rewrite (rnd_pos x P), (rnd_pos y Py), E.
      set (e := (ilog2 y - (prec - 1))%Z). pose proof (pow2_pos e) as Pe.
      apply Qmult_le_compat_r; [ | lra ].
      rewrite <- Zle_Qle. apply rhe_mono.
      apply Qmult_le_compat_r; [ exact H | ].
      apply Qlt_le_weak, Qinv_lt_0_compat, Pe.
    + destruct (ilog2_spec x P) as [_ U]. destruct (ilog2_spec y Py) as [L _].
      assert (pow2 (ilog2 x + 1) <= pow2 (ilog2 y)) by (apply pow2_le; lia).
      assert (rnd x <= pow2 (ilog2 x + 1))
        by (apply rnd_le_float; [ lra | apply pow2_is_float | lra ]).
      assert (pow2 (ilog2 y) <= rnd y).
      { apply rnd_ge_float; [ apply pow2_is_float | lra | ].
        apply Qlt_le_weak, pow2_pos. }
      lra.
  - rewrite (rnd_zero x) by lra. apply rnd_nonneg. lra.
Qed.

(** Doubling commutes with rounding. *)
Lemma rnd_double (q : Q) : 0 <= q -> rnd (2 * q) == 2 * rnd q.
Proof.
  intro H. destruct (Qlt_le_dec 0 q) as [P | Z].
  - destruct (ilog2_spec q P) as [L U].
    assert (P2 : 0 < 2 * q) by lra.
    assert (E : ilog2 (2 * q) = (ilog2 q + 1)%Z).
    { apply ilog2_unique; [ exact P2 | | ]; rewrite !pow2_succ in *; lra. }
    rewrite (rnd_pos _ P2), (rnd_pos q P), E.
    replace (ilog2 q + 1 - (prec - 1))%Z with (ilog2 q - (prec - 1) + 1)%Z
      by lia.
    set (e := (ilog2 q - (prec - 1))%Z). pose proof (pow2_pos e) as Pe.
    rewrite (rhe_comp (2 * q / pow2 (e + 1)) (q / pow2 e)).
    + rewrite pow2_succ. ring.
    + rewrite pow2_succ. field. lra.
  - rewrite (rnd_zero q), (rnd_zero (2 * q)) by lra. reflexivity.
Qed.

(** Numbers of equal value round to the same float. *)
Lemma rnd_comp (x y : Q) : 0 <= x -> x == y -> rnd x = rnd y.
Proof.
  intros Hx E. destruct (Qlt_le_dec 0 x) as [P | Z].
  - assert (Py : 0 < y) by lra.
    assert (El : ilog2 x = ilog2 y).
    { destruct (ilog2_spec y Py) as [L U].
      apply ilog2_unique; [ exact P | lra | lra ]. }
    unfold rnd. destruct x as [n d], y as [n' d'].
    assert (Hn : (0 < n)%Z) by (unfold Qlt in P; simpl in P; lia).
    assert (Hn' : (0 < n')%Z) by (unfold Qlt in Py; simpl in Py; lia).
    cbn [Qnum]. destruct n as [ | p | p]; try lia.
    destruct n' as [ | p' | p']; try lia.
    apply Qred_complete. rewrite El.
    set (e := (ilog2 (Z.pos p' # d') - (prec - 1))%Z).
    assert (R : round_half_even ((Z.pos p # d) / pow2 e)
                = round_half_even ((Z.pos p' # d') / pow2 e))
      by (apply rhe_comp; now rewrite E).
    rewrite R. reflexivity.
  - rewrite (rnd_zero x), (rnd_zero y) by lra. reflexivity.
Qed.


Lemma float_of_int_small (z : Z) :
  (0 <= z < 2 ^ prec)%Z -> float_of_int z == inject_Z z.
Proof.
  intro H. apply rnd_float; [ now apply int_is_float | ].
  change 0 with (inject_Z 0). rewrite <- Zle_Qle. lia.
Qed.

Lemma float_of_int_nonneg (z : Z) : (0 <= z)%Z -> 0 <= float_of_int z.
Proof.
  intro H. apply rnd_nonneg. change 0 with (inject_Z 0).
  now rewrite <- Zle_Qle.
Qed.

Lemma one_is_float : is_float 1.
Proof. apply (int_is_float 1). unfold prec. lia. Qed.

Lemma hundred_is_float : is_float 100.
Proof. apply (int_is_float 100). unfold prec. lia. Qed.

(** The ratio of the aligner is a fraction between 0 and 1. *)
Lemma calculate_ratio_bounds (m len : Z) :
  (0 <= m)%Z -> (2 * m <= len)%Z ->
  0 <= Difflib._calculate_ratio m len <= 1.
Proof.
  intros Hm Hl. unfold Difflib._calculate_ratio.
  destruct (Z.eqb_spec len 0) as [E | N].
  - change (lit 1 1) with 1. lra.
  - change (lit 2 1) with 2. unfold fdiv, fmul.
    assert (Qm : 0 <= inject_Z m)
      by (change 0 with (inject_Z 0); now rewrite <- Zle_Qle).
    assert (Y : 1 <= float_of_int len).
    { apply rnd_ge_float; [ exact one_is_float | | lra ].
      change 1 with (inject_Z 1). rewrite <- Zle_Qle. lia. }
    assert (X0 : 0 <= rnd (2 * float_of_int m)).
    { apply rnd_nonneg. pose proof (float_of_int_nonneg m Hm). lra. }
    assert (X : rnd (2 * float_of_int m) <= float_of_int len).
    { apply rnd_le_float.
      - pose proof (float_of_int_nonneg m Hm). lra.
      - apply rnd_is_float. change 0 with (inject_Z 0).
        rewrite <- Zle_Qle. lia.
      - unfold float_of_int. rewrite <- rnd_double by exact Qm.
        apply rnd_mono; [ lra | ].
        change 2 with (inject_Z 2). rewrite <- inject_Z_mult, <- Zle_Qle.
        exact Hl. }
    split.
    + apply rnd_nonneg. apply Qle_shift_div_l; lra.
    + apply rnd_le_float; [ | exact one_is_float | ].
      * apply Qle_shift_div_l; lra.
      * apply Qle_shift_div_r; lra.
Qed.

Lemma difflib_ratio_ok (a b : str) :
  exists r, Difflib.ratio a b = Ok r /\ 0 <= r <= 1.
Proof.
  rewrite difflib_ratio_matches.
  destruct (matches_ok a b) as [m [-> [HA HB]]]. simpl.
  eexists. split; [ reflexivity | ].
  apply calculate_ratio_bounds; lia.
Qed.

Lemma round_score (n : num) : is_score n -> (0 <= round n <= 100)%Z.
Proof.
  unfold is_score. destruct n as [z | f]; simpl; intros [L U].
  - change 0 with (inject_Z 0) in L. change 100 with (inject_Z 100) in U.
    rewrite <- Zle_Qle in *. lia.
  - split; [ now apply rhe_ge_int | now apply rhe_le_int ].
Qed.

Lemma int_score (z : Z) : (0 <= z <= 100)%Z -> is_score (Int z).
Proof.
  intros [L U]. unfold is_score. simpl.
  change 0 with (inject_Z 0). change 100 with (inject_Z 100).
  rewrite <- !Zle_Qle. lia.
Qed.

Lemma to_float_score (n : num) : is_score n -> 0 <= to_float n <= 100.
Proof.
  unfold is_score. destruct n as [z | f]; simpl; [ | tauto ].
  intros [L U]. split.
  - now apply rnd_nonneg.
  - apply rnd_le_float; [ exact L | exact hundred_is_float | exact U ].
Qed.

(** Scaling a score by a factor between 0 and 1 leaves a score. *)
Lemma scale_score (n : num) (s : float) :
  is_score n -> 0 <= s <= 1 -> is_score (mul n (Float s)).
Proof.
  intros Hn Hs. pose proof (to_float_score n Hn) as [L U].
  assert (E : mul n (Float s) = Float (fmul (to_float n) s))
    by (destruct n; reflexivity).
  rewrite E. unfold is_score, fmul. simpl.
  assert (0 <= to_float n * s) by nra.
  assert (to_float n * s <= 100) by nra.
  split.
  - now apply rnd_nonneg.
  - apply rnd_le_float; [ assumption | exact hundred_is_float | assumption ].
Qed.

Lemma max_of_picks (P : num -> Prop) (l : list num) :
  forall x, P x -> Forall P l -> P (max_of x l).
Proof.
  unfold max_of. induction l as [ | y l IH]; intros x Hx Hl; simpl;
    [ exact Hx | ].
  inversion Hl; subst. apply IH; [ | assumption ].
  destruct (gt y x); assumption.
Qed.

(** [utils.intr(100 * r)] of a fraction is a score. *)
Lemma percent_bounds (n : num) :
  0 <= value n <= 1 -> (0 <= intr (mul (Int 100) n) <= 100)%Z.
Proof.
  intros [L U]. unfold intr. destruct n as [z | f]; unfold value in *.
  - change 0 with (inject_Z 0) in L. change 1 with (inject_Z 1) in U.
    rewrite <- Zle_Qle in L, U. cbn [mul round]. lia.
  - cbn [mul to_float round].
    change (float_of_int 100) with 100. unfold fmul.
    assert (0 <= 100 * f) by lra.
    split.
    + apply rhe_ge_int. now apply rnd_nonneg.
    + apply rhe_le_int. change (inject_Z 100) with 100.
      apply rnd_le_float; [ assumption | exact hundred_is_float | lra ].
Qed.

End FloatFacts.

(** ** Every scorer returns a score *)

Lemma score_0 : returns_score (Ok 0%Z).
Proof. exists 0%Z. split; [ reflexivity | lia ]. Qed.

Lemma score_100 : returns_score (Ok 100%Z).
Proof. exists 100%Z. split; [ reflexivity | lia ]. Qed.

Lemma guarded_scorer_score (f : scorer) (x y : str) :
  (x <> y -> x <> [] -> y <> [] -> returns_score (f (PyStr x) (PyStr y))) ->
  returns_score
    (check_for_equivalence (check_empty_string f) (PyStr x) (PyStr y)).
Proof.
  intro H.
  destruct (list_eq_dec ascii_dec x y) as [-> | N].
  { rewrite guarded_equal. exact score_100. }
  destruct (list_eq_dec ascii_dec x []) as [Ex | Nx].
  { rewrite guarded_empty by auto. exact score_0. }
  destruct (list_eq_dec ascii_dec y []) as [Ey | Ny].
  { rewrite guarded_empty by auto. exact score_0. }
  rewrite guarded_body by auto. now apply H.
Qed.

Lemma ratio_score (x y : str) :
  returns_score (PyFuzz.ratio (PyStr x) (PyStr y)).
Proof.
  apply guarded_scorer_score. intros _ _ _. simpl.
  destruct (difflib_ratio_ok x y) as [r [-> B]]. simpl.
  eexists. split; [ reflexivity | ]. now apply (percent_bounds (Float r)).
Qed.

(** The loop of [partial_ratio] returns a score as soon as there is a block
    to look at or a score already kept: [max(scores)] cannot fail then. *)
Lemma partial_loop_score (shorter longer : str)
    (blocks : list Difflib.Match) :
  forall scores : list num,
    Forall is_fraction scores -> blocks <> [] \/ scores <> [] ->
    returns_score (PyFuzz.partial_loop shorter longer blocks scores).
Proof.
  induction blocks as [ | [[block0 block1] k] rest IH]; intros scores F N.
  - destruct N as [N | N]; [ congruence | ].
    destruct scores as [ | x t]; [ congruence | ]. simpl.
    eexists. split; [ reflexivity | ].
    apply percent_bounds. inversion F; subst.
    now apply (max_of_picks is_fraction).
  - cbn [PyFuzz.partial_loop].
    match goal with |- context [Difflib.ratio shorter ?w] =>
      destruct (difflib_ratio_ok shorter w) as [r [-> B]]
    end.
    simpl. destruct (gt (Float r) (Float (lit 995 1000))).
    + exact score_100.
    + apply IH.
      * apply Forall_app. split; [ exact F | ]. now repeat constructor.
      * right. now destruct scores.
Qed.

Lemma partial_ratio_score (x y : str) :
  returns_score (PyFuzz.partial_ratio (PyStr x) (PyStr y)).
Proof.
  apply guarded_scorer_score. intros _ _ _. simpl.
  destruct (Z.of_nat (length x) <=? Z.of_nat (length y))%Z.
  - destruct (get_matching_blocks_ok x y) as [blocks [-> _]]. simpl.
    apply partial_loop_score; [ constructor | ]. left. now destruct blocks.
  - destruct (get_matching_blocks_ok y x) as [blocks [-> _]]. simpl.
    apply partial_loop_score; [ constructor | ]. left. now destruct blocks.
Qed.

Lemma ratio_func_score (partial : bool) (x y : str) :
  returns_score
    ((if partial then PyFuzz.partial_ratio else PyFuzz.ratio)
       (PyStr x) (PyStr y)).
Proof.
  destruct partial; [ apply partial_ratio_score | apply ratio_score ].
Qed.

Lemma token_sort_score (x y : str) (partial : bool) :
  returns_score (PyFuzz._token_sort (PyStr x) (PyStr y) partial).
Proof.
  unfold PyFuzz._token_sort, PyFuzz._sort_tokens. simpl.
  destruct partial; [ apply partial_ratio_score | apply ratio_score ].
Qed.

Lemma max_scores_score (p1 p2 p3 : Z) :
  (0 <= p1 <= 100)%Z -> (0 <= p2 <= 100)%Z -> (0 <= p3 <= 100)%Z ->
  returns_score (PyFuzz.max_scores [p1; p2; p3]).
Proof.
  intros H1 H2 H3. unfold PyFuzz.max_scores. cbn [map max_list bind].
  eexists. split; [ reflexivity | ].
  apply round_score, (max_of_picks is_score); [ now apply int_score | ].
  repeat constructor; now apply int_score.
Qed.

Lemma bind_score (r : result Z) (k : Z -> result Z) :
  returns_score r ->
  (forall n : Z, (0 <= n <= 100)%Z -> returns_score (k n)) ->
  returns_score (n <- r ;; k n).
Proof. intros [n [-> B]] H. simpl. now apply H. Qed.

Lemma token_set_score (x y : str) (partial : bool) :
  returns_score (PyFuzz._token_set (PyStr x) (PyStr y) partial).
Proof.
  unfold PyFuzz._token_set.
  destruct (py_eq (PyStr x) (PyStr y)); [ exact score_100 | ].
  destruct (negb (validate_string (PyStr x))); [ exact score_0 | ].
  destruct (negb (validate_string (PyStr y))); [ exact score_0 | ].
  cbn [as_str bind].
  apply bind_score; [ apply ratio_func_score | intros p1 B1 ].
  apply bind_score; [ apply ratio_func_score | intros p2 B2 ].
  apply bind_score; [ apply ratio_func_score | intros p3 B3 ].
  now apply max_scores_score.
Qed.

Lemma scale_factors :
  (0 <= lit 95 100 <= 1)%Q /\ (0 <= lit 90 100 <= 1)%Q
  /\ (0 <= lit 6 10 <= 1)%Q.
Proof. repeat split; apply Qle_bool_iff; vm_compute; reflexivity. Qed.

Lemma WRatio_score (s1 s2 : pyobj) : returns_score (PyFuzz.WRatio s1 s2).
Proof.
  unfold PyFuzz.WRatio.
  destruct (validate_string s1) eqn:V1; [ | exact score_0 ].
  destruct (validate_string s2) eqn:V2; [ | exact score_0 ].
  destruct s1 as [ | x]; [ discriminate | ].
  destruct s2 as [ | y]; [ discriminate | ].
  cbn [negb].
  apply bind_score; [ apply ratio_score | intros base Bb ].
  cbn [bind len].
  destruct scale_factors as [F95 [F90 F6]].
  match goal with |- context [if ?c then false else true] =>
    destruct c
  end.
  - apply bind_score; [ apply token_sort_score | intros tsr Bs ].
    apply bind_score; [ apply token_set_score | intros tse Bt ].
    eexists. split; [ reflexivity | ].
    apply round_score, (max_of_picks is_score); [ now apply int_score | ].
    assert (Is : is_score (Int tsr)) by now apply int_score.
    assert (Ie : is_score (Int tse)) by now apply int_score.
    constructor; [ now apply scale_score | ].
    constructor; [ now apply scale_score | constructor ].
  - apply bind_score; [ apply partial_ratio_score | intros pr Bp ].
    apply bind_score; [ apply token_sort_score | intros tsr Bs ].
    apply bind_score; [ apply token_set_score | intros tse Bt ].
    eexists. split; [ reflexivity | ].
    apply round_score, (max_of_picks is_score); [ now apply int_score | ].
    assert (Ip : is_score (Int pr)) by now apply int_score.
    assert (Is : is_score (Int tsr)) by now apply int_score.
    assert (Ie : is_score (Int tse)) by now apply int_score.
    pose proof (scale_score (Int tsr) (lit 95 100) Is F95) as Is'.
    pose proof (scale_score (Int tse) (lit 95 100) Ie F95) as Ie'.
    match goal with |- context [if ?c then _ else _] => destruct c end.
    + constructor; [ now apply scale_score | ].
      constructor; [ now apply scale_score | ].
      constructor; [ now apply scale_score | constructor ].
    + constructor; [ now apply scale_score | ].
      constructor; [ now apply scale_score | ].
      constructor; [ now apply scale_score | constructor ].
Qed.

Lemma rounded_score (f : scorer) (p1 p2 : pyobj) :
  returns_score (f p1 p2) ->
  returns_score (Fuzz.rounded (Fuzz.as_num f) p1 p2).
Proof.
  intros [n [E B]]. unfold Fuzz.rounded, Fuzz.as_num. rewrite E. simpl.
  now exists n.
Qed.

Lemma check_for_none_score (f : scorer) (s1 s2 : pyobj) :
  (forall x y : str, returns_score (f (PyStr x) (PyStr y))) ->
  returns_score (check_for_none f s1 s2).
Proof.
  intro H. destruct s1 as [ | x], s2 as [ | y]; simpl;
    try exact score_0. apply H.
Qed.

Lemma preprocess_str (x : str) (force_ascii full_process : bool) :
  exists p, Fuzz.preprocess (PyStr x) force_ascii full_process = PyStr p.
Proof. destruct full_process; simpl; eexists; reflexivity. Qed.

Lemma public_ratio_score (s1 s2 : pyobj) :
  returns_score (Fuzz.ratio Fuzz.pure_python s1 s2).
Proof.
  apply check_for_none_score. intros x y.
  apply rounded_score, ratio_score.
Qed.

(** C9: on every pair of inputs (strings or absent) and for every choice of
    the flags, each of the ten public scorers returns an integer from 0 to
    100. *)
Theorem public_scores_in_range (s1 s2 : pyobj)
    (force_ascii full_process : bool) :
  returns_score (Fuzz.ratio Fuzz.pure_python s1 s2)
  /\ returns_score (Fuzz.partial_ratio Fuzz.pure_python s1 s2)
  /\ returns_score
       (Fuzz.token_sort_ratio Fuzz.pure_python s1 s2 force_ascii full_process)
  /\ returns_score
       (Fuzz.partial_token_sort_ratio Fuzz.pure_python s1 s2
          force_ascii full_process)
  /\ returns_score
       (Fuzz.token_set_ratio Fuzz.pure_python s1 s2 force_ascii full_process)
  /\ returns_score
       (Fuzz.partial_token_set_ratio Fuzz.pure_python s1 s2
          force_ascii full_process)
  /\ returns_score
       (Fuzz.QRatio Fuzz.pure_python s1 s2 force_ascii full_process)
  /\ returns_score (Fuzz.UQRatio Fuzz.pure_python s1 s2 full_process)
  /\ returns_score
       (Fuzz.WRatio Fuzz.pure_python s1 s2 force_ascii full_process)
  /\ returns_score (Fuzz.UWRatio Fuzz.pure_python s1 s2 full_process).
Proof.
  assert (T : forall (partial sort : bool) (x y : str),
             returns_score
               (Fuzz.rounded
                  (Fuzz.as_num (fun p1 p2 =>
                     if sort then PyFuzz._token_sort p1 p2 partial
                     else PyFuzz._token_set p1 p2 partial))
                  (Fuzz.preprocess (PyStr x) force_ascii full_process)
                  (Fuzz.preprocess (PyStr y) force_ascii full_process))).
  { intros partial sort x y.
    destruct (preprocess_str x force_ascii full_process) as [p1 ->].
    destruct (preprocess_str y force_ascii full_process) as [p2 ->].
    apply rounded_score.
    destruct sort; [ apply token_sort_score | apply token_set_score ]. }
  assert (Q : forall fa : bool,
             returns_score (Fuzz.QRatio Fuzz.pure_python s1 s2 fa full_process)).
  { intro fa. unfold Fuzz.QRatio.
    destruct (negb (validate_string _)); [ exact score_0 | ].
    destruct (negb (validate_string _)); [ exact score_0 | ].
    apply public_ratio_score. }
  assert (W : forall fa : bool,
             returns_score (Fuzz.WRatio Fuzz.pure_python s1 s2 fa full_process)).
  { intro fa. unfold Fuzz.WRatio. apply rounded_score, WRatio_score. }
  repeat split.
  - apply public_ratio_score.
  - apply check_for_none_score. intros x y.
    apply rounded_score, partial_ratio_score.
  - apply check_for_none_score. intros x y. apply (T false true).
  - apply check_for_none_score. intros x y. apply (T true true).
  - apply check_for_none_score. intros x y. apply (T false false).
  - apply check_for_none_score. intros x y. apply (T true false).
  - apply Q.
  - apply Q.
  - apply W.
  - apply W.
Qed.

(** ** [partial_ratio] always returns *)

(** C10: the block list of the aligner always ends with the zero-length
    block [(len(a), len(b), 0)], so the loop of [partial_ratio] has at least
    one block to score, [max(scores)] never sees an empty list, and
    [partial_ratio] returns a score on every pair of strings. *)
Theorem partial_ratio_total (s1 s2 : str) :
  (forall a b : str,
     exists blocks,
       Difflib.get_matching_blocks a b
       = Ok (blocks ++ [(Difflib.la a, Difflib.lb b, 0%Z)]))
  /\ (forall (shorter longer : str) (blocks : list Difflib.Match),
        blocks <> [] ->
        exists n, PyFuzz.partial_loop shorter longer blocks [] = Ok n)
  /\ (exists n, PyFuzz.partial_ratio (PyStr s1) (PyStr s2) = Ok n).
Proof.
  split; [ | split ].
  - intros a b. destruct (get_matching_blocks_ok a b) as [blocks [E _]].
    now exists blocks.
  - intros shorter longer blocks N.
    destruct (partial_loop_score shorter longer blocks [])
      as [n [E _]]; [ constructor | now left | now exists n ].
  - destruct (partial_ratio_score s1 s2) as [n [E _]]. now exists n.
Qed.

Lemma partial_ratio_total_witness :
  exists n, PyFuzz.partial_loop (s_ "ab") (s_ "xabx") [(0, 1, 2)%Z] [] = Ok n.
Proof.
  apply (proj1 (proj2 (partial_ratio_total [] []))). discriminate.
Defined.

(** ** A substring the partial ratio misses *)

(** C7 (at the failing input): "ab" occurs in "ba" repeated 100 times, a
    string of 200 characters in which both letters are "popular" and
    purged from the aligner's index.  The aligner then reports no block but
    the terminating one, whose window is the last two characters "ba", and
    [partial_ratio] returns 50 instead of 100. *)
Theorem partial_ratio_misses_substring :
  Spec.occurs_in (s_ "ab") (repeat_str 100 (s_ "ba"))
  /\ Difflib.get_matching_blocks (s_ "ab") (repeat_str 100 (s_ "ba"))
     = Ok [(2, 200, 0)%Z]
  /\ PyFuzz.partial_ratio (py "ab") (PyStr (repeat_str 100 (s_ "ba")))
     = Ok 50%Z
  /\ Fuzz.partial_ratio Fuzz.pure_python
       (py "ab") (PyStr (repeat_str 100 (s_ "ba")))
     = Ok 50%Z.
Proof.
  split; [ | repeat split; vm_compute; reflexivity ].
  exists (s_ "b"), ("a"%char :: repeat_str 98 (s_ "ba")).
  vm_compute. reflexivity.
Qed.

(** One repetition less and the index is complete: the substring is
    found. *)
Lemma partial_ratio_below_autojunk :
  PyFuzz.partial_ratio (py "ab") (PyStr (repeat_str 99 (s_ "ba")))
  = Ok 100%Z.
Proof. vm_compute. reflexivity. Qed.

(** ** Maxima *)

Section Maxima.
Local Open Scope Q_scope.

Lemma Qltb_spec (x y : Q) : Qltb x y = true <-> x < y.
Proof.
  unfold Qltb. rewrite negb_true_iff. split; intro H.
  - apply Qnot_le_lt. intro C. apply Qle_bool_iff in C. congruence.
  - destruct (Qle_bool y x) eqn:E; [ | reflexivity ].
    apply Qle_bool_iff in E. lra.
Qed.

Lemma Qltb_false (x y : Q) : Qltb x y = false <-> y <= x.
Proof.
  unfold Qltb. rewrite negb_false_iff. apply Qle_bool_iff.
Qed.

Lemma fold_max_is_max (l : list num) :
  forall (m : num) (seen : list num),
    is_max m (seen ++ [m]) ->
    is_max (fold_left (fun m y => if gt y m then y else m) l m)
           (seen ++ m :: l).
Proof.
  induction l as [ | y l IH]; intros m seen [Hin Hle]; simpl.
  - split; [ exact Hin | exact Hle ].
  - unfold gt at 2. destruct (Qltb (value m) (value y)) eqn:G.
    + apply Qltb_spec in G.
      replace (seen ++ m :: y :: l) with ((seen ++ [m]) ++ y :: l)
        by (rewrite <- app_assoc; reflexivity).
      apply IH. split.
      * apply in_or_app. right. now left.
      * intros z Hz. apply in_app_or in Hz. destruct Hz as [Hz | [<- | []]].
        -- specialize (Hle z Hz). lra.
        -- lra.
    + apply Qltb_false in G.
      assert (M : is_max m ((seen ++ [y]) ++ [m])).
      { split.
        - apply in_or_app. right. now left.
        - intros z Hz. apply in_app_or in Hz.
          destruct Hz as [Hz | [<- | []]]; [ | lra ].
          apply in_app_or in Hz. destruct Hz as [Hz | [<- | []]];
            [ | exact G ].
          apply Hle. apply in_or_app. now left. }
      destruct (IH m (seen ++ [y]) M) as [Hin' Hle'].
      split.
      * apply in_app_or in Hin'. destruct Hin' as [Hi | Hi].
        -- apply in_app_or in Hi. destruct Hi as [Hi | [<- | []]].
           ++ apply in_or_app. now left.
           ++ apply in_or_app. right. right. now left.
        -- apply in_or_app. right. destruct Hi as [<- | Hi];
             [ now left | right; now right ].
      * intros z Hz. apply Hle'.
        apply in_app_or in Hz. destruct Hz as [Hz | [<- | [<- | Hz]]].
        -- apply in_or_app. left. apply in_or_app. now left.
        -- apply in_or_app. right. now left.
        -- apply in_or_app. left. apply in_or_app. right. now left.
        -- apply in_or_app. right. now right.
Qed.

(** [max(x, ...)] is a largest argument. *)
Lemma max_of_is_max (x : num) (l : list num) : is_max (max_of x l) (x :: l).
Proof.
  apply (fold_max_is_max l x []). split; [ now left | ].
  intros y [<- | []]. lra.
Qed.

Lemma larger_is_max (x m : num) (l : list num) :
  is_max m l -> is_max (Spec.larger x m) (x :: l).
Proof.
  intros [Hin Hle]. unfold Spec.larger.
  destruct (Qle_bool (value x) (value m)) eqn:E.
  - apply Qle_bool_iff in E. split; [ now right | ].
    intros y [<- | Hy]; [ exact E | now apply Hle ].
  - assert (value m < value x).
    { apply Qnot_le_lt. intro C. apply Qle_bool_iff in C. congruence. }
    split; [ now left | ].
    intros y [<- | Hy]; [ lra | ]. specialize (Hle y Hy). lra.
Qed.

Lemma single_is_max (x : num) : is_max x [x].
Proof. split; [ now left | ]. intros y [<- | []]. lra. Qed.

Lemma is_max_value (m m' : num) (l : list num) :
  is_max m l -> is_max m' l -> value m == value m'.
Proof.
  intros [I1 L1] [I2 L2]. apply Qle_antisym; auto.
Qed.

Lemma rhe_int (z : Z) : round_half_even (inject_Z z) = z.
Proof.
  pose proof (rhe_le_int (inject_Z z) z (Qle_refl _)).
  pose proof (rhe_ge_int (inject_Z z) z (Qle_refl _)). lia.
Qed.

(** [round] depends on the value only. *)
Lemma round_value (x y : num) : value x == value y -> round x = round y.
Proof.
  destruct x as [a | f], y as [b | g]; simpl; intro E.
  - now apply inject_Z_injective.
  - rewrite <- (rhe_comp _ _ E). symmetry. apply rhe_int.
  - rewrite (rhe_comp _ _ E). apply rhe_int.
  - now apply rhe_comp.
Qed.

Lemma round_max (m m' : num) (l : list num) :
  is_max m l -> is_max m' l -> round m = round m'.
Proof. intros H H'. apply round_value. exact (is_max_value m m' l H H'). Qed.

End Maxima.

(** ** WRatio *)

Lemma rounded_as_num (f : scorer) (p1 p2 : pyobj) :
  Fuzz.rounded (Fuzz.as_num f) p1 p2 = f p1 p2.
Proof.
  unfold Fuzz.rounded, Fuzz.as_num. destruct (f p1 p2); reflexivity.
Qed.

Lemma validate_nonempty (x : str) : x <> [] -> validate_string (PyStr x) = true.
Proof. destruct x; [ congruence | reflexivity ]. Qed.

(** C1: on two non-empty strings, [WRatio] is the rounded largest of the
    base ratio and the scaled token scores when the length ratio is below
    1.5, and of the base ratio and the scaled partial scores (scale 0.6
    above a length ratio of 8, 0.9 otherwise) when it is not; the public
    [WRatio] returns the same score on inputs that preprocess to these
    strings. *)
Theorem WRatio_follows_rule (s1 s2 : str) :
  s1 <> [] -> s2 <> [] ->
  PyFuzz.WRatio (PyStr s1) (PyStr s2) = Spec.WRatio s1 s2
  /\ (forall (o1 o2 : pyobj) (force_ascii full_process : bool),
        Fuzz.preprocess o1 force_ascii full_process = PyStr s1 ->
        Fuzz.preprocess o2 force_ascii full_process = PyStr s2 ->
        Fuzz.WRatio Fuzz.pure_python o1 o2 force_ascii full_process
        = Spec.WRatio s1 s2).
Proof.
  intros N1 N2.
  assert (R : PyFuzz.WRatio (PyStr s1) (PyStr s2) = Spec.WRatio s1 s2).
  { unfold PyFuzz.WRatio, Spec.WRatio.
    rewrite (validate_nonempty s1 N1), (validate_nonempty s2 N2).
    cbn [negb].
    destruct (PyFuzz.ratio (PyStr s1) (PyStr s2)) as [base | e];
      [ | reflexivity ].
    cbn [bind len to_float].
    change (lt (Float ?a) (Float ?b)) with (Qltb a b).
    fold (Spec.len_ratio s1 s2).
    change (gt (Float ?a) (Int 8)) with (Qltb 8 a).
    destruct (Qltb (Spec.len_ratio s1 s2) (lit 15 10)).
    - destruct (PyFuzz.token_sort_ratio (PyStr s1) (PyStr s2)) as [tsr | e];
        [ | reflexivity ].
      destruct (PyFuzz.token_set_ratio (PyStr s1) (PyStr s2)) as [tse | e];
        [ | reflexivity ].
      cbn [bind]. f_equal. unfold intr.
      eapply round_max; [ apply max_of_is_max | ].
      unfold Spec.scaled. cbn [fold_left].
      apply larger_is_max, larger_is_max, single_is_max.
    - destruct (PyFuzz.partial_ratio (PyStr s1) (PyStr s2)) as [pr | e];
        [ | reflexivity ].
      destruct (PyFuzz.partial_token_sort_ratio (PyStr s1) (PyStr s2))
        as [ptsr | e]; [ | reflexivity ].
      destruct (PyFuzz.partial_token_set_ratio (PyStr s1) (PyStr s2))
        as [ptse | e]; [ | reflexivity ].
      cbn [bind]. f_equal. unfold intr.
      eapply round_max; [ apply max_of_is_max | ].
      unfold Spec.scaled. cbn [fold_left].
      destruct (Qltb 8 (Spec.len_ratio s1 s2));
        apply larger_is_max, larger_is_max, larger_is_max, single_is_max. }
  split; [ exact R | ].
  intros o1 o2 fa fp E1 E2. unfold Fuzz.WRatio. rewrite E1, E2.
  cbn [Fuzz._WRatio Fuzz.pure_python]. rewrite rounded_as_num. exact R.
Qed.

(** ** Partial ratio *)

Lemma candidates_ok (shorter longer : str) (blocks : list Difflib.Match) :
  exists rs,
    Spec.candidates shorter longer blocks = Ok rs
    /\ Forall (fun r => 0 <= r)%Q rs
    /\ length rs = length blocks.
Proof.
  induction blocks as [ | block rest [rs [E [F L]]]]; simpl.
  - exists []. repeat split; constructor.
  - destruct (difflib_ratio_ok shorter (Spec.window shorter longer block))
      as [r [-> [B _]]].
    rewrite E. simpl. exists (r :: rs).
    repeat split; [ now constructor | simpl; now rewrite L ].
Qed.

Lemma larger_is_max_r (x m : num) (l : list num) :
  is_max m l -> is_max (Spec.larger m x) (x :: l).
Proof.
  intros [Hin Hle]. unfold Spec.larger.
  destruct (Qle_bool (value m) (value x)) eqn:E.
  - apply Qle_bool_iff in E. split; [ now left | ].
    intros y [<- | Hy]; [ apply Qle_refl | ].
    specialize (Hle y Hy). eapply Qle_trans; eassumption.
  - assert (value x < value m)%Q.
    { apply Qnot_le_lt. intro C. apply Qle_bool_iff in C. congruence. }
    split; [ now right | ].
    intros y [<- | Hy]; [ now apply Qlt_le_weak | now apply Hle ].
Qed.

Lemma largest_is_max (r : float) (rs : list float) :
  is_max (Float (Spec.largest r rs)) (map Float (rs ++ [r])).
Proof.
  induction rs as [ | x rs IH]; simpl.
  - apply single_is_max.
  - fold (Spec.largest r rs).
    pose proof (larger_is_max_r (Float x) _ _ IH) as H.
    unfold Spec.larger in H. simpl in H.
    destruct (Qle_bool (Spec.largest r rs) x); exact H.
Qed.

Lemma is_max_perm (m : num) (l l' : list num) :
  (forall y, In y l <-> In y l') -> is_max m l -> is_max m l'.
Proof.
  intros P [Hin Hle]. split; [ now apply P | ].
  intros y Hy. apply Hle. now apply P.
Qed.

(** The percentage of the first largest score is the percentage of any
    largest score. *)
Lemma percentage_of_max (r : float) (rs : list float) :
  Forall (fun r => 0 <= r)%Q (r :: rs) ->
  intr (mul (Int 100) (max_of (Float r) (map Float rs)))
  = round_half_even (fmul (float_of_int 100) (Spec.largest r rs)).
Proof.
  intro F.
  pose proof (max_of_is_max (Float r) (map Float rs)) as M1.
  assert (M2 : is_max (Float (Spec.largest r rs)) (Float r :: map Float rs)).
  { eapply is_max_perm; [ | apply largest_is_max ].
    intro y. rewrite map_app. simpl. rewrite in_app_iff. simpl. tauto. }
  pose proof (is_max_value _ _ _ M1 M2) as E.
  destruct M1 as [Hin _].
  change (Float r :: map Float rs) with (map Float (r :: rs)) in Hin.
  apply in_map_iff in Hin. destruct Hin as [m [Em Hm]].
  rewrite <- Em in *. simpl in E.
  unfold intr. cbn [mul to_float round]. f_equal. unfold fmul.
  apply rnd_comp; [ | now rewrite E ].
  rewrite Forall_forall in F. specialize (F m Hm).
  change (float_of_int 100) with 100%Q. simpl in F. lra.
Qed.

Lemma long_start_max (block0 block1 : Z) :
  (if (block1 - block0 >? 0)%Z then (block1 - block0)%Z else 0%Z)
  = Z.max (block1 - block0) 0.
Proof. destruct (Z.gtb_spec (block1 - block0) 0); lia. Qed.

(** The loop of [partial_ratio], started with the scores [acc] already
    kept, against the candidates of the blocks still to come. *)
Lemma partial_loop_candidates (shorter longer : str)
    (blocks : list Difflib.Match) :
  forall acc : list float,
    Forall (fun r => 0 <= r)%Q acc -> blocks <> [] \/ acc <> [] ->
    PyFuzz.partial_loop shorter longer blocks (map Float acc)
    = (rs <- Spec.candidates shorter longer blocks ;;
       if existsb (fun r => Qltb (lit 995 1000) r) rs then Ok 100%Z
       else Spec.best_percentage (acc ++ rs)).
Proof.
  induction blocks as [ | [[block0 block1] k] rest IH]; intros acc F N.
  - destruct N as [N | N]; [ congruence | ].
    destruct acc as [ | r rs]; [ congruence | ].
    cbn [PyFuzz.partial_loop Spec.candidates bind existsb map max_list].
    rewrite app_nil_r. simpl Spec.best_percentage. f_equal.
    now apply percentage_of_max.
  - cbn [PyFuzz.partial_loop Spec.candidates].
    rewrite long_start_max.
    change (PyFuzz.slice longer (Z.max (block1 - block0) 0)
              (Z.max (block1 - block0) 0 + Z.of_nat (length shorter)))
      with (Spec.window shorter longer (block0, block1, k)).
    destruct (difflib_ratio_ok shorter
                (Spec.window shorter longer (block0, block1, k)))
      as [r [-> [B _]]].
    destruct (candidates_ok shorter longer rest) as [rs [E [Fr _]]].
    cbn [bind]. rewrite E. cbn [bind existsb].
    change (gt (Float r) (Float (lit 995 1000)))
      with (Qltb (lit 995 1000) r).
    destruct (Qltb (lit 995 1000) r); [ reflexivity | ].
    cbn [orb].
    change (map Float acc ++ [Float r]) with (map Float acc ++ map Float [r]).
    rewrite <- map_app, IH.
    + rewrite E. cbn [bind]. now rewrite <- app_assoc.
    + apply Forall_app. split; [ exact F | now repeat constructor ].
    + right. now destruct acc.
Qed.


(** ** Token set *)

Lemma gt_int (a b : Z) : gt (Int a) (Int b) = (b <? a)%Z.
Proof.
  unfold gt, Qltb, value, Qle_bool, inject_Z. simpl.
  rewrite !Z.mul_1_r. now rewrite Z.ltb_antisym.
Qed.

(** [max(pairwise)] on three integer scores. *)
Lemma max_scores_3 (p1 p2 p3 : Z) :
  PyFuzz.max_scores [p1; p2; p3] = Ok (Z.max p1 (Z.max p2 p3)).
Proof.
  unfold PyFuzz.max_scores. cbn [map max_list bind max_of fold_left].
  rewrite gt_int.
  destruct (Z.ltb_spec p1 p2); rewrite gt_int;
    match goal with |- context [(?a <? ?b)%Z] => destruct (Z.ltb_spec a b) end;
    simpl; f_equal; lia.
Qed.

Lemma set_tokens (s : str) : Forall token (set_of (split s)).
Proof.
  apply Forall_forall. intros t Ht. apply nodup_In in Ht.
  pose proof (split_tokens s) as F. rewrite Forall_forall in F. now apply F.
Qed.

Lemma filter_tokens (f : str -> bool) (l : list str) :
  Forall token l -> Forall token (filter f l).
Proof.
  rewrite !Forall_forall. intros F t Ht. apply filter_In in Ht. now apply F.
Qed.

(** The sorted intersection, joined, is already trimmed. *)
Lemma sect_trimmed (x y : str) :
  strip (join [space]
           (sorted str_leb (intersection (set_of (split x))
                                         (set_of (split y)))))
  = join [space]
      (sorted str_leb (intersection (set_of (split x)) (set_of (split y)))).
Proof.
  apply strip_join_tokens, sorted_Forall, filter_tokens, set_tokens.
Qed.

(** C8: on two different non-empty strings the token-set score is the
    largest of the three pairwise scores of [sect], [combined_1] and
    [combined_2], taken with [partial_ratio] for the partial variant and
    with [ratio] otherwise. *)
Theorem token_set_follows_rule (s1 s2 : str) (partial : bool) :
  s1 <> s2 -> s1 <> [] -> s2 <> [] ->
  PyFuzz._token_set (PyStr s1) (PyStr s2) partial
  = Spec.token_set partial s1 s2
  /\ PyFuzz.token_set_ratio (PyStr s1) (PyStr s2) = Spec.token_set false s1 s2
  /\ PyFuzz.partial_token_set_ratio (PyStr s1) (PyStr s2)
     = Spec.token_set true s1 s2.
Proof.
  intros N N1 N2.
  assert (R : forall partial,
             PyFuzz._token_set (PyStr s1) (PyStr s2) partial
             = Spec.token_set partial s1 s2).
  { clear partial. intro partial.
    unfold PyFuzz._token_set, Spec.token_set, Spec.token_set_strings.
    cbn [py_eq]. rewrite (str_eqb_neq _ _ N).
    rewrite (validate_nonempty s1 N1), (validate_nonempty s2 N2).
    cbn [negb as_str bind]. rewrite !sect_trimmed.
    unfold Spec.ratio_or_partial.
    destruct partial.
    - repeat match goal with
        |- (_ <- ?r ;; _) = _ => destruct r; [ cbn [bind] | reflexivity ]
      end.
      apply max_scores_3.
    - repeat match goal with
        |- (_ <- ?r ;; _) = _ => destruct r; [ cbn [bind] | reflexivity ]
      end.
      apply max_scores_3. }
  split; [ apply R | ]. split; apply R.
Qed.

Lemma WRatio_follows_rule_witness :
  PyFuzz.WRatio (py "new york mets") (py "mets")
  = Spec.WRatio (s_ "new york mets") (s_ "mets").
Proof.
  destruct (WRatio_follows_rule (s_ "new york mets") (s_ "mets")) as [H _];
    [ discriminate | discriminate | exact H ].
Defined.


Lemma token_set_follows_rule_witness :
  PyFuzz.token_set_ratio (py "fuzzy was a bear") (py "fuzzy fuzzy was a bear")
  = Spec.token_set false (s_ "fuzzy was a bear") (s_ "fuzzy fuzzy was a bear").
Proof.
  destruct (token_set_follows_rule (s_ "fuzzy was a bear")
              (s_ "fuzzy fuzzy was a bear") false) as [_ [H _]];
    [ discriminate | discriminate | discriminate | exact H ].
Defined.

(** ** Substrings below the autojunk threshold *)

Lemma indices_from_In (elt : ascii) (s : str) :
  forall j0 j : Z,
    In j (Difflib.indices_from j0 elt s)
    <-> (j0 <= j < j0 + Z.of_nat (length s))%Z
        /\ nth_error s (Z.to_nat (j - j0)) = Some elt.
Proof.
  induction s as [ | c t IH]; intros j0 j; simpl Difflib.indices_from.
  - split; [ intros [] | ]. simpl. lia.
  - assert (T : forall P : Prop,
               (P <-> (j0 + 1 <= j < j0 + 1 + Z.of_nat (length t))%Z
                      /\ nth_error t (Z.to_nat (j - (j0 + 1))) = Some elt) ->
               ((j0 < j)%Z /\ P
                <-> (j0 < j < j0 + Z.of_nat (length (c :: t)))%Z
                    /\ nth_error (c :: t) (Z.to_nat (j - j0)) = Some elt)).
    { intros P HP. rewrite HP. simpl length.
      split.
      - intros [L [R E]]. split; [ lia | ].
        replace (Z.to_nat (j - j0)) with (S (Z.to_nat (j - (j0 + 1)))) by lia.
        exact E.
      - intros [R E]. split; [ lia | ]. split; [ lia | ].
        replace (Z.to_nat (j - j0)) with (S (Z.to_nat (j - (j0 + 1)))) in E
          by lia.
        exact E. }
    specialize (T _ (IH (j0 + 1)%Z j)).
    assert (G : In j (Difflib.indices_from (j0 + 1) elt t) -> (j0 < j)%Z).
    { intro H. apply IH in H. lia. }
    destruct (Ascii.eqb_spec c elt) as [-> | N].
    + split.
      * intros [<- | H].
        -- split; [ simpl length; lia | ].
           now replace (Z.to_nat (j0 - j0)) with 0%nat by lia.
        -- assert (j0 < j)%Z by auto.
           destruct T as [T _]. destruct T as [R E]; [ tauto | ].
           split; [ lia | exact E ].
      * intros [R E]. destruct (Z.eq_dec j0 j) as [-> | Nj]; [ now left | ].
        right. apply T. split; [ lia | exact E ].
    + split.
      * intro H. assert (j0 < j)%Z by auto.
        destruct T as [T _]. destruct T as [R E]; [ tauto | ].
        split; [ lia | exact E ].
      * intros [R E]. destruct (Z.eq_dec j0 j) as [<- | Nj].
        -- replace (Z.to_nat (j0 - j0)) with 0%nat in E by lia.
           simpl in E. congruence.
        -- apply T. split; [ lia | exact E ].
Qed.

Lemma indices_from_NoDup (elt : ascii) (s : str) :
  forall j0 : Z, NoDup (Difflib.indices_from j0 elt s).
Proof.
  induction s as [ | c t IH]; intro j0; simpl; [ constructor | ].
  destruct (Ascii.eqb c elt); [ | apply IH ].
  constructor; [ | apply IH ].
  intro H. apply indices_from_In in H. lia.
Qed.

Section Rows.
Variables a b : str.
Variables blo bhi : Z.

(** A row scanned over indices that all lie in [blo, bhi). *)
Lemma scan_row_full (i : Z) (js : list Z) :
  Forall (fun j => blo <= j < bhi)%Z js -> NoDup js ->
  forall (j2len newj2len : Difflib.dict) (best : Difflib.Match),
    let r := Difflib.scan_row blo bhi i js j2len newj2len best in
    (forall j, In j js ->
       Difflib.dict_get (fst r) j 0 = Difflib.dict_get j2len (j - 1) 0 + 1)%Z
    /\ (forall j, ~ In j js ->
          Difflib.dict_get (fst r) j 0 = Difflib.dict_get newj2len j 0)
    /\ (Difflib.size best <= Difflib.size (snd r))%Z
    /\ (forall j, In j js ->
          Difflib.dict_get j2len (j - 1) 0 + 1 <= Difflib.size (snd r))%Z.
Proof.
  induction js as [ | j0 rest IH]; intros F ND j2len newj2len best; simpl.
  - repeat split; try (intros j []); try reflexivity.
  - inversion F as [ | ? ? R F']; subst. inversion ND as [ | ? ? NI ND']; subst.
    destruct (Z.ltb_spec j0 blo); [ lia | ].
    destruct (Z.geb_spec j0 bhi); [ lia | ].
    destruct best as [[bi bj] bs].
    match goal with |- context [Difflib.scan_row blo bhi i rest j2len ?n ?bst] =>
      destruct (IH F' ND' j2len n bst) as [I1 [I2 [I3 I4]]];
      set (r := Difflib.scan_row blo bhi i rest j2len n bst) in *
    end.
    assert (S0 : (bs <= Difflib.size (snd r)
                  /\ Difflib.dict_get j2len (j0 - 1) 0 + 1
                     <= Difflib.size (snd r))%Z).
    { revert I3.
      destruct (Z.gtb_spec (Difflib.dict_get j2len (j0 - 1) 0 + 1) bs);
        unfold Difflib.size; simpl; lia. }
    repeat split.
    + intros j [<- | Hj]; [ | now apply I1 ].
      rewrite (I2 _ NI). simpl. now rewrite Z.eqb_refl.
    + intros j Hj. rewrite I2 by tauto. simpl.
      destruct (Z.eqb_spec j0 j); [ tauto | reflexivity ].
    + unfold Difflib.size at 1. simpl. lia.
    + intros j [<- | Hj]; [ lia | now apply I4 ].
Qed.

Lemma scan_row_sound (i : Z) (js : list Z) :
  (forall j, In j js -> Difflib.same_at a b i j = true) ->
  forall (j2len newj2len : Difflib.dict) (best : Difflib.Match),
    row_sound a b (i - 1) j2len -> row_sound a b i newj2len ->
    valid_match a b best ->
    row_sound a b i
      (fst (Difflib.scan_row blo bhi i js j2len newj2len best))
    /\ valid_match a b
         (snd (Difflib.scan_row blo bhi i js j2len newj2len best)).
Proof.
  induction js as [ | j0 rest IH]; intros S j2len newj2len best R0 R1 V;
    simpl.
  - now split.
  - assert (S' : forall j, In j rest -> Difflib.same_at a b i j = true)
      by (intros j Hj; apply S; now right).
    destruct (j0 <? blo)%Z; [ now apply IH | ].
    destruct (j0 >=? bhi)%Z; [ now split | ].
    destruct best as [[bi bj] bs].
    set (k := (Difflib.dict_get j2len (j0 - 1) 0 + 1)%Z).
    assert (K : forall t, (0 <= t < k)%Z ->
                  Difflib.same_at a b (i - t) (j0 - t) = true).
    { intros t Ht. destruct (Z.eq_dec t 0) as [-> | N].
      - rewrite !Z.sub_0_r. apply S. now left.
      - replace (i - t)%Z with (i - 1 - (t - 1))%Z by lia.
        replace (j0 - t)%Z with (j0 - 1 - (t - 1))%Z by lia.
        apply R0. unfold k in Ht. lia. }
    apply IH; try assumption.
    + intros j t. simpl. destruct (Z.eqb_spec j0 j) as [<- | N].
      * apply K.
      * apply R1.
    + destruct (k >? bs)%Z; [ | exact V ].
      intros t Ht.
      replace (i - k + 1 + t)%Z with (i - (k - 1 - t))%Z by lia.
      replace (j0 - k + 1 + t)%Z with (j0 - (k - 1 - t))%Z by lia.
      apply K. lia.
Qed.

End Rows.

Lemma same_at_true (a b : str) (i j : Z) :
  Difflib.same_at a b i j = true <->
  exists x, nth_error a (Z.to_nat i) = Some x
            /\ nth_error b (Z.to_nat j) = Some x.
Proof.
  unfold Difflib.same_at.
  destruct (nth_error a (Z.to_nat i)) as [x | ],
           (nth_error b (Z.to_nat j)) as [y | ]; split;
    try discriminate; try (intros [z [H1 H2]]; discriminate).
  - intro E. apply Ascii.eqb_eq in E. subst. now exists y.
  - intros [z [H1 H2]]. apply Ascii.eqb_eq. congruence.
Qed.

Section Occurrence.
Variables a b : str.
Variable p : Z.
Hypothesis short_b : (length b < 200)%nat.
Hypothesis occ_p : (0 <= p)%Z.
Hypothesis occ :
  forall t : Z, (0 <= t < Difflib.la a)%Z ->
    Difflib.same_at a b t (p + t) = true.

(** Below 200 characters nothing is purged from the index. *)
Lemma b2j_complete (elt : ascii) :
  Difflib.b2j b elt = Difflib.indices_from 0 elt b.
Proof.
  unfold Difflib.b2j, Difflib.bjunk, Difflib.bpopular.
  destruct (Z.leb_spec 200 (Z.of_nat (length b))); [ lia | reflexivity ].
Qed.

Lemma scan_rows_diag (n : nat) :
  forall (i0 : Z) (d : Difflib.dict) (best : Difflib.Match),
    Z.to_nat (Difflib.la a - i0) = n -> (0 <= i0)%Z ->
    row_ok 0 0 (i0 - 1) d -> row_sound a b (i0 - 1) d ->
    valid_match a b best ->
    inside 0 (Difflib.la a) 0 (Difflib.lb b) best ->
    ((0 < i0)%Z -> (i0 <= Difflib.dict_get d (p + i0 - 1) 0)%Z) ->
    (i0 <= Difflib.size best)%Z ->
    let r := Difflib.scan_rows a b 0 (Difflib.lb b)
               (Difflib.range i0 (Difflib.la a)) d best in
    valid_match a b r /\ inside 0 (Difflib.la a) 0 (Difflib.lb b) r
    /\ (Difflib.la a <= Difflib.size r)%Z.
Proof.
  induction n as [ | n IH]; intros i0 d best Hn Hi RO RS V IN LB SB;
    rewrite range_unfold.
  - destruct (Z.ltb_spec i0 (Difflib.la a)); [ lia | ]. simpl.
    repeat split; try assumption. lia.
  - destruct (Z.ltb_spec i0 (Difflib.la a)) as [Hlt | ]; [ | lia ].
    cbn [Difflib.scan_rows].
    pose proof (occ i0 (conj Hi Hlt)) as O.
    apply same_at_true in O. destruct O as [elt [Ea Eb]].
    rewrite Ea, b2j_complete.
    set (js := Difflib.indices_from 0 elt b).
    assert (Jin : forall j, In j js ->
                    (0 <= j < Difflib.lb b)%Z
                    /\ Difflib.same_at a b i0 j = true).
    { intros j Hj. apply indices_from_In in Hj. destruct Hj as [R E].
      split; [ unfold Difflib.lb; lia | ].
      apply same_at_true. exists elt. split; [ exact Ea | ].
      now rewrite Z.sub_0_r in E. }
    assert (Jd : In (p + i0)%Z js).
    { apply indices_from_In. rewrite Z.sub_0_r. split; [ | exact Eb ].
      assert (Z.to_nat (p + i0) < length b)%nat
        by (apply nth_error_Some; congruence).
      lia. }
    assert (F : Forall (fun j => 0 <= j < Difflib.lb b)%Z js)
      by (apply Forall_forall; intros j Hj; now apply Jin).
    pose proof (indices_from_NoDup elt b 0) as ND. fold js in ND.
    assert (RO0 : row_ok 0 0 i0 []) by (intro j; simpl; lia).
    assert (RS0 : row_sound a b i0 []) by (intros j t; simpl; lia).
    assert (A_range : (0 <= Difflib.la a)%Z) by (unfold Difflib.la; lia).
    assert (B_range : (0 <= Difflib.lb b)%Z) by (unfold Difflib.lb; lia).
    destruct (scan_row_ok 0 (Difflib.la a) 0 (Difflib.lb b)
                i0 js (conj Hi Hlt) d [] best RO RO0 IN) as [RO' IN'].
    destruct (scan_row_sound a b 0 (Difflib.lb b) i0 js
                (fun j Hj => proj2 (Jin j Hj)) d [] best RS RS0 V)
      as [RS' V'].
    destruct (scan_row_full 0 (Difflib.lb b) i0 js F ND d [] best)
      as [D1 [_ [_ D4]]].
    destruct (Difflib.scan_row 0 (Difflib.lb b) i0 js d [] best)
      as [newj2len best'].
    cbn [fst snd] in *.
    assert (K : (i0 + 1 <= Difflib.dict_get d (p + i0 - 1) 0 + 1)%Z).
    { destruct (Z.eq_dec i0 0) as [-> | N].
      - pose proof (RO (p + 0 - 1)%Z). lia.
      - assert (0 < i0)%Z by lia. specialize (LB H). lia. }
    apply IH; try assumption; try lia.
    + now replace (i0 + 1 - 1)%Z with i0 by lia.
    + now replace (i0 + 1 - 1)%Z with i0 by lia.
    + intros _. replace (p + (i0 + 1) - 1)%Z with (p + i0)%Z by lia.
      rewrite (D1 _ Jd). exact K.
    + specialize (D4 _ Jd). lia.
Qed.

Lemma extend_left_valid (alo blo : Z) (junk : bool) (n : nat) :
  forall best : Difflib.Match,
    valid_match a b best ->
    valid_match a b (Difflib.extend_left a b alo blo junk n best)
    /\ (Difflib.size best
        <= Difflib.size (Difflib.extend_left a b alo blo junk n best))%Z.
Proof.
  induction n as [ | n IH]; intros [[bi bj] bs] V; simpl;
    [ split; [ exact V | apply Z.le_refl ] | ].
  match goal with |- context [if ?c then _ else _] => destruct c eqn:G end;
    [ | split; [ exact V | apply Z.le_refl ] ].
  rewrite !andb_true_iff in G. destruct G as [_ G].
  match goal with |- context [Difflib.extend_left a b alo blo junk n ?m] =>
    destruct (IH m) as [V' S']
  end.
  - intros t Ht. destruct (Z.eq_dec t 0) as [-> | N].
    + now rewrite !Z.add_0_r.
    + replace (bi - 1 + t)%Z with (bi + (t - 1))%Z by lia.
      replace (bj - 1 + t)%Z with (bj + (t - 1))%Z by lia.
      apply V. lia.
  - split; [ exact V' | ]. unfold Difflib.size in *. simpl in *. lia.
Qed.

Lemma extend_right_valid (ahi bhi : Z) (junk : bool) (n : nat) :
  forall best : Difflib.Match,
    valid_match a b best ->
    valid_match a b (Difflib.extend_right a b ahi bhi junk n best)
    /\ (Difflib.size best
        <= Difflib.size (Difflib.extend_right a b ahi bhi junk n best))%Z.
Proof.
  induction n as [ | n IH]; intros [[bi bj] bs] V; simpl;
    [ split; [ exact V | apply Z.le_refl ] | ].
  match goal with |- context [if ?c then _ else _] => destruct c eqn:G end;
    [ | split; [ exact V | apply Z.le_refl ] ].
  rewrite !andb_true_iff in G. destruct G as [_ G].
  match goal with |- context [Difflib.extend_right a b ahi bhi junk n ?m] =>
    destruct (IH m) as [V' S']
  end.
  - intros t Ht. destruct (Z.eq_dec t bs) as [-> | N].
    + exact G.
    + apply V. lia.
  - split; [ exact V' | ]. unfold Difflib.size in *. simpl in *. lia.
Qed.

(** The first search finds the whole of [a] somewhere in [b]. *)
Lemma find_longest_match_whole :
  exists j : Z,
    Difflib.find_longest_match a b 0 (Difflib.la a) 0 (Difflib.lb b)
    = (0%Z, j, Difflib.la a)
    /\ (0 <= j)%Z /\ (j + Difflib.la a <= Difflib.lb b)%Z
    /\ valid_match a b (0%Z, j, Difflib.la a).
Proof.
  assert (A_range : (0 <= Difflib.la a)%Z) by (unfold Difflib.la; lia).
  assert (B_range : (0 <= Difflib.lb b)%Z) by (unfold Difflib.lb; lia).
  pose proof (find_longest_match_inside a b 0 (Difflib.la a) 0 (Difflib.lb b)
                A_range B_range) as IN.
  unfold Difflib.find_longest_match in *.
  destruct (scan_rows_diag (Z.to_nat (Difflib.la a - 0)) 0%Z []
              (0, 0, 0)%Z eq_refl)
    as [V0 [_ S0]]; try lia.
  - intro j. simpl. lia.
  - intros j t. simpl. lia.
  - intros t Ht. lia.
  - unfold inside. lia.
  - unfold Difflib.size. simpl. lia.
  - set (best0 := Difflib.scan_rows a b 0 (Difflib.lb b)
                    (Difflib.range 0 (Difflib.la a)) [] (0, 0, 0)%Z) in *.
    destruct (extend_left_valid 0 0 false (Difflib.left_room 0 best0) best0 V0)
      as [V1 S1].
    set (best1 := Difflib.extend_left a b 0 0 false
                    (Difflib.left_room 0 best0) best0) in *.
    destruct (extend_right_valid (Difflib.la a) (Difflib.lb b) false
                (Difflib.right_room (Difflib.la a) best1) best1 V1)
      as [V2 S2].
    set (best2 := Difflib.extend_right a b (Difflib.la a) (Difflib.lb b) false
                    (Difflib.right_room (Difflib.la a) best1) best1) in *.
    destruct (extend_left_valid 0 0 true (Difflib.left_room 0 best2) best2 V2)
      as [V3 S3].
    set (best3 := Difflib.extend_left a b 0 0 true
                    (Difflib.left_room 0 best2) best2) in *.
    destruct (extend_right_valid (Difflib.la a) (Difflib.lb b) true
                (Difflib.right_room (Difflib.la a) best3) best3 V3)
      as [V4 S4].
    destruct (Difflib.extend_right a b (Difflib.la a) (Difflib.lb b) true
                (Difflib.right_room (Difflib.la a) best3) best3)
      as [[i j] k].
    unfold inside, Difflib.size in *. simpl in S4.
    assert (i = 0%Z) by lia. assert (k = Difflib.la a) by lia. subst i k.
    exists j. repeat split; try lia. exact V4.
Qed.

End Occurrence.

(** A sequence aligned with all of itself has ratio 1.0. *)
Lemma calculate_ratio_full (n : Z) :
  (0 < n)%Z -> Difflib._calculate_ratio n (n + n) = 1%Q.
Proof.
  intro H. unfold Difflib._calculate_ratio.
  destruct (Z.eqb_spec (n + n) 0); [ lia | ].
  change (lit 2 1) with 2%Q. unfold fdiv, fmul, float_of_int.
  assert (Qn : (0 <= inject_Z n)%Q)
    by (change 0%Q with (inject_Z 0); rewrite <- Zle_Qle; lia).
  assert (Q2 : (0 <= 2 * inject_Z n)%Q) by lra.
  assert (Y : (1 <= rnd (inject_Z (n + n)))%Q).
  { apply rnd_ge_float; [ exact one_is_float | | lra ].
    change 1%Q with (inject_Z 1). rewrite <- Zle_Qle. lia. }
  assert (E : (rnd (2 * rnd (inject_Z n)) == rnd (inject_Z (n + n)))%Q).
  { rewrite (rnd_comp (2 * rnd (inject_Z n)) (rnd (2 * inject_Z n))).
    - rewrite (rnd_comp (inject_Z (n + n)) (2 * inject_Z n)).
      + apply rnd_float; [ now apply rnd_is_float | now apply rnd_nonneg ].
      + change 0%Q with (inject_Z 0). rewrite <- Zle_Qle. lia.
      + rewrite inject_Z_plus. ring.
    - pose proof (rnd_nonneg _ Qn). lra.
    - symmetry. now apply rnd_double. }
  rewrite (rnd_comp _ 1%Q).
  - reflexivity.
  - apply Qle_shift_div_l; [ lra | ]. rewrite E. lra.
  - rewrite E. field. lra.
Qed.

Lemma valid_whole_slice (a b : str) (j : Z) :
  valid_match a b (0%Z, j, Difflib.la a) -> (0 <= j)%Z ->
  PyFuzz.slice b j (j + Difflib.la a) = a.
Proof.
  intros V Hj. unfold PyFuzz.slice.
  replace (Z.to_nat (j + Difflib.la a - j)) with (length a)
    by (unfold Difflib.la; lia).
  apply nth_error_ext. intro n.
  rewrite nth_error_firstn, nth_error_skipn.
  destruct (Nat.ltb_spec n (length a)) as [L | L].
  - specialize (V (Z.of_nat n)). simpl in V.
    apply same_at_true in V; [ | unfold Difflib.la; lia ].
    destruct V as [x [Ea Eb]].
    replace (Z.to_nat (Z.of_nat n)) with n in Ea by lia.
    replace (Z.to_nat (j + Z.of_nat n)) with (Z.to_nat j + n)%nat in Eb
      by lia.
    congruence.
  - symmetry. now apply nth_error_None.
Qed.

Lemma collapse_single (j k : Z) :
  (0 < k)%Z ->
  Difflib.collapse (0, 0, 0)%Z [(0%Z, j, k)] [] = [(0%Z, j, k)].
Proof.
  intro H. cbn [Difflib.collapse]. rewrite !Z.add_0_l.
  destruct (Z.eqb_spec 0 j) as [<- | N]; cbn [Z.eqb andb app].
  - destruct (Z.eqb_spec k 0); [ lia | reflexivity ].
  - destruct (Z.eqb_spec k 0); [ lia | reflexivity ].
Qed.

Section Whole.
Variables a b : str.
Variable p : Z.
Hypothesis a_nonempty : a <> [].
Hypothesis short_b : (length b < 200)%nat.
Hypothesis occ_p : (0 <= p)%Z.
Hypothesis occ :
  forall t : Z, (0 <= t < Difflib.la a)%Z ->
    Difflib.same_at a b t (p + t) = true.

(** The aligner reports one block, all of [a], and the terminating one. *)
Lemma get_matching_blocks_whole :
  exists j : Z,
    Difflib.get_matching_blocks a b
    = Ok [(0%Z, j, Difflib.la a); (Difflib.la a, Difflib.lb b, 0%Z)]
    /\ (0 <= j)%Z /\ valid_match a b (0%Z, j, Difflib.la a).
Proof.
  destruct (find_longest_match_whole a b p short_b occ_p occ)
    as [j [E [Hj [Hb V]]]].
  exists j. split; [ | split; assumption ].
  assert (La : (0 < Difflib.la a)%Z).
  { unfold Difflib.la. destruct a; [ congruence | simpl; lia ]. }
  unfold Difflib.get_matching_blocks, Difflib.blocks_fuel.
  replace (2 * length a + 1)%nat with (S (2 * length a)) by lia.
  cbn [Difflib.blocks_loop]. rewrite E.
  destruct (Z.eqb_spec (Difflib.la a) 0); [ lia | ].
  rewrite Z.ltb_irrefl. cbn [andb].
  change (0 <? 0)%Z with false. cbn [andb app].
  replace (Difflib.blocks_loop a b (2 * length a) []
             [(0%Z, j, Difflib.la a)])
    with (Ok [(0%Z, j, Difflib.la a)])
    by (destruct (2 * length a)%nat; reflexivity).
  cbn [bind sorted fold_right insert_sorted].
  now rewrite collapse_single.
Qed.

End Whole.

Lemma same_at_self (a : str) (t : Z) :
  (0 <= t < Difflib.la a)%Z -> Difflib.same_at a a t (0 + t) = true.
Proof.
  intro H. apply same_at_true. rewrite Z.add_0_l.
  destruct (nth_error a (Z.to_nat t)) as [x | ] eqn:E.
  - now exists x.
  - apply nth_error_None in E. unfold Difflib.la in H. lia.
Qed.

Lemma ratio_self (a : str) :
  a <> [] -> (length a < 200)%nat -> Difflib.ratio a a = Ok 1%Q.
Proof.
  intros N S.
  destruct (get_matching_blocks_whole a a 0 N S (Z.le_refl 0) (same_at_self a))
    as [j [E _]].
  unfold Difflib.ratio. rewrite E. cbn [bind Difflib.sum_sizes fold_right].
  unfold Difflib.size. cbn [snd]. rewrite !Z.add_0_r.
  unfold Difflib.lb. fold (Difflib.la a).
  rewrite calculate_ratio_full; [ reflexivity | ].
  unfold Difflib.la. destruct a; [ congruence | simpl; lia ].
Qed.

Lemma occurs_same_at (needle hay pre post : str) (t : Z) :
  hay = pre ++ needle ++ post -> (0 <= t < Difflib.la needle)%Z ->
  Difflib.same_at needle hay t (Z.of_nat (length pre) + t) = true.
Proof.
  intros -> H. apply same_at_true. unfold Difflib.la in H.
  destruct (nth_error needle (Z.to_nat t)) as [x | ] eqn:E.
  - exists x. split; [ reflexivity | ].
    replace (Z.to_nat (Z.of_nat (length pre) + t))
      with (length pre + Z.to_nat t)%nat by lia.
    rewrite nth_error_app2 by lia.
    replace (length pre + Z.to_nat t - length pre)%nat with (Z.to_nat t)
      by lia.
    rewrite nth_error_app1 by lia. exact E.
  - apply nth_error_None in E. lia.
Qed.

(** X1: when the longer string has fewer than 200 characters, so that
    no character is purged as popular, and the shorter string occurs in
    it, [partial_ratio] returns 100, in either order of the arguments. *)
Theorem partial_ratio_finds_substring (shorter longer : str) :
  shorter <> [] -> (length longer < 200)%nat ->
  Spec.occurs_in shorter longer ->
  PyFuzz.partial_ratio (PyStr shorter) (PyStr longer) = Ok 100%Z
  /\ PyFuzz.partial_ratio (PyStr longer) (PyStr shorter) = Ok 100%Z.
Proof.
  intros N S [pre [post O]].
  destruct (list_eq_dec ascii_dec shorter longer) as [<- | D].
  { split; apply guarded_equal. }
  assert (Len : length longer = (length pre + (length shorter + length post))%nat)
    by (rewrite O, !length_app; reflexivity).
  assert (Nl : longer <> []).
  { intro E. rewrite E in Len. simpl in Len.
    destruct shorter; [ congruence | simpl in Len; lia ]. }
  assert (Lt : (length shorter < length longer)%nat).
  { destruct (Nat.eq_dec (length shorter) (length longer)) as [E | NE];
      [ | lia ].
    exfalso. apply D.
    assert (length pre = 0%nat) by lia. assert (length post = 0%nat) by lia.
    destruct pre; [ | discriminate ]. destruct post; [ | discriminate ].
    rewrite O. simpl. now rewrite app_nil_r. }
  assert (R : (blocks <- Difflib.get_matching_blocks shorter longer ;;
               PyFuzz.partial_loop shorter longer blocks []) = Ok 100%Z).
  { destruct (get_matching_blocks_whole shorter longer
                (Z.of_nat (length pre)) N S ltac:(lia)
                (fun t => occurs_same_at shorter longer pre post t O))
      as [j [E [Hj V]]].
    rewrite E. cbn [bind PyFuzz.partial_loop].
    rewrite long_start_max.
    replace (Z.max (j - 0) 0) with j by lia.
    fold (Difflib.la shorter).
    rewrite (valid_whole_slice shorter longer j V Hj).
    rewrite ratio_self by (try assumption; lia).
    reflexivity. }
  split.
  - unfold PyFuzz.partial_ratio. rewrite guarded_body by assumption.
    cbn [make_type_consistent to_text].
    destruct (Z.leb_spec (Z.of_nat (length shorter)) (Z.of_nat (length longer)));
      [ exact R | lia ].
  - unfold PyFuzz.partial_ratio. rewrite guarded_body by auto.
    cbn [make_type_consistent to_text].
    destruct (Z.leb_spec (Z.of_nat (length longer)) (Z.of_nat (length shorter)));
      [ lia | exact R ].
Qed.

Lemma partial_ratio_finds_substring_witness :
  PyFuzz.partial_ratio (py "york") (py "new york mets") = Ok 100%Z.
Proof.
  apply (partial_ratio_finds_substring (s_ "york") (s_ "new york mets")).
  - discriminate.
  - simpl. lia.
  - exists (s_ "new "), (s_ " mets"). reflexivity.
Defined.

(** ** Strings with no character in common *)

Lemma indices_from_absent (elt : ascii) (s : str) :
  ~ In elt s -> forall j0, Difflib.indices_from j0 elt s = [].
Proof.
  induction s as [ | c t IH]; intros N j0; simpl; [ reflexivity | ].
  destruct (Ascii.eqb_spec c elt) as [-> | D].
  - exfalso. apply N. now left.
  - apply IH. intro H. apply N. now right.
Qed.

Section Disjoint.
Variables a b : str.
Hypothesis no_common : disjoint a b.

Lemma same_at_disjoint (i j : Z) : Difflib.same_at a b i j = false.
Proof.
  destruct (Difflib.same_at a b i j) eqn:E; [ | reflexivity ].
  apply same_at_true in E. destruct E as [x [Ea Eb]].
  apply nth_error_In in Ea, Eb. now destruct (no_common x Ea).
Qed.

Lemma scan_rows_disjoint (blo bhi : Z) (is_ : list Z) (best : Difflib.Match) :
  forall j2len, Difflib.scan_rows a b blo bhi is_ j2len best = best.
Proof.
  induction is_ as [ | i rest IH]; intro j2len; simpl; [ reflexivity | ].
  destruct (nth_error a (Z.to_nat i)) as [elt | ] eqn:E.
  - assert (J : Difflib.b2j b elt = []).
    { unfold Difflib.b2j. destruct (_ || _); [ reflexivity | ].
      apply indices_from_absent. apply no_common.
      eapply nth_error_In. exact E. }
    rewrite J. simpl. apply IH.
  - simpl. apply IH.
Qed.

Lemma extend_left_disjoint (alo blo : Z) (junk : bool) (n : nat)
    (best : Difflib.Match) :
  Difflib.extend_left a b alo blo junk n best = best.
Proof.
  destruct n, best as [[bi bj] bs]; simpl; [ reflexivity | ].
  now rewrite same_at_disjoint, andb_false_r.
Qed.

Lemma extend_right_disjoint (ahi bhi : Z) (junk : bool) (n : nat)
    (best : Difflib.Match) :
  Difflib.extend_right a b ahi bhi junk n best = best.
Proof.
  destruct n, best as [[bi bj] bs]; simpl; [ reflexivity | ].
  now rewrite same_at_disjoint, andb_false_r.
Qed.

Lemma find_longest_match_disjoint (alo ahi blo bhi : Z) :
  Difflib.find_longest_match a b alo ahi blo bhi = (alo, blo, 0%Z).
Proof.
  unfold Difflib.find_longest_match.
  repeat first [ rewrite extend_left_disjoint
               | rewrite extend_right_disjoint ].
  apply scan_rows_disjoint.
Qed.

(** No character in common: the terminating block is the only one. *)
Lemma get_matching_blocks_disjoint :
  Difflib.get_matching_blocks a b
  = Ok [(Difflib.la a, Difflib.lb b, 0%Z)].
Proof.
  unfold Difflib.get_matching_blocks, Difflib.blocks_fuel.
  replace (2 * length a + 1)%nat with (S (2 * length a)) by lia.
  cbn [Difflib.blocks_loop]. rewrite find_longest_match_disjoint.
  cbn [Z.eqb].
  replace (Difflib.blocks_loop a b (2 * length a) [] []) with (Ok (@nil Difflib.Match))
    by (destruct (2 * length a)%nat; reflexivity).
  reflexivity.
Qed.

Lemma ratio_disjoint : a <> [] -> Difflib.ratio a b = Ok 0%Q.
Proof.
  intro N. unfold Difflib.ratio. rewrite get_matching_blocks_disjoint.
  cbn [bind Difflib.sum_sizes fold_right]. unfold Difflib.size. cbn [snd].
  unfold Difflib._calculate_ratio.
  destruct (Z.eqb_spec (Difflib.la a + Difflib.lb b) 0) as [E | _].
  - unfold Difflib.la, Difflib.lb in E. destruct a; [ congruence | ].
    cbn [length] in E. lia.
  - cbn [Z.add]. change (fmul (lit 2 1) (float_of_int 0)) with 0%Q.
    unfold fdiv. rewrite rnd_zero; [ reflexivity | ].
    unfold Qdiv. ring.
Qed.

End Disjoint.

Lemma slice_In (s : str) (lo hi : Z) (c : ascii) :
  In c (PyFuzz.slice s lo hi) -> In c s.
Proof.
  unfold PyFuzz.slice. intro H.
  rewrite <- (firstn_skipn (Z.to_nat lo) s). apply in_or_app. right.
  match goal with H : In c (firstn ?n ?l) |- _ =>
    rewrite <- (firstn_skipn n l)
  end.
  apply in_or_app. now left.
Qed.

(** X2: two non-empty strings with no character in common have partial
    ratio 0: the only block is the terminating one and its window scores
    0.0. *)
Theorem partial_ratio_disjoint (s1 s2 : str) :
  s1 <> [] -> s2 <> [] -> disjoint s1 s2 ->
  PyFuzz.partial_ratio (PyStr s1) (PyStr s2) = Ok 0%Z.
Proof.
  intros N1 N2 D.
  assert (N : s1 <> s2).
  { intros <-. destruct s1 as [ | c t]; [ congruence | ].
    apply (D c); now left. }
  assert (D' : disjoint s2 s1) by (intros c H2 H1; exact (D c H1 H2)).
  assert (R : forall shorter longer, shorter <> [] -> disjoint shorter longer ->
              (blocks <- Difflib.get_matching_blocks shorter longer ;;
               PyFuzz.partial_loop shorter longer blocks []) = Ok 0%Z).
  { intros shorter longer Ns Dsl.
    rewrite (get_matching_blocks_disjoint shorter longer Dsl).
    cbn [bind PyFuzz.partial_loop].
    rewrite ratio_disjoint; [ reflexivity | | exact Ns ].
    intros c Hs Hw. apply slice_In in Hw. exact (Dsl c Hs Hw). }
  unfold PyFuzz.partial_ratio. rewrite guarded_body by assumption.
  cbn [make_type_consistent to_text].
  destruct (Z.of_nat (length s1) <=? Z.of_nat (length s2))%Z; now apply R.
Qed.

Lemma partial_ratio_disjoint_witness :
  PyFuzz.partial_ratio (py "abc") (py "xyzw") = Ok 0%Z.
Proof.
  apply (partial_ratio_disjoint (s_ "abc") (s_ "xyzw")); try discriminate.
  intros c H1 H2. simpl in H1, H2.
  repeat match goal with
  | H : _ \/ _ |- _ => destruct H
  | H : False |- _ => destruct H
  end; subst; discriminate.
Defined.

(* ================================================================== *)
(** * Further properties of the scorers *)

(** The public wrapper of a scorer of [_fuzz.py], on two strings. *)
Lemma public_of_private (f : scorer) (x y : str) :
  check_for_none (fun s1 s2 => Fuzz.rounded (Fuzz.as_num f) s1 s2)
    (PyStr x) (PyStr y)
  = f (PyStr x) (PyStr y).
Proof. cbn [check_for_none]. apply rounded_as_num. Qed.

(** ** [WRatio] against the base ratio *)

Lemma scale_le (n : num) (s u : Q) :
  0 <= to_float n <= u -> 0 <= s ->
  0 <= value (mul n (Float s)) <= rnd (u * s).
Proof.
  intros [L U] Hs.
  assert (E : mul n (Float s) = Float (fmul (to_float n) s))
    by (destruct n; reflexivity).
  rewrite E. unfold fmul. cbn [value].
  assert (0 <= to_float n * s) by nra.
  split; [ now apply rnd_nonneg | ].
  apply rnd_mono; [ assumption | nra ].
Qed.

Lemma scaled_caps :
  rnd (100 * lit 95 100) <= 95 /\ rnd (100 * lit 90 100) <= 90
  /\ rnd (100 * lit 6 10) <= 60 /\ rnd (95 * lit 90 100) <= 90
  /\ rnd (95 * lit 6 10) <= 60.
Proof. repeat split; apply Qle_bool_iff; vm_compute; reflexivity. Qed.

Lemma round_le (n : num) (K : Z) : value n <= inject_Z K -> (round n <= K)%Z.
Proof.
  destruct n as [z | f]; cbn [value round]; intro H.
  - now rewrite Zle_Qle.
  - now apply rhe_le_int.
Qed.

Lemma round_ge (n : num) (K : Z) : inject_Z K <= value n -> (K <= round n)%Z.
Proof.
  destruct n as [z | f]; cbn [value round]; intro H.
  - now rewrite Zle_Qle.
  - now apply rhe_ge_int.
Qed.

(** The rounded maximum of the base score and of numbers capped by [cap]
    lies between the base score and the larger of base score and cap. *)
Lemma round_max_between (base cap : Z) (l : list num) :
  Forall (fun n => value n <= inject_Z cap) l ->
  (base <= round (max_of (Int base) l) <= Z.max base cap)%Z.
Proof.
  intro F. split.
  - apply round_ge.
    destruct (max_of_is_max (Int base) l) as [_ M].
    apply (M (Int base)). now left.
  - apply round_le.
    apply (max_of_picks (fun n => value n <= inject_Z (Z.max base cap))).
    + cbn [value]. rewrite <- Zle_Qle. lia.
    + eapply Forall_impl; [ | exact F ]. cbn beta. intros n H.
      eapply Qle_trans; [ exact H | ]. rewrite <- Zle_Qle. lia.
Qed.

Lemma WRatio_between (s1 s2 : str) :
  s1 <> [] -> s2 <> [] ->
  exists base w : Z,
    PyFuzz.ratio (PyStr s1) (PyStr s2) = Ok base
    /\ PyFuzz.WRatio (PyStr s1) (PyStr s2) = Ok w
    /\ (0 <= base <= 100)%Z
    /\ (base <= w
        <= Z.max base
             (if Qltb (Spec.len_ratio s1 s2) (lit 15 10) then 95
              else if Qltb 8 (Spec.len_ratio s1 s2) then 60 else 90))%Z.
Proof.
  intros N1 N2. unfold PyFuzz.WRatio.
  rewrite (validate_nonempty s1 N1), (validate_nonempty s2 N2).
  cbn [negb].
  destruct (ratio_score s1 s2) as [base [-> Bb]].
  exists base.
  cbn [bind len to_float].
  change (lt (Float ?a) (Float ?b)) with (Qltb a b).
  fold (Spec.len_ratio s1 s2).
  change (gt (Float ?a) (Int 8)) with (Qltb 8 a).
  destruct scale_factors as [[F95 _] [[F90 _] [F6 _]]].
  destruct scaled_caps as [C95 [C90 [C60 [C90' C60']]]].
  assert (Sc : forall (n : Z) (s : Q) (c : Q),
             (0 <= n <= 100)%Z -> 0 <= s -> rnd (100 * s) <= c ->
             0 <= value (mul (Int n) (Float s)) <= c).
  { intros n s c Bn Hs Hc.
    destruct (scale_le (Int n) s 100
                (to_float_score (Int n) (int_score n Bn)) Hs) as [L U].
    split; [ exact L | ]. eapply Qle_trans; [ exact U | exact Hc ]. }
  assert (Sc2 : forall (n : Z) (s : Q) (c : Q),
             (0 <= n <= 100)%Z -> 0 <= s -> rnd (95 * s) <= c ->
             value (mul (mul (Int n) (Float (lit 95 100))) (Float s)) <= c).
  { intros n s c Bn Hs Hc.
    pose proof (Sc n (lit 95 100) 95 Bn F95 C95) as B.
    destruct (mul (Int n) (Float (lit 95 100))) as [z | f] eqn:E;
      [ discriminate | ].
    destruct (scale_le (Float f) s 95 B Hs) as [_ U].
    eapply Qle_trans; [ exact U | exact Hc ]. }
  destruct (Qltb (Spec.len_ratio s1 s2) (lit 15 10)).
  - destruct (token_sort_score s1 s2 false) as [tsr [Et Bt]].
    destruct (token_set_score s1 s2 false) as [tse [Ee Be]].
    unfold PyFuzz.token_sort_ratio, PyFuzz.token_set_ratio.
    rewrite Et, Ee. cbn [bind].
    eexists. split; [ reflexivity | ]. split; [ reflexivity | ].
    split; [ exact Bb | ].
    unfold intr. apply round_max_between.
    constructor; [ exact (proj2 (Sc tsr _ _ Bt F95 C95)) | ].
    constructor; [ exact (proj2 (Sc tse _ _ Be F95 C95)) | constructor ].
  - destruct (partial_ratio_score s1 s2) as [pr [Ep Bp]].
    destruct (token_sort_score s1 s2 true) as [tsr [Et Bt]].
    destruct (token_set_score s1 s2 true) as [tse [Ee Be]].
    unfold PyFuzz.partial_token_sort_ratio, PyFuzz.partial_token_set_ratio.
    rewrite Ep, Et, Ee. cbn [bind].
    destruct (Qltb 8 (Spec.len_ratio s1 s2)).
    + eexists. split; [ reflexivity | ]. split; [ reflexivity | ].
    split; [ exact Bb | ].
      unfold intr. apply round_max_between.
      constructor; [ exact (proj2 (Sc pr _ _ Bp F6 C60)) | ].
      constructor; [ exact (Sc2 tsr _ _ Bt F6 C60') | ].
      constructor; [ exact (Sc2 tse _ _ Be F6 C60') | constructor ].
    + eexists. split; [ reflexivity | ]. split; [ reflexivity | ].
    split; [ exact Bb | ].
      unfold intr. apply round_max_between.
      constructor; [ exact (proj2 (Sc pr _ _ Bp F90 C90)) | ].
      constructor; [ exact (Sc2 tsr _ _ Bt F90 C90') | ].
      constructor; [ exact (Sc2 tse _ _ Be F90 C90') | constructor ].
Qed.

(** ** The length ratio of [WRatio] in integers *)

Lemma fdiv_ints (M m : Z) :
  (0 < m <= M)%Z -> (M < 2 ^ 49)%Z ->
  fdiv (float_of_int M) (float_of_int m) = rnd (inject_Z M / inject_Z m)
  /\ 0 <= inject_Z M / inject_Z m.
Proof.
  intros B U.
  assert (Em : float_of_int m == inject_Z m)
    by (apply float_of_int_small; unfold prec; lia).
  assert (EM : float_of_int M == inject_Z M)
    by (apply float_of_int_small; unfold prec; lia).
  assert (Pm : 0 < inject_Z m)
    by (change 0 with (inject_Z 0); rewrite <- Zlt_Qlt; lia).
  assert (PM : 0 <= inject_Z M)
    by (change 0 with (inject_Z 0); rewrite <- Zle_Qle; lia).
  assert (P : 0 <= inject_Z M / inject_Z m).
  { apply Qle_shift_div_l; [ exact Pm | ]. lra. }
  split; [ | exact P ].
  unfold fdiv. symmetry. apply rnd_comp; [ exact P | ].
  now rewrite Em, EM.
Qed.

Lemma below_three_halves_is_float :
  is_float (6755399441055743 # 4503599627370496).
Proof.
  right. exists 6755399441055743%Z, (-52)%Z.
  split; [ unfold prec; lia | vm_compute; reflexivity ].
Qed.

Lemma three_halves_is_float : is_float (3 # 2).
Proof.
  right. exists 3%Z, (-1)%Z.
  split; [ unfold prec; lia | vm_compute; reflexivity ].
Qed.

Lemma eight_is_float : is_float 8.
Proof. apply (int_is_float 8). unfold prec. lia. Qed.

Lemma above_eight_is_float :
  is_float (4503599627370497 # 562949953421312).
Proof.
  right. exists 4503599627370497%Z, (-49)%Z.
  split; [ unfold prec; lia | vm_compute; reflexivity ].
Qed.

(** For lengths below [2^49] the float tests of [WRatio] on the length
    ratio are the integer tests [2 * hi < 3 * lo] and [hi > 8 * lo]. *)
Lemma len_ratio_tests (s1 s2 : str) :
  s1 <> [] -> s2 <> [] ->
  (Z.of_nat (length s1) < 2 ^ 49)%Z -> (Z.of_nat (length s2) < 2 ^ 49)%Z ->
  let lo := Z.min (Z.of_nat (length s1)) (Z.of_nat (length s2)) in
  let hi := Z.max (Z.of_nat (length s1)) (Z.of_nat (length s2)) in
  Qltb (Spec.len_ratio s1 s2) (lit 15 10) = (2 * hi <? 3 * lo)%Z
  /\ Qltb 8 (Spec.len_ratio s1 s2) = (8 * lo <? hi)%Z.
Proof.
  intros N1 N2 U1 U2 lo hi.
  assert (P1 : (0 < Z.of_nat (length s1))%Z)
    by (destruct s1; [ congruence | cbn [length]; lia ]).
  assert (P2 : (0 < Z.of_nat (length s2))%Z)
    by (destruct s2; [ congruence | cbn [length]; lia ]).
  assert (B : (0 < lo <= hi)%Z) by (unfold lo, hi; lia).
  assert (U : (hi < 2 ^ 49)%Z) by (unfold hi; lia).
  unfold Spec.len_ratio. fold lo hi.
  destruct (fdiv_ints hi lo B U) as [-> P].
  assert (Pm : 0 < inject_Z lo)
    by (change 0 with (inject_Z 0); rewrite <- Zlt_Qlt; lia).
  assert (L : lit 15 10 == 3 # 2) by (vm_compute; reflexivity).
  clearbody lo hi. split.
  - destruct (Z.ltb_spec (2 * hi) (3 * lo)) as [H | H].
    + apply Qltb_spec. rewrite L.
      apply Qle_lt_trans with (6755399441055743 # 4503599627370496);
        [ | reflexivity ].
      apply rnd_le_float;
        [ exact P | exact below_three_halves_is_float | ].
      apply Qle_shift_div_r; [ exact Pm | ].
      unfold Qle, Qmult, inject_Z. cbn [Qnum Qden]. lia.
    + apply Qltb_false. rewrite L.
      apply rnd_ge_float; [ exact three_halves_is_float | | discriminate ].
      apply Qle_shift_div_l; [ exact Pm | ].
      unfold Qle, Qmult, inject_Z. cbn [Qnum Qden]. lia.
  - destruct (Z.ltb_spec (8 * lo) hi) as [H | H].
    + apply Qltb_spec.
      apply Qlt_le_trans with (4503599627370497 # 562949953421312);
        [ reflexivity | ].
      apply rnd_ge_float; [ exact above_eight_is_float | | discriminate ].
      apply Qle_shift_div_l; [ exact Pm | ].
      unfold Qle, Qmult, inject_Z. cbn [Qnum Qden]. lia.
    + apply Qltb_false.
      apply rnd_le_float; [ exact P | exact eight_is_float | ].
      apply Qle_shift_div_r; [ exact Pm | ].
      unfold Qle, Qmult, inject_Z. cbn [Qnum Qden]. lia.
Qed.

(** X3: whatever the inputs and flags, the public [QRatio] and [WRatio]
    both return, and [WRatio] is never below [QRatio]: the base ratio is
    one of the numbers [WRatio] takes the maximum of. *)
Theorem WRatio_at_least_QRatio (o1 o2 : pyobj)
    (force_ascii full_process : bool) :
  exists q w : Z,
    Fuzz.QRatio Fuzz.pure_python o1 o2 force_ascii full_process = Ok q
    /\ Fuzz.WRatio Fuzz.pure_python o1 o2 force_ascii full_process = Ok w
    /\ (q <= w)%Z.
Proof.
  unfold Fuzz.QRatio, Fuzz.WRatio.
  generalize (Fuzz.preprocess o1 force_ascii full_process) as p1.
  generalize (Fuzz.preprocess o2 force_ascii full_process) as p2.
  intros p2 p1. cbn [Fuzz._WRatio Fuzz.pure_python].
  rewrite rounded_as_num.
  assert (Z0 : exists q w : Z, Ok 0%Z = Ok q /\ Ok 0%Z = Ok w /\ (q <= w)%Z)
    by (exists 0%Z, 0%Z; repeat split; lia).
  destruct (validate_string p1) eqn:V1;
    [ | unfold PyFuzz.WRatio; rewrite V1; exact Z0 ].
  destruct (validate_string p2) eqn:V2;
    [ | unfold PyFuzz.WRatio; rewrite V1, V2; exact Z0 ].
  destruct p1 as [ | x]; [ discriminate | ].
  destruct p2 as [ | y]; [ discriminate | ].
  assert (Nx : x <> []) by (intros ->; discriminate).
  assert (Ny : y <> []) by (intros ->; discriminate).
  cbn [negb]. unfold Fuzz.ratio. cbn [Fuzz._ratio Fuzz.pure_python].
  cbn [check_for_none]. rewrite rounded_as_num.
  destruct (WRatio_between x y Nx Ny) as [base [w [-> [-> [_ [B _]]]]]].
  exists base, w. repeat split. exact B.
Qed.

(** X4: on two non-empty strings [WRatio] returns 100 exactly when [ratio]
    does: every other score it considers is scaled by 0.95 or less. *)
Theorem WRatio_full_score (s1 s2 : str) :
  s1 <> [] -> s2 <> [] ->
  (PyFuzz.WRatio (PyStr s1) (PyStr s2) = Ok 100%Z
   <-> PyFuzz.ratio (PyStr s1) (PyStr s2) = Ok 100%Z).
Proof.
  intros N1 N2.
  destruct (WRatio_between s1 s2 N1 N2) as [base [w [-> [-> [Bb [L U]]]]]].
  assert (C : (w <= Z.max base 95)%Z).
  { destruct (Qltb (Spec.len_ratio s1 s2) (lit 15 10)); [ exact U | ].
    destruct (Qltb 8 (Spec.len_ratio s1 s2)); lia. }
  split; intro H; injection H as H; f_equal; lia.
Qed.

Lemma WRatio_full_score_witness :
  PyFuzz.WRatio (py "new york mets") (py "new york mets") = Ok 100%Z.
Proof.
  apply (WRatio_full_score (s_ "new york mets") (s_ "new york mets"));
    try discriminate.
  unfold PyFuzz.ratio. apply guarded_equal.
Defined.

(** X5: on two non-empty strings [WRatio] is at most the larger of the
    base ratio and the cap of its branch: 95 when the longer string is less
    than 1.5 times the shorter, 60 when it is more than 8 times the
    shorter, 90 in between.  The branch is read off the integer lengths,
    which the float tests of the code agree with below [2^49]
    characters. *)
Theorem WRatio_capped (s1 s2 : str) :
  s1 <> [] -> s2 <> [] ->
  (Z.of_nat (length s1) < 2 ^ 49)%Z -> (Z.of_nat (length s2) < 2 ^ 49)%Z ->
  exists base w : Z,
    PyFuzz.ratio (PyStr s1) (PyStr s2) = Ok base
    /\ PyFuzz.WRatio (PyStr s1) (PyStr s2) = Ok w
    /\ (w <= Z.max base
               (WRatio_cap (Z.of_nat (length s1)) (Z.of_nat (length s2))))%Z.
Proof.
  intros N1 N2 U1 U2.
  destruct (WRatio_between s1 s2 N1 N2) as [base [w [Eb [Ew [_ [_ U]]]]]].
  destruct (len_ratio_tests s1 s2 N1 N2 U1 U2) as [T1 T2].
  exists base, w. split; [ exact Eb | ]. split; [ exact Ew | ].
  unfold WRatio_cap. cbv zeta. now rewrite <- T1, <- T2.
Qed.

Lemma WRatio_capped_witness :
  exists base w : Z,
    PyFuzz.ratio (py "mets") (py "new york mets") = Ok base
    /\ PyFuzz.WRatio (py "mets") (py "new york mets") = Ok w
    /\ (w <= Z.max base 90)%Z.
Proof.
  apply (WRatio_capped (s_ "mets") (s_ "new york mets"));
    try discriminate; cbn [length s_]; vm_compute; reflexivity.
Defined.

(** ** Sorting tokens *)

Lemma str_leb_total (x y : str) : str_leb x y = true \/ str_leb y x = true.
Proof.
  revert y. induction x as [ | c x IH]; intros [ | d y]; simpl; auto.
  destruct (Nat.ltb_spec (nat_of_ascii c) (nat_of_ascii d));
    destruct (Nat.ltb_spec (nat_of_ascii d) (nat_of_ascii c)); auto; lia.
Qed.

Lemma str_leb_antisym (x y : str) :
  str_leb x y = true -> str_leb y x = true -> x = y.
Proof.
  revert y. induction x as [ | c x IH]; intros [ | d y]; simpl;
    try discriminate; auto.
  destruct (Nat.ltb_spec (nat_of_ascii c) (nat_of_ascii d));
    destruct (Nat.ltb_spec (nat_of_ascii d) (nat_of_ascii c));
    try discriminate; try lia.
  intros H1 H2. f_equal; [ | now apply IH ].
  rewrite <- (ascii_nat_embedding c), <- (ascii_nat_embedding d).
  f_equal. lia.
Qed.

Lemma str_leb_trans (x y z : str) :
  str_leb x y = true -> str_leb y z = true -> str_leb x z = true.
Proof.
  revert y z. induction x as [ | c x IH]; intros [ | d y] [ | e z]; simpl;
    try discriminate; auto.
  destruct (Nat.ltb_spec (nat_of_ascii c) (nat_of_ascii d));
    destruct (Nat.ltb_spec (nat_of_ascii d) (nat_of_ascii c));
    destruct (Nat.ltb_spec (nat_of_ascii d) (nat_of_ascii e));
    destruct (Nat.ltb_spec (nat_of_ascii e) (nat_of_ascii d));
    destruct (Nat.ltb_spec (nat_of_ascii c) (nat_of_ascii e));
    destruct (Nat.ltb_spec (nat_of_ascii e) (nat_of_ascii c));
    try discriminate; try lia; auto.
  apply IH.
Qed.

Lemma insert_sorted_perm (x : str) (l : list str) :
  Permutation (insert_sorted str_leb x l) (x :: l).
Proof.
  induction l as [ | y l IH]; simpl; [ reflexivity | ].
  destruct (str_leb x y); [ reflexivity | ].
  rewrite IH. apply perm_swap.
Qed.

Lemma sorted_perm (l : list str) : Permutation (sorted str_leb l) l.
Proof.
  induction l as [ | x l IH]; simpl; [ reflexivity | ].
  rewrite insert_sorted_perm. now constructor.
Qed.

Lemma insert_sorted_ordered (x : str) (l : list str) :
  StronglySorted str_le l -> StronglySorted str_le (insert_sorted str_leb x l).
Proof.
  induction 1 as [ | y l S IH F]; simpl.
  - repeat constructor.
  - destruct (str_leb x y) eqn:E.
    + constructor; [ now constructor | ].
      constructor; [ exact E | ].
      rewrite Forall_forall in *. intros z Hz.
      eapply str_leb_trans; [ exact E | now apply F ].
    + constructor; [ exact IH | ].
      assert (Hyx : str_le y x) by (destruct (str_leb_total x y); congruence).
      apply Forall_forall. intros z Hz.
      apply (Permutation_in _ (insert_sorted_perm x l)) in Hz.
      destruct Hz as [<- | Hz]; [ exact Hyx | ].
      rewrite Forall_forall in F. now apply F.
Qed.

Lemma sorted_ordered (l : list str) : StronglySorted str_le (sorted str_leb l).
Proof.
  induction l as [ | x l IH]; simpl; [ constructor | ].
  now apply insert_sorted_ordered.
Qed.

(** Two ordered lists with the same members, counted, are the same list. *)
Lemma ordered_unique (l l' : list str) :
  StronglySorted str_le l -> StronglySorted str_le l' ->
  Permutation l l' -> l = l'.
Proof.
  intros S. revert l'. induction S as [ | x l S IH F]; intros l' S' P.
  - apply Permutation_nil in P. now subst.
  - destruct S' as [ | y l' S' F'].
    + apply Permutation_sym, Permutation_nil in P. discriminate.
    + assert (E : x = y).
      { rewrite Forall_forall in F, F'.
        assert (Hx : In x (y :: l'))
          by (apply (Permutation_in _ P); now left).
        assert (Hy : In y (x :: l))
          by (apply (Permutation_in _ (Permutation_sym P)); now left).
        destruct Hx as [-> | Hx]; [ reflexivity | ].
        destruct Hy as [-> | Hy]; [ reflexivity | ].
        apply str_leb_antisym; [ now apply F | now apply F' ]. }
      subst y. f_equal. apply IH; [ exact S' | ].
      now apply Permutation_cons_inv in P.
Qed.

(** [sorted] depends on the members only, not on their order. *)
Lemma sorted_permutation (l l' : list str) :
  Permutation l l' -> sorted str_leb l = sorted str_leb l'.
Proof.
  intro P. apply ordered_unique; try apply sorted_ordered.
  rewrite !sorted_perm. exact P.
Qed.

Lemma sorted_idempotent (l : list str) :
  sorted str_leb (sorted str_leb l) = sorted str_leb l.
Proof.
  apply ordered_unique; try apply sorted_ordered. apply sorted_perm.
Qed.

(** ** Splitting what was joined *)

Lemma split_from_token (t s cur : str) :
  forallb (fun c => negb (is_space c)) t = true ->
  split_from cur (t ++ s) = split_from (rev t ++ cur) s.
Proof.
  revert cur. induction t as [ | c t IH]; intros cur H; [ reflexivity | ].
  simpl in H. apply andb_prop in H. destruct H as [Hc Ht].
  apply negb_true_iff in Hc. cbn [app split_from]. rewrite Hc.
  rewrite (IH _ Ht). cbn [rev]. now rewrite <- app_assoc.
Qed.

Lemma rev_nonempty (t : str) : t <> [] -> rev t <> [].
Proof.
  intros N E. apply N. rewrite <- (rev_involutive t), E. reflexivity.
Qed.

(** [' '.join(tokens).split() == tokens] *)
Lemma split_join (l : list str) :
  Forall token l -> split (join [space] l) = l.
Proof.
  induction 1 as [ | t l [Tn Tc] Hl IH]; [ reflexivity | ].
  unfold split in *. destruct l as [ | u l'].
  - cbn [join]. rewrite <- (app_nil_r t) at 1.
    rewrite (split_from_token _ _ _ Tc), app_nil_r. cbn [split_from].
    pose proof (rev_nonempty t Tn) as R.
    destruct (rev t) eqn:E; [ congruence | ].
    rewrite <- E. now rewrite rev_involutive.
  - change (join [space] (t :: u :: l'))
      with (t ++ space :: join [space] (u :: l')).
    rewrite (split_from_token _ _ _ Tc), app_nil_r.
    cbn [split_from]. change (is_space space) with true. cbv iota.
    pose proof (rev_nonempty t Tn) as R.
    destruct (rev t) eqn:E; [ congruence | ].
    rewrite <- E, rev_involutive. now rewrite IH.
Qed.

Lemma sort_tokens_value (s : str) :
  PyFuzz._sort_tokens (PyStr s) = Ok (join [space] (sorted str_leb (split s))).
Proof.
  unfold PyFuzz._sort_tokens. cbn [as_str bind]. f_equal.
  apply strip_join_tokens, sorted_Forall, split_tokens.
Qed.

Lemma sort_tokens_permutation (s s' : str) :
  Permutation (split s) (split s') ->
  PyFuzz._sort_tokens (PyStr s) = PyFuzz._sort_tokens (PyStr s').
Proof.
  intro P. rewrite !sort_tokens_value. now rewrite (sorted_permutation _ _ P).
Qed.

(** ** Membership in token sets *)

Lemma mem_In (x : str) (l : list str) : mem x l = true <-> In x l.
Proof.
  unfold mem. rewrite existsb_exists. split.
  - intros [y [Hy E]]. apply str_eqb_eq in E. now subst.
  - intro H. exists x. split; [ exact H | apply str_eqb_refl ].
Qed.

Lemma mem_same (x : str) (l l' : list str) :
  (forall t, In t l <-> In t l') -> mem x l = mem x l'.
Proof.
  intro H. destruct (mem x l') eqn:E.
  - apply mem_In. apply H. now apply mem_In.
  - destruct (mem x l) eqn:E'; [ | reflexivity ].
    apply mem_In, H, mem_In in E'. congruence.
Qed.

Lemma filter_same (f g : str -> bool) (l : list str) :
  (forall x, f x = g x) -> filter f l = filter g l.
Proof. intro H. apply filter_ext. exact H. Qed.

Lemma set_of_same (l l' : list str) :
  (forall t, In t l <-> In t l') -> Permutation (set_of l) (set_of l').
Proof.
  intro H. apply NoDup_Permutation; try apply NoDup_nodup.
  intro t. unfold set_of. rewrite !nodup_In. apply H.
Qed.

Lemma filter_permutation (f : str -> bool) (l l' : list str) :
  Permutation l l' -> Permutation (filter f l) (filter f l').
Proof.
  induction 1 as [ | x l l' P IH | x y l | l l' l'' P1 IH1 P2 IH2]; simpl.
  - constructor.
  - destruct (f x); [ now constructor | exact IH ].
  - destruct (f x), (f y); try reflexivity. apply perm_swap.
  - now transitivity (filter f l').
Qed.

Lemma intersection_same (l1 l1' l2 l2' : list str) :
  (forall t, In t l1 <-> In t l1') -> (forall t, In t l2 <-> In t l2') ->
  sorted str_leb (intersection (set_of l1) (set_of l2))
  = sorted str_leb (intersection (set_of l1') (set_of l2')).
Proof.
  intros H1 H2. apply sorted_permutation. unfold intersection.
  rewrite (filter_same (fun x => mem x (set_of l2))
             (fun x => mem x (set_of l2'))).
  - apply filter_permutation, set_of_same, H1.
  - intro x. apply mem_same. intro t. unfold set_of.
    rewrite !nodup_In. apply H2.
Qed.

Lemma difference_same (l1 l1' l2 l2' : list str) :
  (forall t, In t l1 <-> In t l1') -> (forall t, In t l2 <-> In t l2') ->
  sorted str_leb (difference (set_of l1) (set_of l2))
  = sorted str_leb (difference (set_of l1') (set_of l2')).
Proof.
  intros H1 H2. apply sorted_permutation. unfold difference.
  rewrite (filter_same (fun x => negb (mem x (set_of l2)))
             (fun x => negb (mem x (set_of l2')))).
  - apply filter_permutation, set_of_same, H1.
  - intro x. f_equal. apply mem_same. intro t. unfold set_of.
    rewrite !nodup_In. apply H2.
Qed.

Lemma difference_incl (l1 l2 : list str) :
  incl l1 l2 -> difference (set_of l1) (set_of l2) = [].
Proof.
  intro H. unfold difference.
  assert (F : forall l, (forall x, In x l -> In x l2) ->
                        filter (fun x => negb (mem x (set_of l2))) l = []).
  { induction l as [ | x l IH]; intro Hl; [ reflexivity | ]. simpl.
    assert (M : mem x (set_of l2) = true).
    { apply mem_In. unfold set_of. apply nodup_In. apply Hl. now left. }
    rewrite M. simpl. apply IH. intros y Hy. apply Hl. now right. }
  apply F. intros x Hx. unfold set_of in Hx. apply nodup_In in Hx.
  now apply H.
Qed.

(** A trimmed string followed by one space and nothing else trims back to
    itself. *)
Lemma strip_trailing_space (x : str) :
  trimmed x -> strip (x ++ [space] ++ []) = x.
Proof.
  intros [H1 H2]. cbn [app]. unfold strip, rstrip.
  destruct x as [ | c t]; [ reflexivity | ].
  assert (L : lstrip ((c :: t) ++ [space]) = (c :: t) ++ [space])
    by (apply lstrip_clean; exact H1).
  rewrite L, rev_app_distr.
  change (lstrip (rev [space] ++ rev (c :: t)))
    with (lstrip (rev (c :: t))).
  rewrite (lstrip_clean _ H2). apply rev_involutive.
Qed.

(** X6: [_sort_tokens] returns the tokens of its argument in ascending
    order, separated by single spaces: splitting the result gives back a
    sorted permutation of the tokens, joining them gives the result, and
    sorting the result again changes nothing. *)
Theorem sort_tokens_normal_form (s : str) :
  exists x : str,
    PyFuzz._sort_tokens (PyStr s) = Ok x
    /\ Permutation (split x) (split s)
    /\ StronglySorted str_le (split x)
    /\ x = join [space] (split x)
    /\ PyFuzz._sort_tokens (PyStr x) = Ok x.
Proof.
  exists (join [space] (sorted str_leb (split s))).
  assert (T : Forall token (sorted str_leb (split s)))
    by apply sorted_Forall, split_tokens.
  assert (E : split (join [space] (sorted str_leb (split s)))
              = sorted str_leb (split s)) by now apply split_join.
  split; [ apply sort_tokens_value | ].
  split; [ rewrite E; apply sorted_perm | ].
  split; [ rewrite E; apply sorted_ordered | ].
  split; [ now rewrite E | ].
  rewrite sort_tokens_value, E. now rewrite sorted_idempotent.
Qed.

(** X7: [_token_sort] depends only on which tokens each string has and
    how often, not on their order or on the whitespace between them. *)
Theorem token_sort_ignores_order (s1 s2 t1 t2 : str) (partial : bool) :
  Permutation (split s1) (split t1) -> Permutation (split s2) (split t2) ->
  PyFuzz._token_sort (PyStr s1) (PyStr s2) partial
  = PyFuzz._token_sort (PyStr t1) (PyStr t2) partial.
Proof.
  intros P1 P2. unfold PyFuzz._token_sort.
  rewrite (sort_tokens_permutation s1 t1 P1).
  rewrite (sort_tokens_permutation s2 t2 P2). reflexivity.
Qed.

Lemma token_sort_ignores_order_witness :
  PyFuzz._token_sort (py "new york mets") (py "atlanta braves") false
  = PyFuzz._token_sort (py "mets new york") (py "braves atlanta") false.
Proof.
  apply (token_sort_ignores_order (s_ "new york mets") (s_ "atlanta braves")
           (s_ "mets new york") (s_ "braves atlanta") false).
  - vm_compute. apply Permutation_sym, (Permutation_cons_append [_ ; _]).
  - vm_compute. apply perm_swap.
Defined.

(** X8: two strings with the same tokens, counted, in any order, score
    100 with [token_sort_ratio] and [partial_token_sort_ratio]; so do the
    public scorers on strings that preprocess to such strings. *)
Theorem token_sort_same_tokens (s1 s2 : str) :
  Permutation (split s1) (split s2) ->
  PyFuzz.token_sort_ratio (PyStr s1) (PyStr s2) = Ok 100%Z
  /\ PyFuzz.partial_token_sort_ratio (PyStr s1) (PyStr s2) = Ok 100%Z
  /\ (forall (a b : str) (force_ascii full_process : bool),
        Fuzz.preprocess (PyStr a) force_ascii full_process = PyStr s1 ->
        Fuzz.preprocess (PyStr b) force_ascii full_process = PyStr s2 ->
        Fuzz.token_sort_ratio Fuzz.pure_python (PyStr a) (PyStr b)
          force_ascii full_process = Ok 100%Z
        /\ Fuzz.partial_token_sort_ratio Fuzz.pure_python (PyStr a) (PyStr b)
             force_ascii full_process = Ok 100%Z).
Proof.
  intro P.
  assert (R : forall partial,
             PyFuzz._token_sort (PyStr s1) (PyStr s2) partial = Ok 100%Z).
  { intro partial. unfold PyFuzz._token_sort.
    rewrite (sort_tokens_permutation s1 s2 P), sort_tokens_value.
    cbn [bind]. destruct partial; unfold PyFuzz.partial_ratio, PyFuzz.ratio;
      apply guarded_equal. }
  split; [ exact (R false) | ]. split; [ exact (R true) | ].
  intros a b fa fp E1 E2.
  unfold Fuzz.token_sort_ratio, Fuzz.partial_token_sort_ratio.
  cbn [check_for_none]. rewrite E1, E2.
  cbn [Fuzz._token_sort_ratio Fuzz._partial_token_sort_ratio
         Fuzz.pure_python].
  rewrite !rounded_as_num. split; [ exact (R false) | exact (R true) ].
Qed.

Lemma token_sort_same_tokens_witness :
  PyFuzz.token_sort_ratio (py "fuzzy wuzzy was a bear")
    (py "wuzzy fuzzy was a bear") = Ok 100%Z.
Proof.
  apply (token_sort_same_tokens (s_ "fuzzy wuzzy was a bear")
           (s_ "wuzzy fuzzy was a bear")).
  vm_compute. apply perm_swap.
Defined.

Lemma ratio_func_equal (partial : bool) (x : str) :
  (if partial then PyFuzz.partial_ratio else PyFuzz.ratio) (PyStr x) (PyStr x)
  = Ok 100%Z.
Proof.
  destruct partial; unfold PyFuzz.partial_ratio, PyFuzz.ratio;
    apply guarded_equal.
Qed.

Lemma token_set_covered (s1 s2 : str) (partial : bool) :
  s1 <> [] -> s2 <> [] ->
  incl (split s1) (split s2) \/ incl (split s2) (split s1) ->
  PyFuzz._token_set (PyStr s1) (PyStr s2) partial = Ok 100%Z.
Proof.
  intros N1 N2 H. unfold PyFuzz._token_set.
  destruct (py_eq (PyStr s1) (PyStr s2)); [ reflexivity | ].
  rewrite (validate_nonempty s1 N1), (validate_nonempty s2 N2).
  cbn [negb as_str bind]. rewrite !sect_trimmed.
  set (sect := join [space] (sorted str_leb
                 (intersection (set_of (split s1)) (set_of (split s2))))).
  assert (T : trimmed sect).
  { apply join_tokens_trimmed, sorted_Forall, filter_tokens, set_tokens. }
  destruct H as [H | H].
  - rewrite (difference_incl _ _ H).
    change (join [space] (sorted str_leb [])) with (@nil ascii).
    rewrite (strip_trailing_space sect T), ratio_func_equal. cbn [bind].
    match goal with |- context [strip ?c] => generalize (strip c) end.
    intro c.
    destruct (ratio_func_score partial sect c) as [p [-> B]]. cbn [bind].
    rewrite max_scores_3. f_equal. lia.
  - rewrite (difference_incl _ _ H).
    change (join [space] (sorted str_leb [])) with (@nil ascii).
    rewrite (strip_trailing_space sect T).
    match goal with |- context [strip ?c] => generalize (strip c) end.
    intro c.
    destruct (ratio_func_score partial sect c) as [p [-> B]].
    rewrite ratio_func_equal. cbn [bind].
    destruct (ratio_func_score partial c sect) as [q [-> B']]. cbn [bind].
    rewrite max_scores_3. f_equal. lia.
Qed.

(** X9: on non-empty strings [_token_set] depends only on the set of
    tokens of each string: order, repetition and the whitespace between
    tokens do not change the score. *)
Theorem token_set_ignores_order_and_repeats (s1 s2 t1 t2 : str)
    (partial : bool) :
  s1 <> [] -> s2 <> [] -> t1 <> [] -> t2 <> [] ->
  (forall t, In t (split s1) <-> In t (split t1)) ->
  (forall t, In t (split s2) <-> In t (split t2)) ->
  PyFuzz._token_set (PyStr s1) (PyStr s2) partial
  = PyFuzz._token_set (PyStr t1) (PyStr t2) partial.
Proof.
  intros N1 N2 M1 M2 H1 H2.
  destruct (list_eq_dec ascii_dec s1 s2) as [E | N].
  { rewrite (token_set_covered s1 s2 partial N1 N2)
      by (left; subst; apply incl_refl).
    symmetry. apply token_set_covered; try assumption.
    left. intros t Ht. apply H2. subst s2. now apply H1. }
  destruct (list_eq_dec ascii_dec t1 t2) as [E | N'].
  { rewrite (token_set_covered t1 t2 partial M1 M2)
      by (left; subst; apply incl_refl).
    apply token_set_covered; try assumption.
    left. intros t Ht. apply H2. subst t2. now apply H1. }
  unfold PyFuzz._token_set. cbn [py_eq].
  rewrite (str_eqb_neq _ _ N), (str_eqb_neq _ _ N').
  rewrite (validate_nonempty s1 N1), (validate_nonempty s2 N2).
  rewrite (validate_nonempty t1 M1), (validate_nonempty t2 M2).
  cbn [negb as_str bind].
  rewrite (intersection_same _ _ _ _ H1 H2).
  rewrite (difference_same _ _ _ _ H1 H2).
  rewrite (difference_same _ _ _ _ H2 H1).
  reflexivity.
Qed.

Lemma token_set_ignores_order_and_repeats_witness :
  PyFuzz._token_set (py "new york new york") (py "mets vs braves") false
  = PyFuzz._token_set (py "york new") (py "braves vs mets vs") false.
Proof.
  apply (token_set_ignores_order_and_repeats (s_ "new york new york")
           (s_ "mets vs braves") (s_ "york new") (s_ "braves vs mets vs")
           false); try discriminate.
  - intro t. vm_compute. tauto.
  - intro t. vm_compute. tauto.
Defined.

(** X10: when every token of one non-empty string is a token of the
    other, [token_set_ratio] and [partial_token_set_ratio] return 100: the
    intersection then equals one of the combined strings.  This includes a
    non-empty string without any token, against any non-empty string.  The
    public scorers return 100 on strings that preprocess to such
    strings. *)
Theorem token_set_covered_scores_100 (s1 s2 : str) :
  s1 <> [] -> s2 <> [] ->
  incl (split s1) (split s2) \/ incl (split s2) (split s1) ->
  PyFuzz.token_set_ratio (PyStr s1) (PyStr s2) = Ok 100%Z
  /\ PyFuzz.partial_token_set_ratio (PyStr s1) (PyStr s2) = Ok 100%Z
  /\ (forall (a b : str) (force_ascii full_process : bool),
        Fuzz.preprocess (PyStr a) force_ascii full_process = PyStr s1 ->
        Fuzz.preprocess (PyStr b) force_ascii full_process = PyStr s2 ->
        Fuzz.token_set_ratio Fuzz.pure_python (PyStr a) (PyStr b)
          force_ascii full_process = Ok 100%Z
        /\ Fuzz.partial_token_set_ratio Fuzz.pure_python (PyStr a) (PyStr b)
             force_ascii full_process = Ok 100%Z).
Proof.
  intros N1 N2 H.
  pose proof (token_set_covered s1 s2 false N1 N2 H) as R.
  pose proof (token_set_covered s1 s2 true N1 N2 H) as R'.
  split; [ exact R | ]. split; [ exact R' | ].
  intros a b fa fp E1 E2.
  unfold Fuzz.token_set_ratio, Fuzz.partial_token_set_ratio.
  cbn [check_for_none]. rewrite E1, E2.
  cbn [Fuzz._token_set_ratio Fuzz._partial_token_set_ratio Fuzz.pure_python].
  rewrite !rounded_as_num. split; [ exact R | exact R' ].
Qed.

Lemma token_set_covered_scores_100_witness :
  PyFuzz.token_set_ratio (py "fuzzy was a bear") (py "fuzzy fuzzy was a bear")
  = Ok 100%Z.
Proof.
  apply (token_set_covered_scores_100 (s_ "fuzzy was a bear")
           (s_ "fuzzy fuzzy was a bear")); try discriminate.
  left. intros t. vm_compute. tauto.
Defined.

(** ** Token sets without a common token *)

Lemma filter_none (f : str -> bool) (l : list str) :
  (forall x, In x l -> f x = false) -> filter f l = [].
Proof.
  induction l as [ | x l IH]; intro H; [ reflexivity | ]. simpl.
  rewrite (H x) by now left. apply IH. intros y Hy. apply H. now right.
Qed.

Lemma filter_all (f : str -> bool) (l : list str) :
  (forall x, In x l -> f x = true) -> filter f l = l.
Proof.
  induction l as [ | x l IH]; intro H; [ reflexivity | ]. simpl.
  rewrite (H x) by now left. f_equal. apply IH. intros y Hy. apply H.
  now right.
Qed.

Lemma mem_absent (x : str) (l : list str) : ~ In x l -> mem x l = false.
Proof.
  intro H. destruct (mem x l) eqn:E; [ | reflexivity ].
  apply mem_In in E. contradiction.
Qed.

Lemma strip_leading_space (x : str) :
  trimmed x -> strip ([] ++ [space] ++ x) = x.
Proof.
  intro T. cbn [app]. unfold strip. cbn [lstrip].
  change (is_space space) with true. cbv iota.
  now apply strip_trimmed.
Qed.

(** X11: when the two strings have no token in common, repeat no token
    and have at least one token each, the token-set scores are the
    token-sort scores: the intersection is empty and the combined strings
    are the sorted strings. *)
Theorem token_set_without_common_token (s1 s2 : str) :
  NoDup (split s1) -> NoDup (split s2) ->
  split s1 <> [] -> split s2 <> [] ->
  (forall t, In t (split s1) -> ~ In t (split s2)) ->
  PyFuzz.token_set_ratio (PyStr s1) (PyStr s2)
  = PyFuzz.token_sort_ratio (PyStr s1) (PyStr s2)
  /\ PyFuzz.partial_token_set_ratio (PyStr s1) (PyStr s2)
     = PyFuzz.partial_token_sort_ratio (PyStr s1) (PyStr s2).
Proof.
  intros D1 D2 T1 T2 H.
  assert (N1 : s1 <> []) by (intros ->; now apply T1).
  assert (N2 : s2 <> []) by (intros ->; now apply T2).
  assert (N : s1 <> s2).
  { intros <-. destruct (split s1) as [ | t l] eqn:E; [ congruence | ].
    apply (H t); now left. }
  assert (S1 : set_of (split s1) = split s1)
    by now apply nodup_fixed_point.
  assert (S2 : set_of (split s2) = split s2)
    by now apply nodup_fixed_point.
  assert (I : intersection (set_of (split s1)) (set_of (split s2)) = []).
  { rewrite S1, S2. apply filter_none. intros t Ht.
    apply mem_absent. now apply H. }
  assert (A : difference (set_of (split s1)) (set_of (split s2)) = split s1).
  { rewrite S1, S2. apply filter_all. intros t Ht.
    rewrite mem_absent; [ reflexivity | now apply H ]. }
  assert (B : difference (set_of (split s2)) (set_of (split s1)) = split s2).
  { rewrite S1, S2. apply filter_all. intros t Ht.
    rewrite mem_absent; [ reflexivity | ]. intro Ht'. exact (H t Ht' Ht). }
  assert (R : forall partial,
             PyFuzz._token_set (PyStr s1) (PyStr s2) partial
             = PyFuzz._token_sort (PyStr s1) (PyStr s2) partial).
  { intro partial. unfold PyFuzz._token_set, PyFuzz._token_sort.
    cbn [py_eq]. rewrite (str_eqb_neq _ _ N).
    rewrite (validate_nonempty s1 N1), (validate_nonempty s2 N2).
    rewrite !sort_tokens_value.
    cbn [negb as_str bind]. rewrite I, A, B.
    change (join [space] (sorted str_leb [])) with (@nil ascii).
    change (strip []) with (@nil ascii).
    set (j1 := join [space] (sorted str_leb (split s1))).
    set (j2 := join [space] (sorted str_leb (split s2))).
    assert (F1 : Forall token (sorted str_leb (split s1)))
      by apply sorted_Forall, split_tokens.
    assert (F2 : Forall token (sorted str_leb (split s2)))
      by apply sorted_Forall, split_tokens.
    assert (J1 : j1 <> []).
    { apply join_tokens_nonempty; [ exact F1 | ].
      intro E. apply (f_equal (@length _)) in E.
      rewrite sorted_length in E. destruct (split s1); [ congruence | ].
      discriminate. }
    assert (J2 : j2 <> []).
    { apply join_tokens_nonempty; [ exact F2 | ].
      intro E. apply (f_equal (@length _)) in E.
      rewrite sorted_length in E. destruct (split s2); [ congruence | ].
      discriminate. }
    rewrite (strip_leading_space j1) by now apply join_tokens_trimmed.
    rewrite (strip_leading_space j2) by now apply join_tokens_trimmed.
    assert (Z1 : forall j, j <> [] ->
               (if partial then PyFuzz.partial_ratio else PyFuzz.ratio)
                 (PyStr []) (PyStr j) = Ok 0%Z).
    { intros j Hj. destruct partial;
        unfold PyFuzz.partial_ratio, PyFuzz.ratio;
        apply guarded_empty; auto. }
    rewrite (Z1 j1 J1), (Z1 j2 J2). cbn [bind].
    destruct (ratio_func_score partial j1 j2) as [p [E Bp]].
    rewrite E. cbn [bind]. rewrite max_scores_3.
    transitivity (Ok p : result Z); [ f_equal; lia | ].
    destruct partial; now rewrite <- E. }
  split; apply R.
Qed.

Lemma token_set_without_common_token_witness :
  PyFuzz.token_set_ratio (py "new york mets") (py "atlanta braves")
  = PyFuzz.token_sort_ratio (py "new york mets") (py "atlanta braves").
Proof.
  apply (token_set_without_common_token (s_ "new york mets")
           (s_ "atlanta braves")).
  - vm_compute. repeat constructor; simpl; intuition discriminate.
  - vm_compute. repeat constructor; simpl; intuition discriminate.
  - discriminate.
  - discriminate.
  - intros t. vm_compute. intuition (subst; discriminate).
Defined.

(** ** [partial_ratio] and the order of its arguments *)

(** X12: [partial_ratio] orders its arguments by length, so for strings of
    different lengths the order of the arguments does not matter. *)
Theorem partial_ratio_orders_by_length (s1 s2 : str) :
  length s1 <> length s2 ->
  PyFuzz.partial_ratio (PyStr s1) (PyStr s2)
  = PyFuzz.partial_ratio (PyStr s2) (PyStr s1)
  /\ Fuzz.partial_ratio Fuzz.pure_python (PyStr s1) (PyStr s2)
     = Fuzz.partial_ratio Fuzz.pure_python (PyStr s2) (PyStr s1).
Proof.
  intro L.
  assert (R : PyFuzz.partial_ratio (PyStr s1) (PyStr s2)
              = PyFuzz.partial_ratio (PyStr s2) (PyStr s1)).
  { assert (N : s1 <> s2) by (intros ->; now apply L).
    unfold PyFuzz.partial_ratio.
    destruct (list_eq_dec ascii_dec s1 []) as [E1 | N1].
    { rewrite !guarded_empty; auto. }
    destruct (list_eq_dec ascii_dec s2 []) as [E2 | N2].
    { rewrite !guarded_empty; auto. }
    rewrite !guarded_body by auto.
    cbn [make_type_consistent to_text].
    destruct (Z.leb_spec (Z.of_nat (length s1)) (Z.of_nat (length s2)));
      destruct (Z.leb_spec (Z.of_nat (length s2)) (Z.of_nat (length s1)));
      try reflexivity; lia. }
  split; [ exact R | ].
  unfold Fuzz.partial_ratio. cbn [Fuzz._partial_ratio Fuzz.pure_python].
  now rewrite !public_of_private.
Qed.

Lemma partial_ratio_orders_by_length_witness :
  PyFuzz.partial_ratio (py "new york mets") (py "mets")
  = PyFuzz.partial_ratio (py "mets") (py "new york mets").
Proof.
  apply (partial_ratio_orders_by_length (s_ "new york mets") (s_ "mets")).
  simpl. lia.
Defined.

(** For equal lengths the order decides which string is aligned against
    which, and the two scores can differ. *)
Lemma partial_ratio_equal_lengths_order :
  PyFuzz.partial_ratio (py "tide") (py "diet") = Ok 40%Z
  /\ PyFuzz.partial_ratio (py "diet") (py "tide") = Ok 67%Z.
Proof. split; vm_compute; reflexivity. Qed.

(** ** [partial_ratio] against [ratio] *)

Lemma candidates_In (shorter longer : str) (block : Difflib.Match)
    (blocks : list Difflib.Match) (rs : list float) (r : float) :
  Spec.candidates shorter longer blocks = Ok rs ->
  In block blocks ->
  Difflib.ratio shorter (Spec.window shorter longer block) = Ok r ->
  In r rs.
Proof.
  revert rs. induction blocks as [ | b rest IH]; intros rs E Hin Hr;
    [ destruct Hin | ].
  cbn [Spec.candidates] in E.
  destruct (Difflib.ratio shorter (Spec.window shorter longer b))
    as [r' | e] eqn:Eb; [ | discriminate ].
  cbn [bind] in E.
  destruct (Spec.candidates shorter longer rest) as [rs' | e] eqn:Er;
    [ | discriminate ].
  cbn [bind] in E. injection E as <-.
  destruct Hin as [-> | Hin].
  - left. congruence.
  - right. now apply IH.
Qed.

Lemma largest_ge (r0 r : float) (rs : list float) :
  In r0 (r :: rs) -> r0 <= Spec.largest r rs.
Proof.
  intro H. destruct (largest_is_max r rs) as [_ M].
  apply (M (Float r0)). apply in_map. apply in_or_app.
  destruct H as [-> | H]; [ right; now left | now left ].
Qed.

Lemma whole_window (s1 s2 : str) :
  length s1 = length s2 ->
  Spec.window s1 s2 (Difflib.la s1, Difflib.lb s2, 0%Z) = s2.
Proof.
  intro L. unfold Spec.window, Difflib.la, Difflib.lb, PyFuzz.slice.
  rewrite L, Z.sub_diag. cbn [Z.max Z.compare Z.to_nat skipn].
  rewrite Z.add_0_l, Z.sub_0_r, Nat2Z.id. apply firstn_all.
Qed.

(** X13: for strings of equal length [partial_ratio] is at least [ratio]:
    the window of the terminating block is the whole second string. *)
Theorem partial_ratio_at_least_ratio (s1 s2 : str) :
  length s1 = length s2 ->
  exists r p : Z,
    PyFuzz.ratio (PyStr s1) (PyStr s2) = Ok r
    /\ PyFuzz.partial_ratio (PyStr s1) (PyStr s2) = Ok p
    /\ (r <= p)%Z.
Proof.
  intro L. unfold PyFuzz.ratio, PyFuzz.partial_ratio.
  destruct (list_eq_dec ascii_dec s1 s2) as [-> | N].
  { rewrite !guarded_equal. exists 100%Z, 100%Z. repeat split. lia. }
  destruct (list_eq_dec ascii_dec s1 []) as [E1 | N1].
  { rewrite !guarded_empty by auto. exists 0%Z, 0%Z. repeat split. lia. }
  destruct (list_eq_dec ascii_dec s2 []) as [E2 | N2].
  { rewrite !guarded_empty by auto. exists 0%Z, 0%Z. repeat split. lia. }
  rewrite !guarded_body by auto. cbn [make_type_consistent to_text].
  rewrite L, Z.leb_refl.
  destruct (difflib_ratio_ok s1 s2) as [r0 [E0 [B0 B1]]].
  rewrite E0. cbn [bind].
  destruct (get_matching_blocks_ok s1 s2) as [blocks [-> _]]. cbn [bind].
  rewrite (partial_loop_candidates s1 s2 _ []);
    [ | constructor | left; now destruct blocks ].
  destruct (candidates_ok s1 s2
              (blocks ++ [(Difflib.la s1, Difflib.lb s2, 0%Z)]))
    as [rs [Ec [F _]]].
  rewrite Ec. cbn [bind app].
  assert (Hin : In r0 rs).
  { eapply candidates_In; [ exact Ec | | ].
    - apply in_or_app. right. now left.
    - now rewrite whole_window. }
  exists (intr (mul (Int 100) (Float r0))).
  destruct (existsb (fun r => Qltb (lit 995 1000) r) rs).
  - exists 100%Z. split; [ reflexivity | ]. split; [ reflexivity | ].
    apply (percent_bounds (Float r0)). cbn [value]. now split.
  - destruct rs as [ | r rs']; [ destruct Hin | ].
    cbn [Spec.best_percentage]. eexists.
    split; [ reflexivity | ]. split; [ reflexivity | ].
    unfold intr. cbn [mul to_float round].
    apply rhe_mono. unfold fmul. apply rnd_mono.
    + change (float_of_int 100) with 100%Q. lra.
    + pose proof (largest_ge r0 r rs' Hin).
      change (float_of_int 100) with 100%Q. nra.
Qed.

Lemma partial_ratio_at_least_ratio_witness :
  exists r p : Z,
    PyFuzz.ratio (py "tide") (py "diet") = Ok r
    /\ PyFuzz.partial_ratio (py "tide") (py "diet") = Ok p
    /\ (r <= p)%Z.
Proof.
  apply (partial_ratio_at_least_ratio (s_ "tide") (s_ "diet")).
  reflexivity.
Defined.

(** ** [ratio] without a common character *)

(** X14: two non-empty strings with no character in common have ratio 0:
    the aligner finds no block. *)
Theorem ratio_no_common_character (s1 s2 : str) :
  s1 <> [] -> s2 <> [] -> disjoint s1 s2 ->
  PyFuzz.ratio (PyStr s1) (PyStr s2) = Ok 0%Z
  /\ Fuzz.ratio Fuzz.pure_python (PyStr s1) (PyStr s2) = Ok 0%Z.
Proof.
  intros N1 N2 D.
  assert (N : s1 <> s2).
  { intros <-. destruct s1 as [ | c t]; [ congruence | ].
    apply (D c); now left. }
  assert (R : PyFuzz.ratio (PyStr s1) (PyStr s2) = Ok 0%Z).
  { unfold PyFuzz.ratio. rewrite guarded_body by assumption.
    cbn [make_type_consistent to_text].
    rewrite (ratio_disjoint s1 s2 D N1). reflexivity. }
  split; [ exact R | ].
  unfold Fuzz.ratio. cbn [Fuzz._ratio Fuzz.pure_python].
  now rewrite public_of_private.
Qed.

Lemma ratio_no_common_character_witness :
  PyFuzz.ratio (py "abc") (py "xyzw") = Ok 0%Z.
Proof.
  apply (ratio_no_common_character (s_ "abc") (s_ "xyzw")); try discriminate.
  intros c H1 H2. simpl in H1, H2.
  repeat match goal with
  | H : _ \/ _ |- _ => destruct H
  | H : False |- _ => destruct H
  end; subst; discriminate.
Defined.

(** ** A string aligned with one of its substrings *)

Lemma extend_left_grows (a b : str) (alo blo : Z) (junk : bool) (n : nat) :
  forall best : Difflib.Match,
    (Difflib.size best
     <= Difflib.size (Difflib.extend_left a b alo blo junk n best))%Z.
Proof.
  induction n as [ | n IH]; intros [[bi bj] bs]; cbn [Difflib.extend_left];
    [ apply Z.le_refl | ].
  match goal with |- context [if ?c then _ else _] => destruct c end;
    [ | apply Z.le_refl ].
  eapply Z.le_trans; [ | apply IH ]. unfold Difflib.size. cbn [snd]. lia.
Qed.

Lemma extend_right_grows (a b : str) (ahi bhi : Z) (junk : bool) (n : nat) :
  forall best : Difflib.Match,
    (Difflib.size best
     <= Difflib.size (Difflib.extend_right a b ahi bhi junk n best))%Z.
Proof.
  induction n as [ | n IH]; intros [[bi bj] bs]; cbn [Difflib.extend_right];
    [ apply Z.le_refl | ].
  match goal with |- context [if ?c then _ else _] => destruct c end;
    [ | apply Z.le_refl ].
  eapply Z.le_trans; [ | apply IH ]. unfold Difflib.size. cbn [snd]. lia.
Qed.

Lemma same_at_sym (a b : str) (i j : Z) :
  Difflib.same_at a b i j = Difflib.same_at b a j i.
Proof.
  unfold Difflib.same_at.
  destruct (nth_error a (Z.to_nat i)), (nth_error b (Z.to_nat j));
    try reflexivity.
  apply Ascii.eqb_sym.
Qed.

Section Covering.
Variables a b : str.
Variable p : Z.
Hypothesis b_nonempty : b <> [].
Hypothesis short_b : (length b < 200)%nat.
Hypothesis occ_p : (0 <= p)%Z.
Hypothesis occ :
  forall t : Z, (0 <= t < Difflib.lb b)%Z ->
    Difflib.same_at a b (p + t) t = true.

Lemma occurrence_fits : (p + Difflib.lb b <= Difflib.la a)%Z.
Proof.
  assert (B : (0 < Difflib.lb b)%Z).
  { unfold Difflib.lb. destruct b; [ congruence | cbn [length]; lia ]. }
  assert (H : (0 <= Difflib.lb b - 1 < Difflib.lb b)%Z) by lia.
  apply occ, same_at_true in H. destruct H as [x [Ea _]].
  assert (Z.to_nat (p + (Difflib.lb b - 1)) < length a)%nat
    by (apply nth_error_Some; congruence).
  unfold Difflib.la. lia.
Qed.

(** Row by row the run along the occurrence grows by one, and the best
    block with it. *)
Lemma scan_rows_cover (n : nat) :
  forall (i0 : Z) (d : Difflib.dict) (best : Difflib.Match),
    Z.to_nat (Difflib.la a - i0) = n -> (0 <= i0)%Z ->
    row_ok 0 0 (i0 - 1) d ->
    inside 0 (Difflib.la a) 0 (Difflib.lb b) best ->
    ((p < i0 <= p + Difflib.lb b)%Z ->
       (i0 - p <= Difflib.dict_get d (i0 - 1 - p) 0)%Z) ->
    ((p <= i0)%Z -> (Z.min (i0 - p) (Difflib.lb b) <= Difflib.size best)%Z) ->
    let r := Difflib.scan_rows a b 0 (Difflib.lb b)
               (Difflib.range i0 (Difflib.la a)) d best in
    inside 0 (Difflib.la a) 0 (Difflib.lb b) r
    /\ (Difflib.lb b <= Difflib.size r)%Z.
Proof.
  pose proof occurrence_fits as Fit.
  assert (A_range : (0 <= Difflib.la a)%Z) by (unfold Difflib.la; lia).
  assert (B_range : (0 <= Difflib.lb b)%Z) by (unfold Difflib.lb; lia).
  induction n as [ | n IH]; intros i0 d best Hn Hi RO IN RUN SB;
    rewrite range_unfold.
  - destruct (Z.ltb_spec i0 (Difflib.la a)); [ lia | ]. simpl.
    split; [ exact IN | ]. assert (P : (p <= i0)%Z) by lia.
    specialize (SB P). lia.
  - destruct (Z.ltb_spec i0 (Difflib.la a)) as [Hlt | ]; [ | lia ].
    cbn [Difflib.scan_rows].
    destruct (nth_error a (Z.to_nat i0)) as [elt | ] eqn:Ea;
      [ | apply nth_error_None in Ea; unfold Difflib.la in Hlt; lia ].
    rewrite (b2j_complete b short_b).
    set (js := Difflib.indices_from 0 elt b).
    assert (F : Forall (fun j => 0 <= j < Difflib.lb b)%Z js).
    { apply Forall_forall. intros j Hj. apply indices_from_In in Hj.
      unfold Difflib.lb. lia. }
    pose proof (indices_from_NoDup elt b 0) as ND. fold js in ND.
    assert (RO0 : row_ok 0 0 i0 []) by (intro j; simpl; lia).
    destruct (scan_row_ok 0 (Difflib.la a) 0 (Difflib.lb b)
                i0 js (conj Hi Hlt) d [] best RO RO0 IN) as [RO' IN'].
    destruct (scan_row_full 0 (Difflib.lb b) i0 js F ND d [] best)
      as [D1 [_ [D3 D4]]].
    destruct (Difflib.scan_row 0 (Difflib.lb b) i0 js d [] best)
      as [newj2len best'].
    cbn [fst snd] in *.
    assert (On : (p <= i0 < p + Difflib.lb b)%Z ->
                 In (i0 - p)%Z js
                 /\ (i0 + 1 - p
                     <= Difflib.dict_get d (i0 - p - 1) 0 + 1)%Z).
    { intro R. split.
      - assert (T : (0 <= i0 - p < Difflib.lb b)%Z) by lia.
        apply occ, same_at_true in T. destruct T as [x [Ex Eb]].
        replace (p + (i0 - p))%Z with i0 in Ex by lia.
        apply indices_from_In. rewrite Z.sub_0_r.
        split; [ unfold Difflib.lb in R; lia | congruence ].
      - destruct (Z.eq_dec i0 p) as [-> | N].
        + pose proof (RO (p - p - 1)%Z). lia.
        + assert (Q : (p < i0 <= p + Difflib.lb b)%Z) by lia.
          specialize (RUN Q).
          replace (i0 - p - 1)%Z with (i0 - 1 - p)%Z by lia. lia. }
    assert (K0 : (0 <= Difflib.size best')%Z).
    { destruct best' as [[bi bj] bk]. unfold inside in IN'.
      unfold Difflib.size. cbn [snd]. lia. }
    apply IH; try assumption; try lia.
    + now replace (i0 + 1 - 1)%Z with i0 by lia.
    + intro R. assert (R' : (p <= i0 < p + Difflib.lb b)%Z) by lia.
      destruct (On R') as [Jd K].
      replace (i0 + 1 - 1 - p)%Z with (i0 - p)%Z by lia.
      rewrite (D1 _ Jd). exact K.
    + intro R.
      destruct (Z_lt_le_dec i0 p) as [L | L]; [ lia | ].
      destruct (Z_lt_le_dec i0 (p + Difflib.lb b)) as [U | U].
      * destruct (On (conj L U)) as [Jd K].
        specialize (D4 _ Jd). lia.
      * specialize (SB L). lia.
Qed.

(** The first search finds the whole of [b] somewhere in [a]. *)
Lemma find_longest_match_cover :
  exists i : Z,
    Difflib.find_longest_match a b 0 (Difflib.la a) 0 (Difflib.lb b)
    = (i, 0%Z, Difflib.lb b).
Proof.
  assert (A_range : (0 <= Difflib.la a)%Z) by (unfold Difflib.la; lia).
  assert (B_range : (0 <= Difflib.lb b)%Z) by (unfold Difflib.lb; lia).
  pose proof (find_longest_match_inside a b 0 (Difflib.la a) 0 (Difflib.lb b)
                A_range B_range) as IN.
  unfold Difflib.find_longest_match in *.
  destruct (scan_rows_cover (Z.to_nat (Difflib.la a - 0)) 0%Z []
              (0, 0, 0)%Z eq_refl) as [_ S0]; try lia.
  - intro j. simpl. lia.
  - unfold inside. lia.
  - unfold Difflib.size. cbn [snd]. lia.
  - set (best0 := Difflib.scan_rows a b 0 (Difflib.lb b)
                    (Difflib.range 0 (Difflib.la a)) [] (0, 0, 0)%Z) in *.
    pose proof (extend_left_grows a b 0 0 false
                  (Difflib.left_room 0 best0) best0) as S1.
    set (best1 := Difflib.extend_left a b 0 0 false
                    (Difflib.left_room 0 best0) best0) in *.
    pose proof (extend_right_grows a b (Difflib.la a) (Difflib.lb b) false
                  (Difflib.right_room (Difflib.la a) best1) best1) as S2.
    set (best2 := Difflib.extend_right a b (Difflib.la a) (Difflib.lb b) false
                    (Difflib.right_room (Difflib.la a) best1) best1) in *.
    pose proof (extend_left_grows a b 0 0 true
                  (Difflib.left_room 0 best2) best2) as S3.
    set (best3 := Difflib.extend_left a b 0 0 true
                    (Difflib.left_room 0 best2) best2) in *.
    pose proof (extend_right_grows a b (Difflib.la a) (Difflib.lb b) true
                  (Difflib.right_room (Difflib.la a) best3) best3) as S4.
    destruct (Difflib.extend_right a b (Difflib.la a) (Difflib.lb b) true
                (Difflib.right_room (Difflib.la a) best3) best3)
      as [[i j] k].
    unfold inside, Difflib.size in *. cbn [snd] in S4.
    assert (j = 0%Z) by lia. assert (k = Difflib.lb b) by lia. subst j k.
    now exists i.
Qed.

(** The blocks of the aligner then cover all of [b]. *)
Lemma matches_cover : Spec.matches a b = Ok (Difflib.lb b).
Proof.
  destruct find_longest_match_cover as [i E].
  assert (Lb : (0 < Difflib.lb b)%Z).
  { unfold Difflib.lb. destruct b; [ congruence | cbn [length]; lia ]. }
  unfold Spec.matches, Difflib.get_matching_blocks, Difflib.blocks_fuel.
  replace (2 * length a + 1)%nat with (S (2 * length a)) by lia.
  cbn [Difflib.blocks_loop]. rewrite E.
  destruct (Z.eqb_spec (Difflib.lb b) 0); [ lia | ].
  rewrite Z.add_0_l, !Z.ltb_irrefl, !andb_false_r. cbn [app].
  replace (Difflib.blocks_loop a b (2 * length a) []
             [(i, 0%Z, Difflib.lb b)])
    with (Ok [(i, 0%Z, Difflib.lb b)])
    by (destruct (2 * length a)%nat; reflexivity).
  cbn [bind]. f_equal.
  rewrite sum_sizes_app, sum_sizes_collapse, sum_sizes_sorted.
  unfold Difflib.sum_sizes, Difflib.size. cbn [fold_right snd]. lia.
Qed.

End Covering.

(** ** [ratio] and the order of its arguments *)

(** The two orders agree as soon as the aligner reports the same total
    block size for both. *)
Lemma ratio_symmetric_of_matches (s1 s2 : str) :
  Spec.matches s1 s2 = Spec.matches s2 s1 ->
  PyFuzz.ratio (PyStr s1) (PyStr s2) = PyFuzz.ratio (PyStr s2) (PyStr s1).
Proof.
  intro H.
  destruct (list_eq_dec ascii_dec s1 s2) as [-> | N]; [ reflexivity | ].
  destruct (list_eq_dec ascii_dec s1 []) as [E1 | N1].
  { unfold PyFuzz.ratio. rewrite !guarded_empty; auto. }
  destruct (list_eq_dec ascii_dec s2 []) as [E2 | N2].
  { unfold PyFuzz.ratio. rewrite !guarded_empty; auto. }
  unfold PyFuzz.ratio. rewrite !guarded_body by auto.
  cbn [make_type_consistent to_text].
  rewrite !difflib_ratio_matches, H.
  unfold Difflib.la, Difflib.lb.
  now rewrite (Z.add_comm (Z.of_nat (length s1))).
Qed.

Lemma matches_disjoint (s1 s2 : str) :
  disjoint s1 s2 -> Spec.matches s1 s2 = Ok 0%Z.
Proof.
  intro D. unfold Spec.matches.
  now rewrite (get_matching_blocks_disjoint s1 s2 D).
Qed.

(** When [needle] occurs in [hay] and both are short enough for the index
    to be complete, the aligner matches all of [needle] in either order. *)
Lemma matches_substring (needle hay : str) :
  needle <> [] -> (length needle < 200)%nat -> (length hay < 200)%nat ->
  Spec.occurs_in needle hay ->
  Spec.matches needle hay = Ok (Z.of_nat (length needle))
  /\ Spec.matches hay needle = Ok (Z.of_nat (length needle)).
Proof.
  intros N Sn Sh [pre [post E]].
  assert (P : (0 <= Z.of_nat (length pre))%Z) by lia.
  split.
  - destruct (get_matching_blocks_whole needle hay (Z.of_nat (length pre))
                N Sh P (fun t => occurs_same_at needle hay pre post t E))
      as [j [B _]].
    unfold Spec.matches. rewrite B. cbn [bind]. f_equal.
    unfold Difflib.sum_sizes, Difflib.size, Difflib.la.
    cbn [fold_right snd]. lia.
  - apply (matches_cover hay needle (Z.of_nat (length pre)) N Sn P).
    intros t Ht. rewrite same_at_sym.
    now apply (occurs_same_at needle hay pre post t E).
Qed.

(** C6 (amended): the two orders of [ratio] agree when the strings are
    equal, when one of them is empty, when they have no character in
    common, and when one occurs in the other as a contiguous substring and
    both have fewer than 200 characters; the same holds for the public
    [ratio]. *)
Theorem ratio_symmetric_cases (s1 s2 : str) :
  s1 = s2 \/ s1 = [] \/ s2 = [] \/ disjoint s1 s2
  \/ ((length s1 < 200)%nat /\ (length s2 < 200)%nat
      /\ (Spec.occurs_in s1 s2 \/ Spec.occurs_in s2 s1)) ->
  PyFuzz.ratio (PyStr s1) (PyStr s2) = PyFuzz.ratio (PyStr s2) (PyStr s1)
  /\ Fuzz.ratio Fuzz.pure_python (PyStr s1) (PyStr s2)
     = Fuzz.ratio Fuzz.pure_python (PyStr s2) (PyStr s1).
Proof.
  intro H.
  assert (R : PyFuzz.ratio (PyStr s1) (PyStr s2)
              = PyFuzz.ratio (PyStr s2) (PyStr s1)).
  { destruct (list_eq_dec ascii_dec s1 s2) as [-> | N]; [ reflexivity | ].
    destruct (list_eq_dec ascii_dec s1 []) as [E1 | N1].
    { unfold PyFuzz.ratio. rewrite !guarded_empty; auto. }
    destruct (list_eq_dec ascii_dec s2 []) as [E2 | N2].
    { unfold PyFuzz.ratio. rewrite !guarded_empty; auto. }
    apply ratio_symmetric_of_matches.
    destruct H as [H | [H | [H | [D | [L1 [L2 [O | O]]]]]]];
      try contradiction.
    - rewrite (matches_disjoint s1 s2 D).
      symmetry. apply matches_disjoint.
      intros c H2 H1. exact (D c H1 H2).
    - destruct (matches_substring s1 s2 N1 L1 L2 O) as [-> ->].
      reflexivity.
    - destruct (matches_substring s2 s1 N2 L2 L1 O) as [-> ->].
      reflexivity. }
  split; [ exact R | ].
  unfold Fuzz.ratio. cbn [Fuzz._ratio Fuzz.pure_python check_for_none].
  now rewrite !rounded_as_num.
Qed.

Lemma ratio_symmetric_cases_witness :
  PyFuzz.ratio (py "mets") (py "new york mets")
  = PyFuzz.ratio (py "new york mets") (py "mets").
Proof.
  apply (ratio_symmetric_cases (s_ "mets") (s_ "new york mets")).
  right. right. right. right.
  split; [ simpl; lia | ]. split; [ simpl; lia | ].
  left. exists (s_ "new york "), []. reflexivity.
Defined.
